(** * metalsmith-link-checker: a shallow embedding of [lib/index.js]

    The development follows the layout of the source file:

    - [RegExp]: the fragment of JavaScript regular expressions the plugin
      uses (literals, [.], character classes, sequencing, alternation,
      [*], [+], [?], the anchors [^] and [$]), with a matcher and its
      correctness against a declarative semantics;
    - [Lexical]: [validFacetime], [validMailto], [validSms], [validTel];
    - [PosixPath]: the two functions of Node's [path] module the local
      resolver calls ([dirname], [join]), in their POSIX variant;
    - [PlainObject]: the names an object literal inherits;
    - [Local]: [validLocal];
    - [URL]: Node's URL parser, a parameter of the development;
    - [Network]: [validUrl] with its module-level cache, as an event-driven
      state machine (requests in flight, timers, callbacks);
    - [Plugin]: the function [async.mapLimit] applies to each link;
    - [Report]: the completion callback handed to [async.mapLimit];
    - [Pipeline]: what the plugin does before it validates anything: the
      normalised document set, the duplicate filter and the ignore filter.

    JavaScript strings are modelled as [string]: sequences of 8-bit
    code units, so the development speaks of the strings whose code
    units are all below 256, among which the line terminators are LF and
    CR.  Objects used as dictionaries are finite maps and sets of their
    own keys, together with the names every object literal inherits from
    [Object.prototype] ([PlainObject]).  [path] is Node's POSIX variant. *)

From Stdlib Require Import Ascii String ZArith Lia Bool List.
From stdpp Require Import base option list strings pretty gmap sorting.

(* ================================================================== *)
(** * Regular expressions *)
(* ================================================================== *)

Module RegExp.

(** One member of a bracketed character class: [c] or [lo-hi]. *)
Inductive class_item : Type :=
| One (c : ascii)
| Range (lo hi : ascii).

(** Single-character atoms. *)
Inductive atom : Type :=
| Lit (c : ascii)                    (* a literal character *)
| Dot                                (* [.]  *)
| Class (items : list class_item)    (* [[...]]  *)
| NegClass (items : list class_item) (* [[^...]] *).

Inductive regex : Type :=
| Void
| Eps
| Atom (a : atom)
| Seq (r1 r2 : regex)
| Alt (r1 r2 : regex)
| Star (r : regex).

(** [r+] and [r?]. *)
Definition Plus (r : regex) : regex := Seq r (Star r).
Definition Opt (r : regex) : regex := Alt r Eps.

(** A literal run of characters, such as [mailto:]. *)
Fixpoint Str (s : string) : regex :=
  match s with
  | EmptyString => Eps
  | String c s' => Seq (Atom (Lit c)) (Str s')
  end.

(** A regular expression literal without flags: [/^body$/], [/^body/],
    [/body$/] or [/body/]. *)
Record pattern : Type := Pattern {
  at_start : bool;
  body : regex;
  at_end : bool
}.

Definition in_item (x : ascii) (i : class_item) : bool :=
  match i with
  | One c => Ascii.eqb x c
  | Range lo hi =>
      (nat_of_ascii lo <=? nat_of_ascii x)%nat
      && (nat_of_ascii x <=? nat_of_ascii hi)%nat
  end.

(** Line terminators among the 8-bit code units: LF and CR.  (The other
    two of ECMAScript, U+2028 and U+2029, are code units from 256 up.) *)
Definition line_terminator (x : ascii) : bool :=
  Ascii.eqb x "010"%char || Ascii.eqb x "013"%char.

Definition accepts (a : atom) (x : ascii) : bool :=
  match a with
  | Lit c => Ascii.eqb x c
  | Dot => negb (line_terminator x)
  | Class items => existsb (in_item x) items
  | NegClass items => negb (existsb (in_item x) items)
  end.

(** Any code unit at all: [[^]]. *)
Definition AnyChar : regex := Atom (NegClass []).

(** ** Declarative semantics *)

Inductive Matches : regex -> string -> Prop :=
| MEps : Matches Eps EmptyString
| MAtom a x : accepts a x = true -> Matches (Atom a) (String x EmptyString)
| MSeq r1 r2 s1 s2 :
    Matches r1 s1 -> Matches r2 s2 -> Matches (Seq r1 r2) (s1 +:+ s2)
| MAltL r1 r2 s : Matches r1 s -> Matches (Alt r1 r2) s
| MAltR r1 r2 s : Matches r2 s -> Matches (Alt r1 r2) s
| MStarNil r : Matches (Star r) EmptyString
| MStarApp r s1 s2 :
    Matches r s1 -> Matches (Star r) s2 -> Matches (Star r) (s1 +:+ s2).

(** ** The matcher (Brzozowski derivatives) *)

Fixpoint nullable (r : regex) : bool :=
  match r with
  | Void => false
  | Eps => true
  | Atom _ => false
  | Seq r1 r2 => nullable r1 && nullable r2
  | Alt r1 r2 => nullable r1 || nullable r2
  | Star _ => true
  end.

Fixpoint deriv (x : ascii) (r : regex) : regex :=
  match r with
  | Void => Void
  | Eps => Void
  | Atom a => if accepts a x then Eps else Void
  | Seq r1 r2 =>
      if nullable r1
      then Alt (Seq (deriv x r1) r2) (deriv x r2)
      else Seq (deriv x r1) r2
  | Alt r1 r2 => Alt (deriv x r1) (deriv x r2)
  | Star r1 => Seq (deriv x r1) (Star r1)
  end.

Fixpoint matchb (r : regex) (s : string) : bool :=
  match s with
  | EmptyString => nullable r
  | String x s' => matchb (deriv x r) s'
  end.

(** [s.match(p)] is truthy, equivalently [p.test(s)]: some substring of
    [s], placed as the anchors demand, belongs to the body. *)
Definition unanchored (p : pattern) : regex :=
  let r1 := if at_start p then body p else Seq (Star AnyChar) (body p) in
  if at_end p then r1 else Seq r1 (Star AnyChar).

Definition test (p : pattern) (s : string) : bool := matchb (unanchored p) s.

(** [s.replace(/r$/, "")]: the leftmost position from which the rest of
    [s] matches [r] is where the string is cut; without such a position
    [s] is returned unchanged. *)
Fixpoint replace_to_end (r : regex) (s : string) : string :=
  if matchb r s then EmptyString
  else match s with
       | EmptyString => EmptyString
       | String x s' => String x (replace_to_end r s')
       end.

(** [s.replace(/a/g, "")] for a single-character pattern [a]. *)
Fixpoint remove_all (a : atom) (s : string) : string :=
  match s with
  | EmptyString => EmptyString
  | String x s' =>
      if accepts a x then remove_all a s' else String x (remove_all a s')
  end.

End RegExp.

(** [s.indexOf(c)] for a one-character needle; [-1] when absent. *)
Fixpoint indexOf_from (c : ascii) (s : string) (i : Z) : Z :=
  match s with
  | EmptyString => (-1)%Z
  | String x s' => if Ascii.eqb x c then i else indexOf_from c s' (i + 1)%Z
  end.

Definition indexOf (c : ascii) (s : string) : Z := indexOf_from c s 0%Z.

(** A validation result: [None] is JavaScript's [null] (valid), [Some r]
    the diagnostic string. *)
Abbreviation verdict := (option string).

(** Truthiness of a [?string]: [null] and the empty string are falsy. *)
Definition truthy (r : verdict) : bool :=
  match r with
  | None => false
  | Some s => negb (String.eqb s "")
  end.

(* ================================================================== *)
(** * Lexical validators *)
(* ================================================================== *)

Module Lexical.
Import RegExp.

Definition digits_dot_plus_minus : atom :=
  Class [Range "0" "9"; One "."; One "+"; One "-"].

(** [/[0-9]/] *)
Definition re_digit : pattern :=
  Pattern false (Atom (Class [Range "0" "9"])) false.

(** [/^facetime:[^@]+@.+$/] *)
Definition re_facetime_email : pattern :=
  Pattern true
    (Seq (Str "facetime:")
      (Seq (Plus (Atom (NegClass [One "@"])))
        (Seq (Atom (Lit "@")) (Plus (Atom Dot)))))
    true.

(** [/^facetime:[0-9.+-]+$/] *)
Definition re_facetime_phone : pattern :=
  Pattern true (Seq (Str "facetime:") (Plus (Atom digits_dot_plus_minus))) true.

Definition validFacetime (link : string) : verdict :=
  if String.eqb link "facetime:" then None
  else if (indexOf "@" link =? -1)%Z && negb (test re_digit link)
  then Some "invalid"
  else if (indexOf "@" link >=? 0)%Z then
    if negb (test re_facetime_email link) then Some "invalid email address"
    else None
  else
    if negb (indexOf " " link =? -1)%Z then Some "contains a space"
    else if negb (test re_facetime_phone link) then Some "invalid phone number"
    else None.

(** [(subject|cc|bcc|body)] *)
Definition mailto_key : regex :=
  Alt (Str "subject") (Alt (Str "cc") (Alt (Str "bcc") (Str "body"))).

(** [(subject|cc|bcc|body)=[^&]+] *)
Definition mailto_param : regex :=
  Seq mailto_key (Seq (Atom (Lit "=")) (Plus (Atom (NegClass [One "&"])))).

(** [mailto:[^@]+] *)
Definition mailto_local : regex :=
  Seq (Str "mailto:") (Plus (Atom (NegClass [One "@"]))).

(** [mailto:[^@]+@[^?]+] *)
Definition mailto_address : regex :=
  Seq mailto_local (Seq (Atom (Lit "@")) (Plus (Atom (NegClass [One "?"])))).

(** [/^mailto:[^@]+/] *)
Definition re_mailto_local : pattern := Pattern true mailto_local false.

(** [/^mailto:[^@]+@[^?]+/] *)
Definition re_mailto_domain : pattern := Pattern true mailto_address false.

(** [/^mailto:[^@]+@[^?]+(\?(subject|cc|bcc|body)=[^&]+(&(subject|cc|bcc|body)=[^&]+)?)?$/] *)
Definition re_mailto_full : pattern :=
  Pattern true
    (Seq mailto_address
      (Opt (Seq (Atom (Lit "?"))
             (Seq mailto_param
                  (Opt (Seq (Atom (Lit "&")) mailto_param))))))
    true.

Definition validMailto (link : string) : verdict :=
  if negb (test re_mailto_local link) then Some "invalid local-part"
  else if negb (test re_mailto_domain link) then Some "invalid domain"
  else if negb (test re_mailto_full link) then Some "invalid query params"
  else None.

(** [/^sms:([0-9.+-]+)?$/] *)
Definition re_sms : pattern :=
  Pattern true (Seq (Str "sms:") (Opt (Plus (Atom digits_dot_plus_minus)))) true.

(** [/^tel:([0-9.+-]+)?$/] *)
Definition re_tel : pattern :=
  Pattern true (Seq (Str "tel:") (Opt (Plus (Atom digits_dot_plus_minus)))) true.

Definition validSms (link : string) : verdict :=
  if negb (test re_sms (remove_all (Lit " ") link)) then Some "invalid"
  else if negb (indexOf " " link =? -1)%Z then Some "contains a space"
  else None.

Definition validTel (link : string) : verdict :=
  if negb (test re_tel (remove_all (Lit " ") link)) then Some "invalid"
  else if negb (indexOf " " link =? -1)%Z then Some "contains a space"
  else None.

End Lexical.

(* ================================================================== *)
(** * Node's [path.posix]: [dirname] and [join] *)
(* ================================================================== *)

Module PosixPath.

Definition len (s : string) : Z := Z.of_nat (String.length s).

(** [s.charCodeAt(i) === c] *)
Definition char_is (s : string) (i : Z) (c : ascii) : bool :=
  if (i <? 0)%Z then false
  else match String.get (Z.to_nat i) s with
       | Some x => Ascii.eqb x c
       | None => false
       end.

(** [s.slice(a, b)] for [0 <= a]. *)
Definition slice (s : string) (a b : Z) : string :=
  String.substring (Z.to_nat a) (Z.to_nat (b - a)) s.

(** [s.lastIndexOf("/")] *)
Fixpoint lastIndexOf_from (s : string) (i : Z) (found : Z) : Z :=
  match s with
  | EmptyString => found
  | String x s' =>
      lastIndexOf_from s' (i + 1) (if Ascii.eqb x "/" then i else found)
  end.

Definition lastIndexOf_slash (s : string) : Z := lastIndexOf_from s 0 (-1).

(** The local variables of [normalizeString]. *)
Record norm_state : Type := NormState {
  res : string;
  lastSegmentLength : Z;
  lastSlash : Z;
  dots : Z
}.

(** The loop body of [normalizeString] at index [i] when the current
    code unit is a separator (or the end of the path is reached). *)
Definition at_separator (allowAboveRoot : bool) (path : string) (i : Z)
    (st : norm_state) : norm_state :=
  let above (st : norm_state) :=
    if allowAboveRoot
    then NormState
           (if (len (res st) >? 0)%Z then res st +:+ "/.." else "..")
           2 i 0
    else NormState (res st) (lastSegmentLength st) i 0 in
  if (lastSlash st =? i - 1)%Z || (dots st =? 1)%Z then
    NormState (res st) (lastSegmentLength st) i 0
  else if (dots st =? 2)%Z then
    if (len (res st) <? 2)%Z
       || negb (lastSegmentLength st =? 2)%Z
       || negb (char_is (res st) (len (res st) - 1) ".")
       || negb (char_is (res st) (len (res st) - 2) ".")
    then
      if (len (res st) >? 2)%Z then
        let lastSlashIndex := lastIndexOf_slash (res st) in
        if (lastSlashIndex =? -1)%Z then NormState "" 0 i 0
        else
          let res' := slice (res st) 0 lastSlashIndex in
          NormState res' (len res' - 1 - lastIndexOf_slash res') i 0
      else if negb (len (res st) =? 0)%Z then NormState "" 0 i 0
      else above st
    else above st
  else
    let segment := slice path (lastSlash st + 1) i in
    NormState
      (if (len (res st) >? 0)%Z then res st +:+ "/" +:+ segment else segment)
      (i - lastSlash st - 1) i 0.

(** The loop body for any other code unit. *)
Definition at_char (code : ascii) (st : norm_state) : norm_state :=
  if Ascii.eqb code "." && negb (dots st =? -1)%Z
  then NormState (res st) (lastSegmentLength st) (lastSlash st) (dots st + 1)
  else NormState (res st) (lastSegmentLength st) (lastSlash st) (-1).

(** The [for] loop of [normalizeString]: [rest] is what is left of [path]
    from index [i], [code] the code unit read last. *)
Fixpoint normalize_loop (allowAboveRoot : bool) (path rest : string) (i : Z)
    (code : ascii) (st : norm_state) : norm_state :=
  match rest with
  | String c rest' =>
      normalize_loop allowAboveRoot path rest' (i + 1) c
        (if Ascii.eqb c "/" then at_separator allowAboveRoot path i st
         else at_char c st)
  | EmptyString =>
      if Ascii.eqb code "/" then st
      else at_separator allowAboveRoot path i st
  end.

Definition normalizeString (path : string) (allowAboveRoot : bool) : string :=
  res (normalize_loop allowAboveRoot path path 0 "000" (NormState "" 0 (-1) 0)).

Definition normalize (path : string) : string :=
  if (len path =? 0)%Z then "."
  else
    let isAbsolute := char_is path 0 "/" in
    let trailingSeparator := char_is path (len path - 1) "/" in
    let path' := normalizeString path (negb isAbsolute) in
    if (len path' =? 0)%Z then
      if isAbsolute then "/" else if trailingSeparator then "./" else "."
    else
      let path'' := if trailingSeparator then path' +:+ "/" else path' in
      if isAbsolute then "/" +:+ path'' else path''.

(** [path.join(...args)]: the non-empty arguments glued with ["/"], then
    normalised. *)
Fixpoint join_args (joined : option string) (args : list string)
    : option string :=
  match args with
  | [] => joined
  | arg :: args' =>
      if (len arg >? 0)%Z then
        join_args (Some (match joined with
                         | None => arg
                         | Some j => j +:+ "/" +:+ arg
                         end)) args'
      else join_args joined args'
  end.

Definition join (args : list string) : string :=
  match join_args None args with
  | None => "."
  | Some joined => normalize joined
  end.

(** The backwards scan of [dirname], from index [i] down to 1; the result
    is the local variable [end]. *)
Fixpoint dirname_scan (path : string) (i : nat) (matchedSlash : bool) : Z :=
  match i with
  | O => (-1)%Z
  | S j =>
      if char_is path (Z.of_nat i) "/" then
        if negb matchedSlash then Z.of_nat i
        else dirname_scan path j matchedSlash
      else dirname_scan path j false
  end.

Definition dirname (path : string) : string :=
  if (len path =? 0)%Z then "."
  else
    let hasRoot := char_is path 0 "/" in
    let end_ := dirname_scan path (String.length path - 1) true in
    if (end_ =? -1)%Z then (if hasRoot then "/" else ".")
    else if hasRoot && (end_ =? 1)%Z then "//"
    else slice path 0 end_.

End PosixPath.

(* ================================================================== *)
(** * Object literals used as dictionaries *)
(* ================================================================== *)

Module PlainObject.

(** The properties an object literal inherits from [Object.prototype]. *)
Definition inherited_names : list string :=
  ["constructor"; "__defineGetter__"; "__defineSetter__"; "hasOwnProperty";
   "__lookupGetter__"; "__lookupSetter__"; "isPrototypeOf";
   "propertyIsEnumerable"; "toString"; "valueOf"; "__proto__";
   "toLocaleString"].

Definition inherited (key : string) : bool :=
  existsb (String.eqb key) inherited_names.

(** [key in obj], for an object literal [obj] with the own keys [own]:
    the operator also sees what [obj] inherits. *)
Definition in_ (key : string) (own : gset string) : bool :=
  bool_decide (key ∈ own) || inherited key.

End PlainObject.

(* ================================================================== *)
(** * The local resolver *)
(* ================================================================== *)

Module Local.
Import RegExp.

(** [/#.*$/] and [/\?.*$/], without their end anchor. *)
Definition re_anchor : regex := Seq (Atom (Lit "#")) (Star (Atom Dot)).
Definition re_query : regex := Seq (Atom (Lit "?")) (Star (Atom Dot)).

Definition is_self (p : string) : bool :=
  String.eqb p "" || String.eqb p "." || String.eqb p "./".

(** [dest.substr(1)] *)
Definition substr1 (s : string) : string :=
  match s with
  | EmptyString => EmptyString
  | String _ s' => s'
  end.

(** The expression bound to [linkPath]. *)
Definition resolve (src dest : string) : string :=
  if PosixPath.char_is dest 0 "/" then substr1 dest
  else PosixPath.join [PosixPath.dirname src; dest].

(** [files] is the set of own keys of the object literal
    [normalizedFilenames]. *)
Definition validLocal (files : gset string) (src dest : string) : bool :=
  let dest := replace_to_end re_anchor dest in
  let dest := replace_to_end re_query dest in
  if is_self dest then true
  else
    let linkPath := resolve src dest in
    if is_self linkPath then true
    else if PlainObject.in_ linkPath files then true
    else
      let index := PosixPath.join [linkPath; "index.html"] in
      if PlainObject.in_ index files then true
      else false.

(** The argument the dispatcher hands to [callbackResult] for a link
    without protocol. *)
Definition localResult (files : gset string) (filename link : string) : verdict :=
  if validLocal files filename link then None else Some "not found".

End Local.

(* ================================================================== *)
(** * Node's URL parser *)
(* ================================================================== *)

(** [new URL(link).protocol]: the scheme of [link] in lower case
    followed by a colon; [None] when [new URL(link)] throws.  The parser
    is Node's, not the plugin's: it is a parameter of the development.
    The plugin reaches it through [urlParse], and Node's [http.request]
    and [https.request] apply it to the link they are given.

    Two facts about the parser are used: the protocol holds the colon,
    and, as there is no base URL, the parser finds a scheme only in
    front of a colon: when [new URL(link)] returns, neither
    [protocol.indexOf(":")] nor [link.indexOf(":")] is [-1]. *)
Class URL := {
  protocol_of : string -> option string;
  protocol_with_colon :
    forall link protocol,
      protocol_of link = Some protocol -> String.index 0 ":" protocol <> None;
  protocol_after_colon :
    forall link protocol,
      protocol_of link = Some protocol -> String.index 0 ":" link <> None
}.

(* ================================================================== *)
(** * The network validator *)
(* ================================================================== *)

Module Network.

Inductive http_method : Type := HEAD | GET.

Definition is_GET (m : http_method) : bool :=
  match m with GET => true | HEAD => false end.

(** The plugin options [validUrl] and the dispatcher read. *)
Record options : Type := Options {
  attempts : nat;
  timeout : Z;
  userAgent : string;
  parallelism : nat
}.

(** The identity of a [callbackResult] closure: the run that created it
    and the position of its occurrence in that run's list of links. *)
Record callback_id : Type := Callback { cb_run : nat; cb_index : nat }.

(** The arguments of one invocation
    [validUrl(link, options, callback, attempt, method)]; [opts] is the
    argument [options], the options of the plugin instance the
    invocation belongs to. *)
Record probe : Type := Probe {
  link : string;
  opts : options;
  callback : callback_id;
  attempt : nat;
  method : http_method
}.

(** How a request ends: the response callback fires with a status code,
    or the request emits ["error"] (a timeout destroys the request, which
    emits ["error"] as well). *)
Inductive reply : Type :=
| Response (statusCode : Z)
| TransportError (message : string).

Inductive event : Type :=
| Sent (p : probe)                        (* [library.request(...)] / [req.end()] *)
| Scheduled (delay : Z) (p : probe)       (* [setTimeout(..., delay)] *)
| Called (c : callback_id) (r : verdict)  (* [callback(null, r)] *)
| CalledWithInherited (c : callback_id) (key : string)
                                          (* [callback(null, Object.prototype[key])] *)
| Threw (p : probe)                       (* [library.request(...)] threw *).

(** The state of the module between two turns of the event loop:
    [validUrlCache] is the module-level constant of that name, shared by
    every plugin instance and every run; the other fields are the
    requests awaiting their reply, the timers awaiting their expiry, and
    what has happened so far. *)
Record state : Type := State {
  validUrlCache : gmap string verdict;
  inflight : list probe;
  timers : list (Z * probe);
  history : list event
}.

(** The state when the module has just been loaded. *)
Definition module_init : state := State ∅ [] [] [].

Definition request (p : probe) (s : state) : state :=
  State (validUrlCache s) (inflight s ++ [p]) (timers s) (history s ++ [Sent p]).

Definition setTimeout (delay : Z) (p : probe) (s : state) : state :=
  State (validUrlCache s) (inflight s) (timers s ++ [(delay, p)])
        (history s ++ [Scheduled delay p]).

Definition call (c : callback_id) (r : verdict) (s : state) : state :=
  State (validUrlCache s) (inflight s) (timers s) (history s ++ [Called c r]).

(** The callback is handed what the cache inherits under the name
    [key]: a function or, for ["__proto__"], the prototype itself. *)
Definition call_inherited (c : callback_id) (key : string) (s : state) : state :=
  State (validUrlCache s) (inflight s) (timers s)
        (history s ++ [CalledWithInherited c key]).

(** An exception leaves the invocation [p]: nothing is sent, scheduled,
    cached or called. *)
Definition throw (p : probe) (s : state) : state :=
  State (validUrlCache s) (inflight s) (timers s) (history s ++ [Threw p]).

(** [validUrlCache[link] = result] *)
Definition store (l : string) (r : verdict) (s : state) : state :=
  State (<[l := r]> (validUrlCache s)) (inflight s) (timers s) (history s).

(** [Math.min(1000, 100 * 2 ** attempt)] *)
Definition retry_delay (a : nat) : Z := Z.min 1000 (100 * 2 ^ Z.of_nat a).

(** ** The library that sends the request *)

Inductive library : Type := http | https.

(** [link.slice(0, 5) === "https" ? https : http] *)
Definition library_of (link : string) : library :=
  if String.eqb (substring 0 5 link) "https" then https else http.

(** The protocol the agent of a library serves. *)
Definition agent_protocol (lib : library) : string :=
  match lib with
  | http => "http:"
  | https => "https:"
  end.

(** The closure [cacheAndCallback] of the invocation [p]. *)
Definition cacheAndCallback (p : probe) (r : verdict) (s : state) : state :=
  if truthy r && (attempt p <=? attempts (opts p))%nat then
    setTimeout (retry_delay (attempt p))
      (Probe (link p) (opts p) (callback p) (attempt p + 1) (method p)) s
  else call (callback p) r (store (link p) r s).

Definition with_inflight (l : list probe) (s : state) : state :=
  State (validUrlCache s) l (timers s) (history s).

Definition with_timers (l : list (Z * probe)) (s : state) : state :=
  State (validUrlCache s) (inflight s) l (history s).

(** What the remote end answers to each request. *)
Definition network : Type := probe -> reply.

(** An upper bound on the turns an invocation can still cause: each
    attempt costs at most a HEAD request, a GET request and a timer. *)
Definition turns_of_request (p : probe) : nat :=
  2 * (attempts (opts p) + 1 - attempt p) + (if is_GET (method p) then 1 else 2).

Definition turns_of_timer (p : probe) : nat := S (turns_of_request p).

Definition turns (s : state) : nat :=
  sum_list_with turns_of_request (inflight s)
  + sum_list_with (fun t => turns_of_timer (snd t)) (timers s).

Definition quiescent (s : state) : Prop := inflight s = [] /\ timers s = [].

(** Views of a history. *)
Definition sent_of (h : list event) : list probe :=
  omap (fun e => match e with Sent p => Some p | _ => None end) h.

Definition delays_of (h : list event) : list Z :=
  omap (fun e => match e with Scheduled d _ => Some d | _ => None end) h.

Definition calls_of (h : list event) : list (callback_id * verdict) :=
  omap (fun e => match e with Called c r => Some (c, r) | _ => None end) h.

(** The callbacks that have been called, whatever they were handed. *)
Definition called_of (h : list event) : list callback_id :=
  omap (fun e => match e with
                 | Called c _ | CalledWithInherited c _ => Some c
                 | _ => None
                 end) h.

(** A reply that makes the attempt fail, in the eyes of [cacheAndCallback]
    (a truthy diagnostic) or of the HEAD fallback. *)
Definition failing (r : reply) : bool :=
  match r with
  | Response statusCode => (statusCode >=? 400)%Z && (statusCode <=? 599)%Z
  | TransportError message => negb (String.eqb message "")
  end.

Section Node.

Context `{URL}.

(** [library.request(link, ...)] parses [link] before it creates the
    request, and throws when the parser does ([ERR_INVALID_URL]) or when
    the protocol is not the one the agent of [library] serves
    ([ERR_INVALID_PROTOCOL]). *)
Definition request_throws (lib : library) (link : string) : bool :=
  match protocol_of link with
  | Some protocol => negb (String.eqb protocol (agent_protocol lib))
  | None => true
  end.

(** The body of [validUrl] up to [req.end()].  The cache is an object
    literal: [link in validUrlCache] also holds of a link that is the
    name of a property the literal inherits, and [validUrlCache[link]]
    is that property then.  Only a link that has passed this test
    reaches [cacheAndCallback]: it is not ["__proto__"], and
    [validUrlCache[link] = result] makes it an own key. *)
Definition validUrl (p : probe) (s : state) : state :=
  match validUrlCache s !! link p with
  | Some r => call (callback p) r s
  | None =>
      if PlainObject.inherited (link p)
      then call_inherited (callback p) (link p) s
      else if request_throws (library_of (link p)) (link p) then throw p s
      else request p s
  end.

(** The response callback of the request of invocation [p].  Node always
    hands it a response object, so the branch [!res] is never taken. *)
Definition onResponse (p : probe) (statusCode : Z) (s : state) : state :=
  if (statusCode =? 405)%Z && negb (is_GET (method p)) then
    validUrl (Probe (link p) (opts p) (callback p) (attempt p) GET) s
  else if (statusCode >=? 400)%Z && (statusCode <=? 599)%Z then
    cacheAndCallback p (Some ("HTTP " +:+ pretty statusCode)) s
  else cacheAndCallback p None s.

(** The ["error"] listener of the request of invocation [p]. *)
Definition onError (p : probe) (message : string) (s : state) : state :=
  if negb (is_GET (method p)) then
    validUrl (Probe (link p) (opts p) (callback p) (attempt p) GET) s
  else cacheAndCallback p (Some message) s.

Definition deliver (p : probe) (r : reply) (s : state) : state :=
  match r with
  | Response statusCode => onResponse p statusCode s
  | TransportError message => onError p message s
  end.

(** The dispatcher's call [validUrl(link, options, callbackResult)]: the
    defaults are [attempt = 1] and [method = "HEAD"]. *)
Definition start (o : options) (c : callback_id) (l : string) : state -> state :=
  validUrl (Probe l o c 1 HEAD).

(** One turn of the event loop, in any order the network and the clock
    allow: a validation starts (in whichever run, of whichever plugin
    instance), an outstanding request is answered, or a timer expires.
    [answers p r]: the network may answer [r] to the request [p]. *)
Inductive step_in (answers : probe -> reply -> Prop) : state -> state -> Prop :=
| step_start s o c l :
    step_in answers s (start o c l s)
| step_reply s before p after r :
    inflight s = before ++ p :: after ->
    answers p r ->
    step_in answers s (deliver p r (with_inflight (before ++ after) s))
| step_timer s before d p after :
    timers s = before ++ (d, p) :: after ->
    step_in answers s (validUrl p (with_timers (before ++ after) s)).

Inductive steps_in (answers : probe -> reply -> Prop) : state -> state -> Prop :=
| steps_refl s : steps_in answers s s
| steps_step s1 s2 s3 :
    step_in answers s1 s2 -> steps_in answers s2 s3 -> steps_in answers s1 s3.

(** Every answer is possible. *)
Definition any_answer (p : probe) (r : reply) : Prop := True.

Definition step : state -> state -> Prop := step_in any_answer.
Definition steps : state -> state -> Prop := steps_in any_answer.

(** ** One deterministic schedule *)

(** The oldest outstanding request is answered first; when none is
    outstanding the oldest timer expires. *)
Definition tick (net : network) (s : state) : option state :=
  match inflight s with
  | p :: rest => Some (deliver p (net p) (with_inflight rest s))
  | [] =>
      match timers s with
      | (_, p) :: rest => Some (validUrl p (with_timers rest s))
      | [] => None
      end
  end.

Fixpoint settle (net : network) (fuel : nat) (s : state) : state :=
  match fuel with
  | O => s
  | S fuel' =>
      match tick net s with
      | Some s' => settle net fuel' s'
      | None => s
      end
  end.

(** Run the event loop until nothing is outstanding. *)
Definition settle_all (net : network) (s : state) : state :=
  settle net (turns s) s.

End Node.

End Network.

(* ================================================================== *)
(** * The dispatcher *)
(* ================================================================== *)

Module Plugin.

Section Dispatch.

(** [urlParse(link).protocol] is [protocol_of link] when that is [Some]
    protocol, and [undefined] otherwise.  A protocol holds a colon: it is
    truthy, and it is no name of a property that the object literal
    [protocolValidators] inherits, so [protocolValidators[protocol]] is
    a lookup among the seven own keys. *)
Context `{URL}.

(** A validator either returns its verdict, or returns [undefined] and
    calls the callback later. *)
Inductive validator : Type :=
| Sync (f : string -> verdict)
| Async.

Definition protocolValidators (protocol : string) : option validator :=
  if String.eqb protocol "facetime:" then Some (Sync Lexical.validFacetime)
  else if String.eqb protocol "facetime-audio:" then Some (Sync Lexical.validFacetime)
  else if String.eqb protocol "http:" then Some Async
  else if String.eqb protocol "https:" then Some Async
  else if String.eqb protocol "mailto:" then Some (Sync Lexical.validMailto)
  else if String.eqb protocol "sms:" then Some (Sync Lexical.validSms)
  else if String.eqb protocol "tel:" then Some (Sync Lexical.validTel)
  else None.

(** The function [async.mapLimit] applies to each [{filename, link}];
    [c] stands for its [callbackResult]. *)
Definition iteratee (o : Network.options) (files : gset string)
    (c : Network.callback_id) (filename link : string)
    (s : Network.state) : Network.state :=
  match protocol_of link with
  | Some protocol =>
      match protocolValidators protocol with
      | Some (Sync f) => Network.call c (f link) s
      | Some Async => Network.start o c link s
      | None => Network.call c None s
      end
  | None => Network.call c (Local.localResult files filename link) s
  end.

End Dispatch.

End Plugin.

(* ================================================================== *)
(** * The completion callback *)
(* ================================================================== *)

Module Report.

(** A [filenameAndLinkWithResult]. *)
Record checked : Type := Checked {
  filename : string;
  link : string;
  result : verdict
}.

Definition nl : string := String "010"%char EmptyString.

(** The template [`${link} (${result})`], for a truthy [result]. *)
Definition line (x : checked) : string :=
  link x +:+ " (" +:+ default "" (result x) +:+ ")".

Definition broken (x : checked) : bool := truthy (result x).

(** The reducer that builds [filenamesToLinkErrors], an object literal
    with the own keys of [obj].  For a document named like a property
    the literal inherits, [obj[filename]] is that property: it is truthy,
    so no array is created, and it has no [push], so the call throws a
    [TypeError]: [None]. *)
Definition add_line (obj : gmap string (list string)) (x : checked)
    : option (gmap string (list string)) :=
  match obj !! filename x with
  | Some lines => Some (<[filename x := lines ++ [line x]]> obj)
  | None =>
      if PlainObject.inherited (filename x) then None
      else Some (<[filename x := [line x]]> obj)
  end.

(** [None] when the reducer throws. *)
Definition filenamesToLinkErrors (results : list checked)
    : option (gmap string (list string)) :=
  fold_left (fun acc x => acc ≫= fun obj => add_line obj x)
            (List.filter broken results) (Some ∅).

(** [Object.keys(obj)] *)
Definition keys (obj : gmap string (list string)) : list string :=
  (map_to_list obj).*1.

(** [array.sort()] on strings: ascending by code units. *)
Definition sort (l : list string) : list string := merge_sort String.le l.

(** One entry of the [.map((filename) => ...)] that builds [message]. *)
Definition block (obj : gmap string (list string)) (doc : string) : string :=
  let output :=
    String.concat nl
      (map (fun linkError => "  " +:+ linkError)
           (sort (default [] (obj !! doc)))) in
  doc +:+ ":" +:+ nl +:+ output.

Definition message (obj : gmap string (list string)) : string :=
  String.concat (nl +:+ nl) (map (block obj) (sort (keys obj))).

Definition header : string := "Broken links found:" +:+ nl +:+ nl.

(** The calls of [done] the final callback [(err, result) => ...] makes,
    in order; [None] is [done()] without argument.  When the reducer
    throws, the callback is left before it has called [done]. *)
Definition completion (err : option string) (results : list checked)
    : list (option string) :=
  match err with
  | Some e => [Some e]
  | None =>
      match filenamesToLinkErrors results with
      | None => []
      | Some obj =>
          (if negb (length (keys obj) =? 0)%nat
           then [Some (header +:+ message obj)]
           else [])
          ++ [None]
      end
  end.

End Report.

(* ================================================================== *)
(** * From the files to the list of links to check *)
(* ================================================================== *)

Module Pipeline.
Import RegExp.

(** A [filenameAndLink]. *)
Record occurrence : Type := Occurrence {
  filename : string;
  link : string
}.

(** [s.replace(/a/g, by)] for a single-character pattern [a]. *)
Fixpoint replace_each (a : atom) (by_ : string) (s : string) : string :=
  match s with
  | EmptyString => EmptyString
  | String x s' =>
      if accepts a x then by_ +:+ replace_each a by_ s'
      else String x (replace_each a by_ s')
  end.

(** The class of [/[/\\]/g]: a slash or a backslash. *)
Definition separator : atom := Class [One "/"; One "\"].

(** [filename.replace(/[/\\]/g, "/")] *)
Definition normalizeFilename (filename : string) : string :=
  replace_each separator "/" filename.

(** [reducer[key] = true], on an object literal with the own keys
    [reducer]: an assignment to ["__proto__"] goes to the setter the
    literal inherits, which ignores [true], and adds no key. *)
Definition set_true (key : string) (reducer : gset string) : gset string :=
  if String.eqb key "__proto__" then reducer else {[ key ]} ∪ reducer.

(** The reduction that builds [normalizedFilenames] from
    [Object.keys(files)]. *)
Definition normalizedFilenames (names : list string) : gset string :=
  fold_left (fun reducer filename => set_true (normalizeFilename filename) reducer)
            names ∅.

(** ** [JSON.stringify] of a [filenameAndLink] *)

Definition quote : ascii := "034"%char.
Definition backslash : ascii := "\"%char.

(** A lower-case hexadecimal digit. *)
Definition hex_digit (n : nat) : ascii :=
  if (n <? 10)%nat then ascii_of_nat (48 + n) else ascii_of_nat (87 + n).

(** How [JSON.stringify] writes one code unit inside a string. *)
Definition json_escape (x : ascii) : string :=
  if Ascii.eqb x quote then String backslash (String quote EmptyString)
  else if Ascii.eqb x backslash then String backslash (String backslash EmptyString)
  else if Ascii.eqb x "008" then String backslash "b"
  else if Ascii.eqb x "009" then String backslash "t"
  else if Ascii.eqb x "010" then String backslash "n"
  else if Ascii.eqb x "012" then String backslash "f"
  else if Ascii.eqb x "013" then String backslash "r"
  else if (nat_of_ascii x <? 32)%nat then
    String backslash
      ("u00" +:+ String (hex_digit (nat_of_ascii x / 16))
                   (String (hex_digit (nat_of_ascii x mod 16)) EmptyString))
  else String x EmptyString.

Fixpoint json_escape_all (s : string) : string :=
  match s with
  | EmptyString => EmptyString
  | String x s' => json_escape x +:+ json_escape_all s'
  end.

(** A string between its quotes. *)
Definition json_string (s : string) : string :=
  String quote (json_escape_all s +:+ String quote EmptyString).

(** [JSON.stringify(v1)] for [v1 = {filename, link}]. *)
Definition stringVersion (v1 : occurrence) : string :=
  "{" +:+ json_string "filename" +:+ ":" +:+ json_string (filename v1)
  +:+ "," +:+ json_string "link" +:+ ":" +:+ json_string (link v1) +:+ "}".

(** The duplicate filter: [seen] is the set [duplicateDetection]. *)
Fixpoint withoutDuplicates (seen : gset string) (l : list occurrence)
    : list occurrence :=
  match l with
  | [] => []
  | v1 :: rest =>
      if bool_decide (stringVersion v1 ∈ seen) then withoutDuplicates seen rest
      else v1 :: withoutDuplicates ({[ stringVersion v1 ]} ∪ seen) rest
  end.

(** A compiled ignore pattern is used through its [test] method only. *)
Definition ignored (ignore : list (string -> bool)) (v : occurrence) : bool :=
  existsb (fun re => re (link v)) ignore.

(** The ignore filter. *)
Definition withoutIgnored (ignore : list (string -> bool))
    (l : list occurrence) : list occurrence :=
  List.filter (fun filenameAndLink => negb (ignored ignore filenameAndLink)) l.

(** [filenamesAndLinks] just before it is shuffled. *)
Definition linksToCheck (ignore : list (string -> bool))
    (found : list occurrence) : list occurrence :=
  withoutIgnored ignore (withoutDuplicates ∅ found).

End Pipeline.

(* ================================================================== *)
(** * Vocabulary of the statements *)
(* ================================================================== *)

(** [c] occurs somewhere in [s]. *)
Definition occurs (c : ascii) (s : string) : Prop :=
  exists s1 s2, s = s1 +:+ String c s2.

(** Every code unit of [s] satisfies [P]. *)
Fixpoint every (P : ascii -> Prop) (s : string) : Prop :=
  match s with
  | EmptyString => True
  | String x s' => P x /\ every P s'
  end.

(** [s] up to, and without, the first occurrence of [c]. *)
Fixpoint before (c : ascii) (s : string) : string :=
  match s with
  | EmptyString => EmptyString
  | String x s' => if Ascii.eqb x c then EmptyString else String x (before c s')
  end.

(** What follows the first occurrence of [c] in [s]; nothing when [c]
    does not occur. *)
Fixpoint after (c : ascii) (s : string) : string :=
  match s with
  | EmptyString => EmptyString
  | String x s' => if Ascii.eqb x c then s' else after c s'
  end.

(** [s] holds neither a line feed nor a carriage return. *)
Definition one_line (s : string) : Prop :=
  every (fun x => x <> "010"%char /\ x <> "013"%char) s.

(** A digit, a dot, a plus or a minus sign. *)
Definition phone_char (x : ascii) : Prop :=
  (48 <= nat_of_ascii x <= 57)%nat \/ x = "."%char \/ x = "+"%char \/ x = "-"%char.

(** [s] is [scheme] followed by phone characters only (possibly none). *)
Definition phone_shape (scheme s : string) : Prop :=
  exists number, s = scheme +:+ number /\ every phone_char number.

(** The keys a [mailto:] query may use. *)
Definition mailto_keys : list string := ["subject"; "cc"; "bcc"; "body"].

(** [s] with every space taken out. *)
Fixpoint without_spaces (s : string) : string :=
  match s with
  | EmptyString => EmptyString
  | String x s' =>
      if Ascii.eqb x " " then without_spaces s' else String x (without_spaces s')
  end.

(** A reference to the document itself. *)
Definition self_reference (p : string) : Prop := p = "" \/ p = "." \/ p = "./".

(** The local resolver, in the words of its description: the fragment
    and then the query are cut off; what is left is resolved from the
    root when it starts with a slash and from the directory of [src]
    otherwise; the link is valid when it refers to the document itself or
    when the resolved path, or its [index.html], is a document. *)
Definition resolves_as_described (files : gset string) (src dest : string)
    : Prop :=
  exists target resolved,
    target = before "?" (before "#" dest)
    /\ (forall rest, target = String "/" rest -> resolved = rest)
    /\ (~ (exists rest, target = String "/" rest) ->
        resolved = PosixPath.join [PosixPath.dirname src; target])
    /\ (Local.validLocal files src dest = true <->
        self_reference target \/ self_reference resolved
        \/ resolved ∈ files
        \/ PosixPath.join [resolved; "index.html"] ∈ files)
    /\ Local.localResult files src dest
       = (if Local.validLocal files src dest then None else Some "not found").

(** What a turn of the event loop adds to the history. *)
Definition news (s s' : Network.state) : list Network.event :=
  drop (length (Network.history s)) (Network.history s').

(** The verdict a reply stands for once no fallback applies. *)
Definition diagnostic (r : Network.reply) : verdict :=
  match r with
  | Network.Response statusCode =>
      if (statusCode >=? 400)%Z && (statusCode <=? 599)%Z
      then Some ("HTTP " +:+ pretty statusCode)
      else None
  | Network.TransportError message => Some message
  end.

(** The invocation [p] again, as a GET request. *)
Definition as_GET (p : Network.probe) : Network.probe :=
  Network.Probe (Network.link p) (Network.opts p) (Network.callback p)
                (Network.attempt p) Network.GET.

(** The invocation that retries [p]. *)
Definition retry_of (p : Network.probe) : Network.probe :=
  Network.Probe (Network.link p) (Network.opts p) (Network.callback p)
                (Network.attempt p + 1) (Network.method p).

(** The library that [validUrl] picks for [link] accepts it: Node parses
    the link, and to the protocol that library serves. *)
Definition requestable `{URL} (link : string) : Prop :=
  Network.request_throws (Network.library_of link) link = false.

(** Every outstanding request and timer of [s] is for a link that the
    library has accepted. *)
Definition outstanding_accepted `{URL} (s : Network.state) : Prop :=
  Forall (fun p => requestable (Network.link p)) (Network.inflight s)
  /\ Forall (fun t : Z * Network.probe => requestable (Network.link (snd t)))
            (Network.timers s).

(** C4 as the specification has it: whatever retry is scheduled starts
    with a HEAD request. *)
Definition retries_start_with_HEAD `{URL} : Prop :=
  forall s s' d q,
    Network.steps Network.module_init s -> Network.step s s' ->
    Network.Scheduled d q ∈ news s s' -> Network.method q = Network.HEAD.

(** C6 as the specification has it: a 405 answer to a HEAD request
    always makes the validator send one GET request for the same
    attempt. *)
Definition head_405_sends_one_GET `{URL} : Prop :=
  forall s earlier p later,
    Network.steps Network.module_init s ->
    Network.inflight s = earlier ++ p :: later ->
    Network.method p = Network.HEAD ->
    Network.sent_of
      (news s (Network.deliver p (Network.Response 405)
                 (Network.with_inflight (earlier ++ later) s)))
    = [as_GET p].

(** C3 as the specification has it: a run that has not validated
    anything yet finds no cached verdict, so the first validation of any
    URL that the library accepts sends a request. *)
Definition cache_scoped_to_run `{URL} : Prop :=
  forall s o c l,
    Network.steps Network.module_init s ->
    (forall c' r, Network.Called c' r ∈ Network.history s ->
                  Network.cb_run c' <> Network.cb_run c) ->
    requestable l ->
    Network.sent_of (news s (Network.start o c l s))
    = [Network.Probe l o c 1 Network.HEAD].

(** [l] has the verdict [v] and no request or timer for [l] is
    outstanding. *)
Definition settled_on (l : string) (v : verdict) (s : Network.state) : Prop :=
  Network.validUrlCache s !! l = Some v
  /\ Forall (fun p => Network.link p <> l) (Network.inflight s)
  /\ Forall (fun t : Z * Network.probe => Network.link (snd t) <> l)
            (Network.timers s).



(** Every answer to a request for [l] is a failure. *)
Definition failing_on (l : string) (p : Network.probe) (r : Network.reply)
    : Prop :=
  Network.link p = l -> Network.failing r = true.


(** A line feed. *)
Definition LF : string := String "010"%char EmptyString.

(** The occurrence [x] is a broken link of [doc] for the reason [reason]. *)
Definition broken_in (doc : string) (x : Report.checked) (reason : string)
    : Prop :=
  Report.filename x = doc /\ Report.result x = Some reason /\ reason <> "".

(** The report lines ["<link> (<reason>)"] of the broken links of [doc],
    in the order of [results]. *)
Definition broken_lines (results : list Report.checked) (doc : string)
    : list string :=
  omap (fun x =>
          match Report.result x with
          | Some reason =>
              if negb (String.eqb reason "") && String.eqb (Report.filename x) doc
              then Some (Report.link x +:+ " (" +:+ reason +:+ ")")
              else None
          | None => None
          end)
       results.

(** The text of a report with the blocks of [docs], each listing
    [lines doc]: the header, then for every document its name, a colon
    and its lines, each on a line of its own after two spaces; an empty
    line between two blocks. *)
Definition report_text (docs : list string) (lines : string -> list string)
    : string :=
  "Broken links found:" +:+ LF +:+ LF
  +:+ String.concat (LF +:+ LF)
        (map (fun doc =>
                doc +:+ ":" +:+ LF
                +:+ String.concat LF
                      (map (fun entry => "  " +:+ entry) (lines doc)))
             docs).

(** Some broken link of [results] is in a document named like a property
    that object literals inherit. *)
Definition inherited_document (results : list Report.checked) : Prop :=
  exists x, x ∈ results /\ Report.broken x = true
            /\ PlainObject.inherited (Report.filename x) = true.

(** ** More vocabulary *)

(** A decimal digit. *)
Definition digit (x : ascii) : Prop := (48 <= nat_of_ascii x <= 57)%nat.

(** Some code unit of [s] satisfies [P]. *)
Definition some (P : ascii -> Prop) (s : string) : Prop :=
  exists s1 x s2, s = s1 +:+ String x s2 /\ P x.

(** How often [c] occurs in [s]. *)
Fixpoint count (c : ascii) (s : string) : nat :=
  match s with
  | EmptyString => 0
  | String x s' => (if Ascii.eqb x c then 1 else 0) + count c s'
  end.

(** The three shapes of a FaceTime link the validator accepts. *)
Definition facetime_shape (link : string) : Prop :=
  link = "facetime:"
  \/ (exists user host,
        link = "facetime:" +:+ user +:+ "@" +:+ host
        /\ user <> "" /\ ~ occurs "@" user /\ host <> "" /\ one_line host)
  \/ (exists number,
        link = "facetime:" +:+ number
        /\ number <> "" /\ every phone_char number /\ some digit number).

(** One [key=value] pair of a [mailto:] query. *)
Definition mailto_pair (s : string) : Prop :=
  exists k v, s = k +:+ "=" +:+ v /\ In k mailto_keys /\ v <> "" /\ ~ occurs "&" v.

(** The shape of a [mailto:] link the validator accepts: an address and
    at most two query pairs. *)
Definition mailto_shape (link : string) : Prop :=
  exists L D tail,
    link = "mailto:" +:+ L +:+ "@" +:+ D +:+ tail
    /\ L <> "" /\ ~ occurs "@" L /\ D <> "" /\ ~ occurs "?" D
    /\ (tail = ""
        \/ (exists p, tail = "?" +:+ p /\ mailto_pair p)
        \/ (exists p1 p2, tail = "?" +:+ p1 +:+ "&" +:+ p2
                          /\ mailto_pair p1 /\ mailto_pair p2)).

(** Of every element of [l] its first occurrence, in the order of [l]. *)
Fixpoint first_occurrences {A : Type} `{EqDecision A} (l : list A) : list A :=
  match l with
  | [] => []
  | x :: rest => x :: filter (fun y => y <> x) (first_occurrences rest)
  end.

#[global] Instance callback_id_eq_dec : EqDecision Network.callback_id.
Proof. solve_decision. Defined.

(** How many outstanding requests and timers of [s] will answer to the
    callback [c]. *)
Definition owed (c : Network.callback_id) (s : Network.state) : nat :=
  length (filter (fun p => Network.callback p = c) (Network.inflight s))
  + length (filter (fun t : Z * Network.probe => Network.callback (snd t) = c)
                   (Network.timers s)).

(** How often the callback [c] has been called. *)
Definition answered (c : Network.callback_id) (s : Network.state) : nat :=
  length (filter (fun c' : Network.callback_id => c' = c)
                 (Network.called_of (Network.history s))).

(** 1 when the invocation [p] answers to the callback [c]. *)
Definition due (c : Network.callback_id) (p : Network.probe) : nat :=
  if decide (Network.callback p = c) then 1 else 0.

(** What the history may hold: no request beyond attempt [attempts + 1]
    of its plugin instance, and before the retry that is attempt [a] a
    wait of [min(1000, 100 * 2^(a - 1))] ms. *)
Definition event_within (e : Network.event) : Prop :=
  match e with
  | Network.Sent p =>
      1 <= Network.attempt p <= Network.attempts (Network.opts p) + 1
  | Network.Scheduled d p =>
      2 <= Network.attempt p <= Network.attempts (Network.opts p) + 1
      /\ d = Network.retry_delay (Network.attempt p - 1)
      /\ (200 <= d <= 1000)%Z
  | Network.Called _ _ => True
  | Network.CalledWithInherited _ _ => True
  | Network.Threw _ => True
  end.

(** Every outstanding request and timer of [s] is on record, and the
    record stays within the attempts the options allow. *)
Definition within_attempts (s : Network.state) : Prop :=
  Forall (fun p => Network.Sent p ∈ Network.history s) (Network.inflight s)
  /\ Forall (fun t : Z * Network.probe =>
               Network.Scheduled (fst t) (snd t) ∈ Network.history s)
            (Network.timers s)
  /\ Forall event_within (Network.history s).

(** Every cached verdict has been handed to a callback, and a cached
    failure is the outcome of a last attempt: the validation that cached
    it had used up the retries of its plugin instance. *)
Definition cache_explained (s : Network.state) : Prop :=
  forall l v,
    Network.validUrlCache s !! l = Some v ->
    (exists c, Network.Called c v ∈ Network.history s)
    /\ (truthy v = true ->
        exists p, Network.Sent p ∈ Network.history s
                  /\ Network.link p = l
                  /\ Network.attempt p = Network.attempts (Network.opts p) + 1
                  /\ Network.Called (Network.callback p) v
                       ∈ Network.history s).

#[global] Instance occurrence_eq_dec : EqDecision Pipeline.occurrence.
Proof. solve_decision. Defined.

(** The value of a hexadecimal digit. *)
Definition hex_value (x : ascii) : nat :=
  let n := nat_of_ascii x in
  if (n <? 58)%nat then n - 48 else n - 87.

(** The code unit that the first escape sequence of [s] stands for. *)
Definition head_decode (s : string) : option ascii :=
  match s with
  | String c s1 =>
      if Ascii.eqb c Pipeline.backslash then
        match s1 with
        | String d s2 =>
            if Ascii.eqb d Pipeline.quote then Some Pipeline.quote
            else if Ascii.eqb d Pipeline.backslash then Some Pipeline.backslash
            else if Ascii.eqb d "b" then Some "008"%char
            else if Ascii.eqb d "t" then Some "009"%char
            else if Ascii.eqb d "n" then Some "010"%char
            else if Ascii.eqb d "f" then Some "012"%char
            else if Ascii.eqb d "r" then Some "013"%char
            else if Ascii.eqb d "u" then
              match s2 with
              | String _ (String _ (String h (String l _))) =>
                  Some (ascii_of_nat (16 * hex_value h + hex_value l))
              | _ => None
              end
            else None
        | EmptyString => None
        end
      else Some c
  | EmptyString => None
  end.

(* ================================================================== *)
(** * Sample inputs *)
(* ================================================================== *)

Module Samples.
Import Network.

(** The document set of the local resolver's example. *)
Definition two_documents : gset string := {[ "a/b.html"; "a/index.html" ]}.

Definition example_options : options := Options 3 10000 "Mozilla/5.0" 100.
Definition example_url : string := "http://example.org/".

(** The same host over TLS, with the scheme in capitals. *)
Definition capital_url : string := "HTTPS://example.org/".

(** What Node's parser answers on the links of the samples, which are
    the only links the samples ask it about. *)
Definition sample_protocol (link : string) : option string :=
  if String.eqb link "http://example.org/" then Some "http:"
  else if String.eqb link "https://example.org/" then Some "https:"
  else if String.eqb link "HTTPS://example.org/" then Some "https:"
  else None.

#[local] Instance node_on_samples : URL.
Proof.
  refine {| protocol_of := sample_protocol |};
    intros link protocol; unfold sample_protocol;
    repeat match goal with
           | |- context [String.eqb link ?x] =>
               destruct (String.eqb_spec link x) as [->|_];
               [intros E; injection E as <-; vm_compute; discriminate|]
           end;
    discriminate.
Defined.

Definition first_probe (c : callback_id) : probe :=
  Probe example_url example_options c 1 HEAD.

(** Two documents link to the same URL; the first validation completes
    while the request of the second is still outstanding. *)
Definition racing_state : state :=
  let s1 := start example_options (Callback 1 0) example_url module_init in
  let s2 := start example_options (Callback 1 1) example_url s1 in
  deliver (first_probe (Callback 1 0)) (Response 200)
    (with_inflight [first_probe (Callback 1 1)] s2).

(** A HEAD request fails at the transport level, the GET fallback is
    answered 500. *)
Definition fallen_back_state : state :=
  let s1 := start example_options (Callback 1 0) example_url module_init in
  deliver (first_probe (Callback 1 0))
    (TransportError "socket hang up") (with_inflight [] s1).

Definition failed_GET_state : state :=
  deliver (as_GET (first_probe (Callback 1 0))) (Response 500)
    (with_inflight [] fallen_back_state).

(** The state the module is left in by a run that found one link to
    [example_url], answered 200. *)
Definition after_first_run : state :=
  let s1 := start example_options (Callback 1 0) example_url module_init in
  deliver (first_probe (Callback 1 0)) (Response 200)
    (with_inflight [] s1).

(** Every request is answered 503. *)
Definition always_503 : network := fun _ => Response 503.

(** The state after one validation of [example_url] that failed
    throughout. *)
Definition after_failed_validation : state :=
  settle_all always_503
    (start example_options (Callback 1 0) example_url module_init).

(** The oldest outstanding request is answered [r]. *)
Definition answered_with (r : reply) (s : state) : state :=
  match inflight s with
  | p :: rest => deliver p r (with_inflight rest s)
  | [] => s
  end.

(** The oldest timer expires. *)
Definition expired (s : state) : state :=
  match timers s with
  | (_, p) :: rest => validUrl p (with_timers rest s)
  | [] => s
  end.

(** One attempt of two validations side by side: the request of the
    first is answered 500, the request of the second 503, and then both
    timers expire. *)
Definition both_retry (s : state) : state :=
  expired (expired (answered_with (Response 503)
                      (answered_with (Response 500) s))).

(** Two documents link to [example_url]; both validations have failed
    three times and their last requests are outstanding. *)
Definition two_at_last_attempt : state :=
  both_retry
    (both_retry
       (both_retry
          (start example_options (Callback 1 1) example_url
             (start example_options (Callback 1 0) example_url module_init)))).

(** The last request of the first validation is answered 500 ... *)
Definition first_of_two_failed : state :=
  answered_with (Response 500) two_at_last_attempt.

(** ... and then the last request of the second is answered 503. *)
Definition both_failed : state :=
  answered_with (Response 503) first_of_two_failed.

(** The results of a run over one document with a missing local target
    and a reachable remote one. *)
Definition one_broken_link : list Report.checked :=
  [Report.Checked "a.html" "/missing" (Some "not found");
   Report.Checked "a.html" "https://example.org/" None].

End Samples.

(* ================================================================== *)
(** * Facts about strings *)
(* ================================================================== *)

Section StringFacts.

Lemma app_nil_left (s : string) : "" +:+ s = s.
Proof. reflexivity. Qed.

Lemma app_cons (x : ascii) (s t : string) : String x s +:+ t = String x (s +:+ t).
Proof. reflexivity. Qed.

Lemma app_nil_right (s : string) : s +:+ "" = s.
Proof. induction s as [|x s IH]; [reflexivity|]. rewrite app_cons, IH. reflexivity. Qed.

Lemma app_assoc_str (s t u : string) : (s +:+ t) +:+ u = s +:+ (t +:+ u).
Proof.
  induction s as [|x s IH]; [reflexivity|].
  rewrite !app_cons, IH. reflexivity.
Qed.

Lemma app_eq_nil (s t : string) : s +:+ t = "" -> s = "" /\ t = "".
Proof. destruct s; [intros H; split; [reflexivity|exact H]|discriminate]. Qed.

Lemma app_eq_cons (s t u : string) (x : ascii) :
  s +:+ t = String x u ->
  (s = "" /\ t = String x u) \/ (exists s', s = String x s' /\ u = s' +:+ t).
Proof.
  destruct s as [|y s]; [left; split; [reflexivity|assumption]|].
  rewrite app_cons. intros H. injection H as -> <-. right. eauto.
Qed.

Lemma every_app (P : ascii -> Prop) (s t : string) :
  every P (s +:+ t) <-> every P s /\ every P t.
Proof.
  induction s as [|x s IH]; [rewrite app_nil_left; simpl; tauto|].
  rewrite app_cons. simpl. tauto.
Qed.

Lemma every_impl (P Q : ascii -> Prop) (s : string) :
  (forall x, P x -> Q x) -> every P s -> every Q s.
Proof. intros HPQ. induction s as [|x s IH]; simpl; [trivial|]. intros [? ?]. auto. Qed.

Lemma indexOf_from_bound (c : ascii) (s : string) (i : Z) :
  (0 <= i)%Z -> indexOf_from c s i = (-1)%Z \/ (i <= indexOf_from c s i)%Z.
Proof.
  revert i. induction s as [|x s IH]; intros i Hi; simpl; [left; reflexivity|].
  destruct (Ascii.eqb x c); [right; lia|].
  destruct (IH (i + 1)%Z ltac:(lia)) as [H|H]; [left; exact H|right; lia].
Qed.

Lemma indexOf_from_absent (c : ascii) (s : string) (i : Z) :
  (0 <= i)%Z ->
  (indexOf_from c s i = (-1)%Z <-> every (fun x => x <> c) s).
Proof.
  revert i. induction s as [|x s IH]; intros i Hi; simpl; [tauto|].
  destruct (Ascii.eqb_spec x c) as [->|Hne].
  - split; [lia|]. intros [H _]. congruence.
  - rewrite (IH (i + 1)%Z) by lia. tauto.
Qed.

Lemma indexOf_absent (c : ascii) (s : string) :
  indexOf c s = (-1)%Z <-> every (fun x => x <> c) s.
Proof. apply indexOf_from_absent. lia. Qed.

Lemma occurs_iff (c : ascii) (s : string) :
  occurs c s <-> ~ every (fun x => x <> c) s.
Proof.
  split.
  - intros (s1 & s2 & ->) H. apply every_app in H as [_ [H _]]. congruence.
  - induction s as [|x s IH]; simpl; [tauto|]. intros H.
    destruct (Ascii.eqb_spec x c) as [->|Hne].
    + exists "", s. reflexivity.
    + destruct IH as (s1 & s2 & ->); [tauto|].
      exists (String x s1), s2. reflexivity.
Qed.

Lemma indexOf_present (c : ascii) (s : string) :
  indexOf c s <> (-1)%Z <-> occurs c s.
Proof. rewrite occurs_iff, indexOf_absent. tauto. Qed.

End StringFacts.

(* ================================================================== *)
(** * The matcher is correct *)
(* ================================================================== *)

Module RegExpFacts.
Import RegExp.

Lemma Matches_nil_nullable (r : regex) (s : string) :
  Matches r s -> s = "" -> nullable r = true.
Proof.
  induction 1 as [|a x Ha|r1 r2 s1 s2 _ IH1 _ IH2|r1 r2 s _ IH|r1 r2 s _ IH| |];
    intros E; simpl; try reflexivity; try discriminate.
  - apply app_eq_nil in E as [-> ->]. rewrite IH1, IH2; reflexivity.
  - rewrite IH by assumption. reflexivity.
  - rewrite IH by assumption. apply orb_true_r.
Qed.

Lemma nullable_Matches (r : regex) : nullable r = true -> Matches r "".
Proof.
  induction r as [| |a|r1 IH1 r2 IH2|r1 IH1 r2 IH2|r IH]; simpl; intros H;
    try discriminate.
  - constructor.
  - apply andb_true_iff in H as [H1 H2].
    change "" with ("" +:+ ""). constructor; auto.
  - apply orb_true_iff in H as [H|H]; [apply MAltL|apply MAltR]; auto.
  - constructor.
Qed.

Lemma deriv_sound (x : ascii) (r : regex) (s : string) :
  Matches (deriv x r) s -> Matches r (String x s).
Proof.
  revert s.
  induction r as [| |a|r1 IH1 r2 IH2|r1 IH1 r2 IH2|r IH]; simpl; intros s H.
  - inversion H.
  - inversion H.
  - destruct (accepts a x) eqn:Ha; inversion H; subst. constructor. exact Ha.
  - destruct (nullable r1) eqn:Hn.
    + inversion H as [| | | ? ? ? H1 | ? ? ? H2 | |]; subst.
      * inversion H1; subst. rewrite <- app_cons. constructor; auto.
      * rewrite <- (app_nil_left (String x s)).
        constructor; [apply nullable_Matches; exact Hn | auto].
    + inversion H; subst. rewrite <- app_cons. constructor; auto.
  - inversion H; subst; [apply MAltL|apply MAltR]; auto.
  - inversion H; subst. rewrite <- app_cons. constructor; auto.
Qed.

Lemma deriv_complete_gen (x : ascii) (r : regex) (t : string) :
  Matches r t -> forall s, t = String x s -> Matches (deriv x r) s.
Proof.
  induction 1 as [|a y Ha|r1 r2 s1 s2 H1 IH1 H2 IH2|r1 r2 t H IH|r1 r2 t H IH
                 | |r s1 s2 H1 IH1 H2 IH2]; intros s E; simpl.
  - discriminate.
  - injection E as -> <-. rewrite Ha. constructor.
  - apply app_eq_cons in E as [[-> ->]|(s1' & -> & ->)].
    + rewrite (Matches_nil_nullable _ _ H1 eq_refl). apply MAltR. auto.
    + destruct (nullable r1); [apply MAltL|]; constructor; auto.
  - apply MAltL. auto.
  - apply MAltR. auto.
  - discriminate.
  - apply app_eq_cons in E as [[-> ->]|(s1' & -> & ->)].
    + apply (IH2 s eq_refl).
    + constructor; auto.
Qed.

Lemma deriv_complete (x : ascii) (r : regex) (s : string) :
  Matches r (String x s) -> Matches (deriv x r) s.
Proof. intros H. eapply deriv_complete_gen; [exact H|reflexivity]. Qed.

Lemma matchb_Matches (r : regex) (s : string) :
  matchb r s = true <-> Matches r s.
Proof.
  revert r. induction s as [|x s IH]; intros r; simpl.
  - split; [apply nullable_Matches|]. intros H.
    eapply Matches_nil_nullable; [exact H|reflexivity].
  - rewrite IH. split; [apply deriv_sound|apply deriv_complete].
Qed.

End RegExpFacts.

Module RegExpShapes.
Import RegExp RegExpFacts.

Lemma Matches_Eps (s : string) : Matches Eps s <-> s = "".
Proof. split; [inversion 1; reflexivity|intros ->; constructor]. Qed.

Lemma Matches_Atom (a : atom) (s : string) :
  Matches (Atom a) s <-> exists x, s = String x "" /\ accepts a x = true.
Proof.
  split.
  - inversion 1; subst. eauto.
  - intros (x & -> & H). constructor. exact H.
Qed.

Lemma Matches_Seq (r1 r2 : regex) (s : string) :
  Matches (Seq r1 r2) s <->
  exists s1 s2, s = s1 +:+ s2 /\ Matches r1 s1 /\ Matches r2 s2.
Proof.
  split.
  - inversion 1; subst. eauto.
  - intros (s1 & s2 & -> & H1 & H2). constructor; assumption.
Qed.

Lemma Matches_Alt (r1 r2 : regex) (s : string) :
  Matches (Alt r1 r2) s <-> Matches r1 s \/ Matches r2 s.
Proof.
  split.
  - inversion 1; subst; auto.
  - intros [H|H]; [apply MAltL|apply MAltR]; exact H.
Qed.

Lemma Matches_Opt (r : regex) (s : string) :
  Matches (Opt r) s <-> Matches r s \/ s = "".
Proof. unfold Opt. rewrite Matches_Alt, Matches_Eps. reflexivity. Qed.

Lemma Matches_Lit_cons (c : ascii) (r : regex) (s : string) :
  Matches (Seq (Atom (Lit c)) r) s <-> exists s', s = String c s' /\ Matches r s'.
Proof.
  rewrite Matches_Seq. split.
  - intros (s1 & s2 & -> & H1 & H2). apply Matches_Atom in H1 as (x & -> & Hx).
    simpl in Hx. apply Ascii.eqb_eq in Hx as ->. eauto.
  - intros (s' & -> & H). exists (String c ""), s'. split; [reflexivity|].
    split; [|exact H]. constructor. simpl. apply Ascii.eqb_refl.
Qed.

Lemma Matches_Str (t s : string) : Matches (Str t) s <-> s = t.
Proof.
  revert s. induction t as [|c t IH]; intros s; simpl.
  - apply Matches_Eps.
  - rewrite Matches_Lit_cons. split.
    + intros (s' & -> & H). apply IH in H as ->. reflexivity.
    + intros ->. exists t. split; [reflexivity|]. apply IH. reflexivity.
Qed.

Lemma Matches_Str_prefix (t : string) (r : regex) (s : string) :
  Matches (Seq (Str t) r) s <-> exists s', s = t +:+ s' /\ Matches r s'.
Proof.
  rewrite Matches_Seq. split.
  - intros (s1 & s2 & -> & H1 & H2). apply Matches_Str in H1 as ->. eauto.
  - intros (s' & -> & H). exists t, s'. rewrite Matches_Str. auto.
Qed.

Lemma Matches_Star_atom_gen (r : regex) (s : string) :
  Matches r s -> forall a, r = Star (Atom a) ->
  every (fun x => accepts a x = true) s.
Proof.
  induction 1 as [| | | | | |r s1 s2 H1 _ H2 IH2]; intros b E; try discriminate.
  - exact I.
  - injection E as ->. apply every_app. split; [|apply IH2; reflexivity].
    apply Matches_Atom in H1 as (x & -> & Hx). simpl. auto.
Qed.

Lemma Matches_Star_atom (a : atom) (s : string) :
  Matches (Star (Atom a)) s <-> every (fun x => accepts a x = true) s.
Proof.
  split.
  - intros H. eapply Matches_Star_atom_gen; [exact H|reflexivity].
  - induction s as [|x s IH]; simpl; [constructor|].
    intros [Hx Hs]. change (String x s) with (String x "" +:+ s).
    constructor; [constructor; exact Hx|auto].
Qed.

Lemma Matches_Plus_atom (a : atom) (s : string) :
  Matches (Plus (Atom a)) s <->
  s <> "" /\ every (fun x => accepts a x = true) s.
Proof.
  unfold Plus. rewrite Matches_Seq. split.
  - intros (s1 & s2 & -> & H1 & H2).
    apply Matches_Atom in H1 as (x & -> & Hx).
    apply Matches_Star_atom in H2. rewrite app_cons. simpl. split; [discriminate|auto].
  - intros [Hne H]. destruct s as [|x s]; [congruence|]. simpl in H.
    exists (String x ""), s. split; [reflexivity|].
    split; [constructor; tauto|apply Matches_Star_atom; tauto].
Qed.

Lemma Matches_any (s : string) : Matches (Star AnyChar) s.
Proof.
  apply Matches_Star_atom. induction s as [|x s IH]; simpl; auto.
Qed.

(** [/^r$/] *)
Lemma test_anchored (r : regex) (s : string) :
  test (Pattern true r true) s = true <-> Matches r s.
Proof. apply matchb_Matches. Qed.

(** [/^r/] *)
Lemma test_prefix (r : regex) (s : string) :
  test (Pattern true r false) s = true <->
  exists s1 s2, s = s1 +:+ s2 /\ Matches r s1.
Proof.
  unfold test, unanchored; simpl. rewrite matchb_Matches, Matches_Seq.
  split.
  - intros (s1 & s2 & -> & H & _). eauto.
  - intros (s1 & s2 & -> & H). exists s1, s2. auto using Matches_any.
Qed.

Lemma negated_single (c x : ascii) :
  accepts (NegClass [One c]) x = true <-> x <> c.
Proof.
  simpl. rewrite orb_false_r, negb_true_iff. apply Ascii.eqb_neq.
Qed.

(** [[^c]+] *)
Lemma Matches_Plus_not (c : ascii) (s : string) :
  Matches (Plus (Atom (NegClass [One c]))) s <-> s <> "" /\ ~ occurs c s.
Proof.
  rewrite Matches_Plus_atom, occurs_iff.
  assert (every (fun x => accepts (NegClass [One c]) x = true) s
          <-> every (fun x => x <> c) s) as ->.
  { split; apply every_impl; intros x; apply negated_single. }
  split; intros [? ?]; split; auto.
  destruct (indexOf c s =? -1)%Z eqn:E.
  - apply Z.eqb_eq, indexOf_absent in E. exact E.
  - apply Z.eqb_neq, indexOf_present, occurs_iff in E. tauto.
Qed.

End RegExpShapes.

(* ================================================================== *)
(** * The lexical validators *)
(* ================================================================== *)

Module LexicalFacts.
Import RegExp RegExpFacts RegExpShapes Lexical.

(** ** [validMailto] *)

Lemma mailto_local_shape (L : string) :
  L <> "" -> ~ occurs "@" L -> Matches mailto_local ("mailto:" +:+ L).
Proof.
  intros HL HnoAt. apply Matches_Str_prefix. exists L.
  split; [reflexivity|]. apply Matches_Plus_not. auto.
Qed.

Lemma mailto_address_shape (L D : string) :
  L <> "" -> ~ occurs "@" L -> D <> "" -> ~ occurs "?" D ->
  Matches mailto_address (("mailto:" +:+ L) +:+ "@" +:+ D).
Proof.
  intros HL HnoAt HD HnoQ. constructor; [apply mailto_local_shape; assumption|].
  apply Matches_Lit_cons. exists D. split; [reflexivity|].
  apply Matches_Plus_not. auto.
Qed.

Lemma mailto_key_shape (k : string) : In k mailto_keys -> Matches mailto_key k.
Proof.
  unfold mailto_keys, mailto_key.
  intros [<-|[<-|[<-|[<-|[]]]]]; rewrite !Matches_Alt, !Matches_Str; auto.
Qed.

Lemma mailto_param_shape (k v : string) :
  In k mailto_keys -> v <> "" -> ~ occurs "&" v ->
  Matches mailto_param (k +:+ "=" +:+ v).
Proof.
  intros Hk Hv HnoAmp. constructor; [apply mailto_key_shape; exact Hk|].
  apply Matches_Lit_cons. exists v. split; [reflexivity|].
  apply Matches_Plus_not. auto.
Qed.

(** The first check only looks at the character after ["mailto:"]: the
    verdict is ["invalid local-part"] exactly when that character is
    missing or is an ["@"]. *)
Lemma mailto_local_part_verdict (link : string) :
  validMailto link = Some "invalid local-part" <->
  ~ (exists x rest, link = "mailto:" +:+ String x rest /\ x <> "@"%char).
Proof.
  assert (test re_mailto_local link = true <->
          exists x rest, link = "mailto:" +:+ String x rest /\ x <> "@"%char)
    as Htest.
  { unfold re_mailto_local. rewrite test_prefix. split.
    - intros (s1 & s2 & -> & H).
      apply Matches_Str_prefix in H as (L & -> & HL).
      apply Matches_Plus_not in HL as [Hne Hocc].
      destruct L as [|x L]; [contradiction|].
      exists x, (L +:+ s2). split; [rewrite !app_assoc_str; reflexivity|].
      intros ->. apply Hocc. exists "", L. reflexivity.
    - intros (x & rest & -> & Hx).
      exists ("mailto:" +:+ String x ""), rest.
      split; [rewrite !app_assoc_str; reflexivity|].
      apply mailto_local_shape; [discriminate|].
      intros (s1 & s2 & E). destruct s1 as [|y s1].
      + injection E as ->. contradiction.
      + rewrite app_cons in E. injection E as _ E.
        destruct s1; discriminate E. }
  unfold validMailto. rewrite <- Htest.
  destruct (test re_mailto_local link); simpl.
  - split; [|intros H; exfalso; apply H; reflexivity].
    destruct (test re_mailto_domain link); simpl; [|discriminate].
    destruct (test re_mailto_full link); discriminate.
  - split; [discriminate|reflexivity].
Qed.

(** C1, as the code has it: the four links of the specification, with the
    verdict the validator gives each.  A bare ["mailto:a"] has a local-part and
    fails on the missing domain. *)
Theorem mailto_four_links :
  validMailto "mailto:a@b.com" = None
  /\ validMailto "mailto:a" = Some "invalid domain"
  /\ validMailto "mailto:a@b?subject=x&cc=y" = None
  /\ validMailto "mailto:a@b?foo=x" = Some "invalid query params".
Proof. repeat split; vm_compute; reflexivity. Qed.

(** C1, as stated, does not hold: ["mailto:a"] is not reported as
    ["invalid local-part"]. *)
Lemma mailto_bare_local_part_is_not_invalid_local_part :
  ~ (validMailto "mailto:a@b.com" = None
     /\ validMailto "mailto:a" = Some "invalid local-part"
     /\ validMailto "mailto:a@b?subject=x&cc=y" = None
     /\ validMailto "mailto:a@b?foo=x" = Some "invalid query params").
Proof. intros (_ & H & _). vm_compute in H. discriminate H. Qed.

(** C10: the query grammar does not ask for two distinct keys; a link
    that repeats one key is valid. *)
Theorem mailto_repeated_key_valid (L D k v1 v2 : string) :
  L <> "" -> ~ occurs "@" L ->
  D <> "" -> ~ occurs "?" D ->
  In k mailto_keys ->
  v1 <> "" -> ~ occurs "&" v1 ->
  v2 <> "" -> ~ occurs "&" v2 ->
  validMailto
    ("mailto:" +:+ L +:+ "@" +:+ D +:+ "?" +:+ k +:+ "=" +:+ v1
       +:+ "&" +:+ k +:+ "=" +:+ v2) = None.
Proof.
  intros HL HLa HD HDq Hk Hv1 Hv1a Hv2 Hv2a.
  pose proof (mailto_local_shape L HL HLa) as Hlocal.
  pose proof (mailto_address_shape L D HL HLa HD HDq) as Haddr.
  pose proof (mailto_param_shape k v1 Hk Hv1 Hv1a) as Hp1.
  pose proof (mailto_param_shape k v2 Hk Hv2 Hv2a) as Hp2.
  set (query := "?" +:+ k +:+ "=" +:+ v1 +:+ "&" +:+ k +:+ "=" +:+ v2).
  unfold validMailto.
  assert (test re_mailto_local ("mailto:" +:+ L +:+ "@" +:+ D +:+ query) = true)
    as ->.
  { apply test_prefix. exists ("mailto:" +:+ L), ("@" +:+ D +:+ query).
    split; [|exact Hlocal]. rewrite !app_assoc_str. reflexivity. }
  assert (test re_mailto_domain ("mailto:" +:+ L +:+ "@" +:+ D +:+ query) = true)
    as ->.
  { apply test_prefix. exists (("mailto:" +:+ L) +:+ "@" +:+ D), query.
    split; [|exact Haddr]. rewrite !app_assoc_str. reflexivity. }
  assert (test re_mailto_full ("mailto:" +:+ L +:+ "@" +:+ D +:+ query) = true)
    as ->; [|reflexivity].
  apply test_anchored.
  replace ("mailto:" +:+ L +:+ "@" +:+ D +:+ query)
    with ((("mailto:" +:+ L) +:+ "@" +:+ D) +:+ query)
    by (rewrite !app_assoc_str; reflexivity).
  constructor; [exact Haddr|].
  apply Matches_Opt. left. apply Matches_Lit_cons.
  exists ((k +:+ "=" +:+ v1) +:+ "&" +:+ k +:+ "=" +:+ v2).
  split; [unfold query; rewrite !app_assoc_str; reflexivity|].
  constructor; [exact Hp1|].
  apply Matches_Opt. left. apply Matches_Lit_cons.
  exists (k +:+ "=" +:+ v2). split; [reflexivity|exact Hp2].
Qed.

Lemma mailto_repeated_key_valid_witness :
  validMailto "mailto:ann@example.org?cc=bob@example.org&cc=eve@example.org"
  = None.
Proof.
  apply (mailto_repeated_key_valid "ann" "example.org" "cc"
           "bob@example.org" "eve@example.org");
    try discriminate;
    try (rewrite <- indexOf_present; vm_compute; intros H; apply H; reflexivity).
  vm_compute. tauto.
Defined.

(** ** [validSms] and [validTel] *)

Lemma accepts_phone_char (x : ascii) :
  accepts digits_dot_plus_minus x = true <-> phone_char x.
Proof.
  unfold phone_char, digits_dot_plus_minus, accepts, existsb, in_item.
  rewrite !orb_true_iff, andb_true_iff, !Nat.leb_le, !Ascii.eqb_eq.
  change (nat_of_ascii "0") with 48. change (nat_of_ascii "9") with 57.
  intuition discriminate.
Qed.

Lemma remove_all_spaces (s : string) :
  remove_all (Lit " ") s = without_spaces s.
Proof. induction s as [|x s IH]; simpl; [reflexivity|]. rewrite IH. reflexivity. Qed.

(** [/^scheme([0-9.+-]+)?$/] *)
Lemma test_phone_shape (scheme s : string) :
  test (Pattern true
          (Seq (Str scheme) (Opt (Plus (Atom digits_dot_plus_minus)))) true) s
  = true <-> phone_shape scheme s.
Proof.
  rewrite test_anchored, Matches_Str_prefix. unfold phone_shape.
  split; intros (number & -> & H); exists number; (split; [reflexivity|]).
  - apply Matches_Opt in H as [H| ->]; [|exact I].
    apply Matches_Plus_atom in H as [_ H].
    revert H. apply every_impl. intros x. apply accepts_phone_char.
  - apply Matches_Opt. destruct number as [|x number]; [right; reflexivity|].
    left. apply Matches_Plus_atom. split; [discriminate|].
    revert H. apply every_impl. intros y. apply accepts_phone_char.
Qed.

Lemma phone_verdict (p : pattern) (scheme link : string) (v : verdict) :
  (forall s, test p s = true <-> phone_shape scheme s) ->
  v = (if negb (test p (remove_all (Lit " ") link)) then Some "invalid"
       else if negb (indexOf " " link =? -1)%Z then Some "contains a space"
       else None) ->
  (phone_shape scheme (without_spaces link) -> ~ occurs " " link -> v = None)
  /\ (phone_shape scheme (without_spaces link) -> occurs " " link ->
      v = Some "contains a space")
  /\ (~ phone_shape scheme (without_spaces link) -> v = Some "invalid").
Proof.
  intros Hp ->. rewrite remove_all_spaces.
  destruct (test p (without_spaces link)) eqn:Ht; simpl.
  - apply Hp in Ht.
    destruct (indexOf " " link =? -1)%Z eqn:Hi; simpl.
    + apply Z.eqb_eq in Hi. repeat split; [|tauto].
      intros _ Hsp. apply indexOf_present in Hsp. congruence.
    + apply Z.eqb_neq, indexOf_present in Hi. repeat split; tauto.
  - assert (~ phone_shape scheme (without_spaces link)) as Hn.
    { intros H. apply Hp in H. congruence. }
    repeat split; tauto.
Qed.

(** C7, as the code has it: the grammar is checked first, on the link
    without its spaces, and a link that fails it is ["invalid"] whether or
    not it holds a space; only a link that passes it is reported as
    ["contains a space"] when it holds one. *)
Theorem sms_tel_verdicts (link : string) :
  ((phone_shape "sms:" (without_spaces link) -> ~ occurs " " link ->
    validSms link = None)
   /\ (phone_shape "sms:" (without_spaces link) -> occurs " " link ->
       validSms link = Some "contains a space")
   /\ (~ phone_shape "sms:" (without_spaces link) ->
       validSms link = Some "invalid"))
  /\ ((phone_shape "tel:" (without_spaces link) -> ~ occurs " " link ->
       validTel link = None)
      /\ (phone_shape "tel:" (without_spaces link) -> occurs " " link ->
          validTel link = Some "contains a space")
      /\ (~ phone_shape "tel:" (without_spaces link) ->
          validTel link = Some "invalid")).
Proof.
  split.
  - apply (phone_verdict re_sms); [apply test_phone_shape|reflexivity].
  - apply (phone_verdict re_tel); [apply test_phone_shape|reflexivity].
Qed.

Lemma sms_tel_verdicts_witness :
  validTel "tel:+1 234" = Some "contains a space".
Proof.
  apply (sms_tel_verdicts "tel:+1 234").
  - exists "+1234". split; [reflexivity|].
    simpl. repeat split;
      first [right; right; left; reflexivity | left; vm_compute; lia].
  - exists "tel:+1", "234". reflexivity.
Defined.

(** C7, as stated, does not hold: a link may hold a space and still be
    reported as ["invalid"]. *)
Lemma tel_with_space_may_be_invalid :
  ~ (forall link, occurs " " link -> validTel link = Some "contains a space").
Proof.
  intros H. specialize (H "tel:(555) 123-4567").
  assert (occurs " " "tel:(555) 123-4567") as Hsp
    by (exists "tel:(555)", "123-4567"; reflexivity).
  apply H in Hsp. vm_compute in Hsp. discriminate Hsp.
Qed.

(** ** Verdicts are never the empty string *)

(** A lexical validator answers [null] or a non-empty diagnostic, so for
    its verdicts "not null" and "truthy" are the same. *)
Lemma lexical_verdicts_truthy (link : string) :
  Forall (fun v : verdict => v = None \/ truthy v = true)
    [validFacetime link; validMailto link; validSms link; validTel link].
Proof.
  unfold validFacetime, validMailto, validSms, validTel.
  repeat (apply Forall_cons; split); try apply Forall_nil;
    repeat match goal with
           | |- context [if ?b then _ else _] => destruct b
           end;
    first [exact I | left; reflexivity | right; reflexivity].
Qed.

End LexicalFacts.

(* ================================================================== *)
(** * Node's path functions on sample paths *)
(* ================================================================== *)

Module PosixPathFacts.
Import PosixPath.

Example dirname_samples :
  dirname "a/b.html" = "a"
  /\ dirname "index.html" = "."
  /\ dirname "a/b/c.html" = "a/b"
  /\ dirname "/a" = "/"
  /\ dirname "/a/b/" = "/a"
  /\ dirname "" = ".".
Proof. repeat split; vm_compute; reflexivity. Qed.

Example join_samples :
  join ["a"; "../a"] = "a"
  /\ join ["."; "page.html"] = "page.html"
  /\ join ["a"; "index.html"] = "a/index.html"
  /\ join ["a/"; "index.html"] = "a/index.html"
  /\ join ["a"; "./"] = "a/"
  /\ join ["a"; ".."] = "."
  /\ join ["a"; "../.."] = ".."
  /\ join ["."; "../x//y/./z/"] = "../x/y/z/"
  /\ join [""; ""] = ".".
Proof. repeat split; vm_compute; reflexivity. Qed.

Lemma join_nil_is_dot : join [] = ".".
Proof. reflexivity. Qed.

End PosixPathFacts.

(* ================================================================== *)
(** * The local resolver *)
(* ================================================================== *)

Module LocalFacts.
Import RegExp RegExpFacts RegExpShapes Local Samples.

Lemma accepts_Dot (x : ascii) :
  accepts Dot x = true <-> x <> "010"%char /\ x <> "013"%char.
Proof.
  unfold accepts, line_terminator.
  rewrite negb_true_iff, orb_false_iff, !Ascii.eqb_neq. reflexivity.
Qed.

(** What [/c.*$/] matches when tried at the start of [s]. *)
Lemma matchb_cut (c : ascii) (s : string) :
  matchb (Seq (Atom (Lit c)) (Star (Atom Dot))) s = true <->
  exists s', s = String c s' /\ one_line s'.
Proof.
  rewrite matchb_Matches, Matches_Lit_cons.
  split; intros (s' & -> & H); exists s'; (split; [reflexivity|]).
  - apply Matches_Star_atom in H. revert H. apply every_impl.
    intros x. apply accepts_Dot.
  - apply Matches_Star_atom. revert H. apply every_impl.
    intros x. apply accepts_Dot.
Qed.

(** When no line break follows the first [c], [/c.*$/] cuts there. *)
Lemma replace_to_end_before (c : ascii) (s : string) :
  one_line (after c s) ->
  replace_to_end (Seq (Atom (Lit c)) (Star (Atom Dot))) s = before c s.
Proof.
  induction s as [|x s IH]; intros Hs; [reflexivity|].
  cbn [replace_to_end before]. cbn [after] in Hs.
  destruct (Ascii.eqb_spec x c) as [->|Hne].
  - assert (matchb (Seq (Atom (Lit c)) (Star (Atom Dot))) (String c s) = true)
      as -> by (apply matchb_cut; eauto).
    reflexivity.
  - destruct (matchb (Seq (Atom (Lit c)) (Star (Atom Dot))) (String x s)) eqn:E.
    + apply matchb_cut in E as (s' & E & _). congruence.
    + rewrite IH by exact Hs. reflexivity.
Qed.

(** A line break after the first [c] moves the cut to a later [c], or
    leaves the string whole. *)
Lemma replace_to_end_skips_line_break (c : ascii) (s : string) :
  ~ one_line (after c s) ->
  replace_to_end (Seq (Atom (Lit c)) (Star (Atom Dot))) s <> before c s.
Proof.
  induction s as [|x s IH]; intros Hs; [exfalso; apply Hs; exact I|].
  cbn [replace_to_end before]. cbn [after] in Hs.
  destruct (matchb (Seq (Atom (Lit c)) (Star (Atom Dot))) (String x s)) eqn:E.
  - apply matchb_cut in E as (s' & E & Hline). injection E as -> ->.
    rewrite Ascii.eqb_refl in Hs. contradiction.
  - destruct (Ascii.eqb x c); [discriminate|].
    intros E'. injection E' as E'. exact (IH Hs E').
Qed.

Lemma is_self_iff (p : string) : is_self p = true <-> self_reference p.
Proof.
  unfold is_self, self_reference.
  rewrite !orb_true_iff, !String.eqb_eq. tauto.
Qed.

Lemma resolve_root (src rest : string) : resolve src (String "/" rest) = rest.
Proof. reflexivity. Qed.

Lemma resolve_relative (src target : string) :
  ~ (exists rest, target = String "/" rest) ->
  resolve src target = PosixPath.join [PosixPath.dirname src; target].
Proof.
  intros H. unfold resolve, PosixPath.char_is. simpl.
  destruct target as [|x target]; [reflexivity|]. simpl.
  destruct (Ascii.eqb_spec x "/") as [->|Hne]; [|reflexivity].
  exfalso. apply H. eauto.
Qed.

Lemma in_own (key : string) (files : gset string) :
  PlainObject.inherited key = false ->
  PlainObject.in_ key files = bool_decide (key ∈ files).
Proof. intros H. unfold PlainObject.in_. rewrite H. apply orb_false_r. Qed.

(** Away from line breaks in the fragment and the query, and from the
    names object literals inherit, the resolver works as described. *)
Lemma validLocal_described (files : gset string) (src dest : string) :
  one_line (after "#" dest) ->
  one_line (after "?" (before "#" dest)) ->
  (forall resolved,
     resolved = resolve src (before "?" (before "#" dest)) ->
     PlainObject.inherited resolved = false
     /\ PlainObject.inherited (PosixPath.join [resolved; "index.html"]) = false) ->
  resolves_as_described files src dest.
Proof.
  intros Hfragment Hquery Hown.
  destruct (Hown _ eq_refl) as [Hown1 Hown2].
  exists (before "?" (before "#" dest)),
         (resolve src (before "?" (before "#" dest))).
  split; [reflexivity|].
  split; [intros rest ->; apply resolve_root|].
  split; [apply resolve_relative|].
  split; [|reflexivity].
  unfold validLocal, re_anchor, re_query.
  rewrite (replace_to_end_before "#" dest Hfragment).
  rewrite (replace_to_end_before "?" (before "#" dest) Hquery).
  rewrite <- !is_self_iff.
  destruct (is_self (before "?" (before "#" dest))); [tauto|].
  destruct (is_self (resolve src (before "?" (before "#" dest)))); [tauto|].
  rewrite (in_own _ files Hown1), (in_own _ files Hown2).
  repeat case_bool_decide; intuition discriminate.
Qed.

(** The verdict for a local link is [null] or ["not found"]. *)
Lemma localResult_truthy (files : gset string) (filename link : string) :
  localResult files filename link = None
  \/ truthy (localResult files filename link) = true.
Proof. unfold localResult. destruct (validLocal files filename link); auto. Qed.

(** The three links of the example get the verdicts of the example. *)
Lemma local_resolver_examples :
  localResult two_documents "a/b.html" "./" = None
  /\ PosixPath.join [PosixPath.dirname "a/b.html"; "../a"] = "a"
  /\ localResult two_documents "a/b.html" "../a" = None
  /\ localResult two_documents "a/b.html" "/missing" = Some "not found".
Proof. repeat split; vm_compute; reflexivity. Qed.

(** C8: the resolver does not strip every trailing fragment.  With the
    one document [page.html], the link [page.html#a] is valid, its
    fragment cut off; with a line feed in the fragment,
    [page.html#a<LF>b], nothing is cut off, by neither of the two
    replacements, and the link to the same document is not found. *)
Theorem fragment_with_line_break_not_stripped :
  validLocal {[ "page.html" ]} "index.html" "page.html#a" = true
  /\ replace_to_end re_anchor ("page.html#a" +:+ LF +:+ "b")
     = "page.html#a" +:+ LF +:+ "b"
  /\ replace_to_end re_query
       (replace_to_end re_anchor ("page.html#a" +:+ LF +:+ "b"))
     = "page.html#a" +:+ LF +:+ "b"
  /\ validLocal {[ "page.html" ]} "index.html" ("page.html#a" +:+ LF +:+ "b")
     = false
  /\ localResult {[ "page.html" ]} "index.html" ("page.html#a" +:+ LF +:+ "b")
     = Some "not found".
Proof. repeat split; vm_compute; reflexivity. Qed.

(** A line break after the [#] is the only way the cut can go wrong: the
    description fails for such a link. *)
Lemma local_resolver_line_break :
  ~ (forall files src dest, resolves_as_described files src dest).
Proof.
  intros H.
  destruct (H {[ "page.html" ]} "index.html" ("page.html#a" +:+ LF +:+ "b"))
    as (target & resolved & -> & _ & Hrel & Hvalid & _).
  assert (resolved = "page.html") as ->.
  { rewrite Hrel; [vm_compute; reflexivity|].
    intros (rest & E). vm_compute in E. discriminate E. }
  assert (validLocal {[ "page.html" ]} "index.html"
            ("page.html#a" +:+ LF +:+ "b") = false) as Hcode
    by (vm_compute; reflexivity).
  rewrite Hcode in Hvalid. destruct Hvalid as [_ Hvalid].
  discriminate Hvalid. right. right. left. set_solver.
Qed.

(** A link to a name that object literals inherit is taken for a link to
    a document: [toString] is valid where no such document exists. *)
Lemma inherited_name_taken_for_document :
  validLocal {[ "page.html" ]} "index.html" "toString" = true
  /\ validLocal {[ "page.html" ]} "index.html" "tostring" = false.
Proof. split; vm_compute; reflexivity. Qed.

End LocalFacts.

(* ================================================================== *)
(** * The network validator *)
(* ================================================================== *)

Module NetworkFacts.
Import Network Samples.

Section Node.

Context `{URL}.

Lemma news_app (s s' : state) (h : list event) :
  history s' = history s ++ h -> news s s' = h.
Proof. unfold news. intros ->. apply drop_app_length. Qed.

(** ** What each handler does to the state *)


Lemma validUrl_hit (p : probe) (s : state) (r : verdict) :
  validUrlCache s !! link p = Some r -> validUrl p s = call (callback p) r s.
Proof. unfold validUrl. intros ->. reflexivity. Qed.

(** No property the cache inherits has a colon in its name, so a link
    that the library accepts is none of them. *)
Lemma inherited_without_colon (key : string) :
  PlainObject.inherited key = true -> String.index 0 ":" key = None.
Proof.
  unfold PlainObject.inherited, PlainObject.inherited_names. cbn [existsb].
  repeat match goal with
         | |- context [String.eqb key ?x] =>
             destruct (String.eqb_spec key x) as [->|_];
             [intros _; vm_compute; reflexivity|]
         end.
  discriminate.
Qed.

Lemma protocol_not_inherited (l protocol : string) :
  protocol_of l = Some protocol -> PlainObject.inherited l = false.
Proof.
  intros Hp. destruct (PlainObject.inherited l) eqn:Hi; [|reflexivity].
  destruct (protocol_after_colon l protocol Hp).
  apply inherited_without_colon, Hi.
Qed.

(** A protocol is truthy, and names no inherited property. *)
Lemma protocol_truthy_and_own (l protocol : string) :
  protocol_of l = Some protocol ->
  protocol <> "" /\ PlainObject.inherited protocol = false.
Proof.
  intros Hp. pose proof (protocol_with_colon l protocol Hp) as Hcolon. split.
  - intros ->. apply Hcolon. reflexivity.
  - destruct (PlainObject.inherited protocol) eqn:Hi; [|reflexivity].
    destruct Hcolon. apply inherited_without_colon, Hi.
Qed.

Lemma requestable_not_inherited (l : string) :
  requestable l -> PlainObject.inherited l = false.
Proof.
  unfold requestable, request_throws.
  destruct (protocol_of l) as [protocol|] eqn:Hp; [|discriminate].
  intros _. apply (protocol_not_inherited l protocol Hp).
Qed.

Lemma inherited_not_requestable (l : string) :
  PlainObject.inherited l = true -> ~ requestable l.
Proof.
  intros Hi Hr. rewrite (requestable_not_inherited l Hr) in Hi. discriminate.
Qed.

Lemma validUrl_miss (p : probe) (s : state) :
  validUrlCache s !! link p = None -> requestable (link p) ->
  validUrl p s = request p s.
Proof.
  intros Hc Hr. unfold validUrl.
  rewrite Hc, (requestable_not_inherited _ Hr). rewrite Hr. reflexivity.
Qed.

Lemma validUrl_refused (p : probe) (s : state) :
  validUrlCache s !! link p = None -> PlainObject.inherited (link p) = false ->
  ~ requestable (link p) ->
  validUrl p s = throw p s.
Proof.
  unfold validUrl, requestable. intros -> -> Hr.
  destruct (request_throws _ _); [reflexivity|]. destruct Hr. reflexivity.
Qed.

Lemma validUrl_inherited (p : probe) (s : state) :
  validUrlCache s !! link p = None -> PlainObject.inherited (link p) = true ->
  validUrl p s = call_inherited (callback p) (link p) s.
Proof. unfold validUrl. intros -> ->. reflexivity. Qed.

(** An invocation answers from the cache, sends its request, throws, or
    answers with a property the cache inherits. *)
Lemma validUrl_cases (p : probe) (s : state) :
  (exists r, validUrlCache s !! link p = Some r
             /\ validUrl p s = call (callback p) r s)
  \/ (validUrlCache s !! link p = None /\ requestable (link p)
      /\ validUrl p s = request p s)
  \/ (validUrlCache s !! link p = None /\ ~ requestable (link p)
      /\ validUrl p s = throw p s)
  \/ (validUrlCache s !! link p = None /\ ~ requestable (link p)
      /\ validUrl p s = call_inherited (callback p) (link p) s).
Proof.
  destruct (validUrlCache s !! link p) as [r|] eqn:Hc.
  { left. exists r. split; [reflexivity|]. apply validUrl_hit, Hc. }
  right. destruct (PlainObject.inherited (link p)) eqn:Hi.
  { right. right. split; [reflexivity|].
    split; [apply inherited_not_requestable, Hi|].
    apply validUrl_inherited; assumption. }
  destruct (request_throws (library_of (link p)) (link p)) eqn:Ht.
  - right. left. split; [reflexivity|].
    assert (~ requestable (link p)) as Hn
      by (unfold requestable; rewrite Ht; discriminate).
    split; [exact Hn|]. apply validUrl_refused; assumption.
  - left. split; [reflexivity|]. split; [exact Ht|].
    apply validUrl_miss; [exact Hc|exact Ht].
Qed.


Lemma cacheAndCallback_retry (p : probe) (r : verdict) (s : state) :
  truthy r = true -> attempt p <= attempts (opts p) ->
  cacheAndCallback p r s = setTimeout (retry_delay (attempt p)) (retry_of p) s.
Proof.
  intros Hr Ha. unfold cacheAndCallback. rewrite Hr.
  apply Nat.leb_le in Ha. rewrite Ha. reflexivity.
Qed.

Lemma cacheAndCallback_final (p : probe) (r : verdict) (s : state) :
  truthy r = false \/ attempts (opts p) < attempt p ->
  cacheAndCallback p r s = call (callback p) r (store (link p) r s).
Proof.
  intros Hf. unfold cacheAndCallback.
  destruct (truthy r); simpl; [|reflexivity].
  destruct Hf as [Hf|Hf]; [discriminate|].
  apply Nat.leb_gt in Hf. rewrite Hf. reflexivity.
Qed.

Lemma cacheAndCallback_cases (p : probe) (r : verdict) (s : state) :
  (truthy r = true /\ attempt p <= attempts (opts p)
   /\ cacheAndCallback p r s = setTimeout (retry_delay (attempt p)) (retry_of p) s)
  \/ ((truthy r = false \/ attempts (opts p) < attempt p)
      /\ cacheAndCallback p r s = call (callback p) r (store (link p) r s)).
Proof.
  destruct (truthy r) eqn:Hr.
  - destruct (Nat.le_gt_cases (attempt p) (attempts (opts p))) as [Ha|Ha].
    + left. auto using cacheAndCallback_retry.
    + right. auto using cacheAndCallback_final.
  - right. auto using cacheAndCallback_final.
Qed.

Lemma truthy_HTTP (t : string) : truthy (Some ("HTTP " +:+ t)) = true.
Proof. reflexivity. Qed.

(** A reply either falls back to GET or is handed, as its diagnostic, to
    [cacheAndCallback]. *)
Lemma deliver_cases (p : probe) (r : reply) (s : state) :
  (method p = HEAD /\ (r = Response 405 \/ exists m, r = TransportError m)
   /\ deliver p r s = validUrl (as_GET p) s)
  \/ ((method p = GET \/ exists code, r = Response code /\ code <> 405%Z)
      /\ deliver p r s = cacheAndCallback p (diagnostic r) s).
Proof.
  destruct r as [st|m]; simpl; unfold onResponse, onError.
  - destruct (Z.eqb_spec st 405) as [->|Hne]; simpl.
    + destruct (method p) eqn:Hm; simpl; [left; eauto|right; auto].
    + right. split; [eauto|].
      destruct ((st >=? 400)%Z && (st <=? 599)%Z); reflexivity.
  - destruct (method p) eqn:Hm; simpl; [left; eauto|right; auto].
Qed.

(** ** Turns and sequences of turns *)

Lemma steps_in_trans (answers : probe -> reply -> Prop) (s1 s2 s3 : state) :
  steps_in answers s1 s2 -> steps_in answers s2 s3 -> steps_in answers s1 s3.
Proof.
  induction 1 as [|s1 s2 s2' H12 _ IH]; [auto|].
  intros H3. eapply steps_step; [exact H12|]. apply IH, H3.
Qed.

Lemma step_in_step (answers : probe -> reply -> Prop) (s s' : state) :
  step_in answers s s' -> step s s'.
Proof.
  intros [s0 o c l|s0 earlier p later r Hi _|s0 earlier d p later Ht].
  - apply step_start.
  - apply step_reply; [exact Hi|exact I].
  - eapply step_timer. exact Ht.
Qed.

Lemma steps_in_steps (answers : probe -> reply -> Prop) (s s' : state) :
  steps_in answers s s' -> steps s s'.
Proof.
  induction 1 as [|s1 s2 s3 H12 _ IH]; [apply steps_refl|].
  eapply steps_step; [exact (step_in_step _ _ _ H12)|exact IH].
Qed.

(** ** Outstanding requests are requests the library has accepted *)

Lemma accepted_validUrl (p : probe) (s : state) :
  outstanding_accepted s -> outstanding_accepted (validUrl p s).
Proof.
  intros [Hi Ht].
  destruct (validUrl_cases p s)
    as [(r & _ & ->)|[(_ & Hr & ->)|[(_ & _ & ->)|(_ & _ & ->)]]].
  - split; assumption.
  - split; [|exact Ht]. apply Forall_app. split; [exact Hi|].
    constructor; [exact Hr|constructor].
  - split; assumption.
  - split; assumption.
Qed.

Lemma accepted_cacheAndCallback (p : probe) (r : verdict) (s : state) :
  requestable (link p) ->
  outstanding_accepted s -> outstanding_accepted (cacheAndCallback p r s).
Proof.
  intros Hp [Hi Ht].
  destruct (cacheAndCallback_cases p r s) as [(_ & _ & ->)|(_ & ->)].
  - split; [exact Hi|]. apply Forall_app. split; [exact Ht|].
    constructor; [exact Hp|constructor].
  - split; assumption.
Qed.

Lemma accepted_deliver (p : probe) (r : reply) (s : state) :
  requestable (link p) ->
  outstanding_accepted s -> outstanding_accepted (deliver p r s).
Proof.
  intros Hp Hs. destruct (deliver_cases p r s) as [(_ & _ & ->)|(_ & ->)].
  - apply accepted_validUrl, Hs.
  - apply accepted_cacheAndCallback; assumption.
Qed.

Lemma accepted_without_request (s : state) (earlier later : list probe)
    (p : probe) :
  inflight s = earlier ++ p :: later -> outstanding_accepted s ->
  requestable (link p) /\ outstanding_accepted (with_inflight (earlier ++ later) s).
Proof.
  intros E [Hi Ht]. rewrite E in Hi.
  apply Forall_app in Hi as [Hi1 Hi2]. apply Forall_cons in Hi2 as [Hp Hi2].
  split; [exact Hp|]. split; [|exact Ht]. apply Forall_app. auto.
Qed.

Lemma accepted_without_timer (s : state) (earlier later : list (Z * probe))
    (d : Z) (p : probe) :
  timers s = earlier ++ (d, p) :: later -> outstanding_accepted s ->
  requestable (link p) /\ outstanding_accepted (with_timers (earlier ++ later) s).
Proof.
  intros E [Hi Ht]. rewrite E in Ht.
  apply Forall_app in Ht as [Ht1 Ht2]. apply Forall_cons in Ht2 as [Hp Ht2].
  split; [exact Hp|]. split; [exact Hi|]. apply Forall_app. auto.
Qed.

Lemma step_accepted (s s' : state) :
  step s s' -> outstanding_accepted s -> outstanding_accepted s'.
Proof.
  intros [s0 o c l|s0 earlier p later r Hi _|s0 earlier d p later Ht] Hs.
  - apply accepted_validUrl, Hs.
  - destruct (accepted_without_request _ _ _ _ Hi Hs) as [Hp Hs'].
    apply accepted_deliver; assumption.
  - destruct (accepted_without_timer _ _ _ _ _ Ht Hs) as [Hp Hs'].
    apply accepted_validUrl, Hs'.
Qed.

Lemma steps_accepted (s s' : state) :
  steps s s' -> outstanding_accepted s -> outstanding_accepted s'.
Proof. induction 1 as [|s1 s2 s3 H12 _ IH]; eauto using step_accepted. Qed.

(** In every state the module can reach, each outstanding request and
    timer is for a link that the library has accepted. *)
Lemma reachable_accepted (s : state) :
  steps module_init s -> outstanding_accepted s.
Proof.
  intros Hs. apply (steps_accepted _ _ Hs). split; constructor.
Qed.

Lemma reachable_request_accepted (s : state) (earlier later : list probe)
    (p : probe) :
  steps module_init s -> inflight s = earlier ++ p :: later ->
  requestable (link p).
Proof.
  intros Hs E.
  exact (proj1 (accepted_without_request _ _ _ _ E (reachable_accepted s Hs))).
Qed.

Lemma reachable_timer_accepted (s : state) (earlier later : list (Z * probe))
    (d : Z) (p : probe) :
  steps module_init s -> timers s = earlier ++ (d, p) :: later ->
  requestable (link p).
Proof.
  intros Hs E.
  exact (proj1 (accepted_without_timer _ _ _ _ _ E (reachable_accepted s Hs))).
Qed.

(** In particular they are for links that are no name of an inherited
    property: what [cacheAndCallback] stores, it stores under an own key
    of the cache. *)
Lemma reachable_outstanding_own (s : state) :
  steps module_init s ->
  Forall (fun p => PlainObject.inherited (link p) = false) (inflight s)
  /\ Forall (fun t : Z * probe => PlainObject.inherited (link (snd t)) = false)
            (timers s).
Proof.
  intros Hs. destruct (reachable_accepted s Hs) as [Hi Ht].
  split; (eapply Forall_impl; [eassumption|]); intros x Hx;
    apply requestable_not_inherited, Hx.
Qed.

(** ** The HEAD fallback *)

(** C6, as the code has it: a 405 answer to a HEAD request re-enters the
    validator once, as GET and with the attempt count unchanged; no timer
    is set and nothing is cached.  The re-entry looks the URL up again:
    one GET request goes out when the URL is still uncached, and when the
    URL has been cached in the meantime the cached verdict is handed to
    the callback and no request goes out.  (The GET request goes to the
    library that accepted the HEAD request, as it does for every request
    that is outstanding in a state the module can reach.) *)
Theorem head_405_falls_back_to_GET (s : state)
    (earlier later : list probe) (p : probe) :
  inflight s = earlier ++ p :: later ->
  method p = HEAD ->
  let s' := deliver p (Response 405) (with_inflight (earlier ++ later) s) in
  timers s' = timers s
  /\ validUrlCache s' = validUrlCache s
  /\ attempt (as_GET p) = attempt p
  /\ (validUrlCache s !! link p = None -> requestable (link p) ->
      inflight s' = (earlier ++ later) ++ [as_GET p]
      /\ news s s' = [Sent (as_GET p)])
  /\ (forall r, validUrlCache s !! link p = Some r ->
      inflight s' = earlier ++ later
      /\ news s s' = [Called (callback p) r])
  /\ (steps module_init s -> requestable (link p)).
Proof.
  intros Hi Hm s'.
  assert (s' = validUrl (as_GET p) (with_inflight (earlier ++ later) s)) as ->.
  { subst s'. simpl. unfold onResponse. rewrite Hm. reflexivity. }
  destruct (validUrl_cases (as_GET p) (with_inflight (earlier ++ later) s))
    as [(r & Hc & ->)|[(Hc & Hr & ->)|[(Hc & Hr & ->)|(Hc & Hr & ->)]]];
    cbn [as_GET link with_inflight validUrlCache] in *;
    (split; [reflexivity|]); (split; [reflexivity|]); (split; [reflexivity|]).
  - split; [rewrite Hc; discriminate|]. split.
    + intros r' E. rewrite Hc in E. injection E as <-.
      split; [reflexivity|]. apply news_app. reflexivity.
    + intros Hs. exact (reachable_request_accepted s earlier later p Hs Hi).
  - split.
    + intros _ _. split; [reflexivity|]. apply news_app. reflexivity.
    + split; [rewrite Hc; discriminate|]. intros _. exact Hr.
  - split; [intros _ Hr'; contradiction|].
    split; [rewrite Hc; discriminate|].
    intros Hs. exact (reachable_request_accepted s earlier later p Hs Hi).
  - split; [intros _ Hr'; contradiction|].
    split; [rewrite Hc; discriminate|].
    intros Hs. exact (reachable_request_accepted s earlier later p Hs Hi).
Qed.

(** ** Retries *)

Lemma validUrl_news (p : probe) (s s0 : state) :
  history s = history s0 ->
  exists e, news s0 (validUrl p s) = [e] /\ forall d q, e <> Scheduled d q.
Proof.
  intros Hh.
  destruct (validUrl_cases p s)
    as [(r & _ & ->)|[(_ & _ & ->)|[(_ & _ & ->)|(_ & _ & ->)]]];
    eexists; (split; [apply news_app; simpl; rewrite Hh; reflexivity|]);
    discriminate.
Qed.

(** C4, as the code has it: a retry is scheduled only by the reply to an
    outstanding request, and it repeats that request's method one attempt
    later, after [min(1000, 100 * 2^attempt)] ms; when its timer expires
    and the URL is still uncached, the request that goes out is the
    scheduled one, method included.  (It goes to the library that
    accepted the earlier attempts, as it does for every timer of a state
    the module can reach.) *)
Theorem retry_keeps_method :
  (forall s s' d q,
     step s s' -> Scheduled d q ∈ news s s' ->
     exists p, p ∈ inflight s /\ attempt p <= attempts (opts p)
               /\ q = retry_of p /\ method q = method p
               /\ d = retry_delay (attempt p))
  /\ (forall s earlier d q later,
       timers s = earlier ++ (d, q) :: later ->
       validUrlCache s !! link q = None ->
       requestable (link q) ->
       news s (validUrl q (with_timers (earlier ++ later) s)) = [Sent q])
  /\ (forall s earlier d q later,
       steps module_init s ->
       timers s = earlier ++ (d, q) :: later ->
       requestable (link q)).
Proof.
  split; [|split].
  - intros s s' d q Hstep Hin.
    destruct Hstep as [s o c l|s earlier p later r Hfl _|s earlier d' p later Hti].
    + destruct (validUrl_news (Probe l o c 1 HEAD) s s eq_refl) as (e & E & Hne).
      unfold start in Hin. rewrite E in Hin.
      apply list_elem_of_singleton in Hin. exfalso. eapply Hne. eauto.
    + destruct (deliver_cases p r (with_inflight (earlier ++ later) s))
        as [(_ & _ & E)|(_ & E)]; rewrite E in Hin.
      * destruct (validUrl_news (as_GET p) (with_inflight (earlier ++ later) s)
                    s eq_refl) as (e & E' & Hne).
        rewrite E' in Hin. apply list_elem_of_singleton in Hin.
        exfalso. eapply Hne. eauto.
      * destruct (cacheAndCallback_cases p (diagnostic r)
                    (with_inflight (earlier ++ later) s))
          as [(_ & Ha & E')|(_ & E')]; rewrite E' in Hin.
        -- rewrite (news_app s _ [Scheduled (retry_delay (attempt p)) (retry_of p)])
             in Hin by reflexivity.
           apply list_elem_of_singleton in Hin. injection Hin as -> ->.
           exists p. rewrite Hfl. repeat split; [set_solver|exact Ha].
        -- rewrite (news_app s _ [Called (callback p) (diagnostic r)])
             in Hin by reflexivity.
           apply list_elem_of_singleton in Hin. discriminate Hin.
    + destruct (validUrl_news p (with_timers (earlier ++ later) s) s eq_refl)
        as (e & E & Hne).
      rewrite E in Hin. apply list_elem_of_singleton in Hin.
      exfalso. eapply Hne. eauto.
  - intros s earlier d q later _ Hc Hr.
    rewrite validUrl_miss by assumption. apply news_app. reflexivity.
  - intros s earlier d q later Hs Ht.
    exact (reachable_timer_accepted s earlier later d q Hs Ht).
Qed.

(** ** The cache *)

Lemma validUrl_cache (p : probe) (s : state) :
  validUrlCache (validUrl p s) = validUrlCache s.
Proof.
  destruct (validUrl_cases p s)
    as [(r & _ & ->)|[(_ & _ & ->)|[(_ & _ & ->)|(_ & _ & ->)]]];
    reflexivity.
Qed.

Lemma cacheAndCallback_cache (p : probe) (r : verdict) (s : state)
    (l : string) :
  is_Some (validUrlCache s !! l) ->
  is_Some (validUrlCache (cacheAndCallback p r s) !! l).
Proof.
  intros Hl.
  destruct (cacheAndCallback_cases p r s) as [(_ & _ & ->)|(_ & ->)]; simpl.
  - exact Hl.
  - apply lookup_insert_is_Some'. right. exact Hl.
Qed.

Lemma deliver_cache (p : probe) (r : reply) (s : state) (l : string) :
  is_Some (validUrlCache s !! l) ->
  is_Some (validUrlCache (deliver p r s) !! l).
Proof.
  intros Hl. destruct (deliver_cases p r s) as [(_ & _ & ->)|(_ & ->)].
  - rewrite validUrl_cache. exact Hl.
  - apply cacheAndCallback_cache. exact Hl.
Qed.

Lemma step_cache (s s' : state) (l : string) :
  step s s' ->
  is_Some (validUrlCache s !! l) -> is_Some (validUrlCache s' !! l).
Proof.
  intros [s0 o c l0|s0 earlier p later r _ _|s0 earlier d p later _] Hl.
  - unfold start. rewrite validUrl_cache. exact Hl.
  - apply deliver_cache. exact Hl.
  - rewrite validUrl_cache. exact Hl.
Qed.

Lemma steps_cache (s s' : state) (l : string) :
  steps s s' ->
  is_Some (validUrlCache s !! l) -> is_Some (validUrlCache s' !! l).
Proof. induction 1 as [|s1 s2 s3 H12 _ IH]; eauto using step_cache. Qed.

(** C3, as the code has it: the cache belongs to the module, not to a
    run.  No turn of the event loop, of whichever run, removes an entry,
    and a validation that starts while the URL has an entry, in the same
    run or in a later one, hands the cached verdict to its callback
    without sending a request. *)
Theorem cache_outlives_runs (s s' : state) (l : string) :
  steps s s' ->
  is_Some (validUrlCache s !! l) ->
  exists r,
    validUrlCache s' !! l = Some r
    /\ forall o c,
        start o c l s' = call c r s'
        /\ sent_of (news s' (start o c l s')) = []
        /\ calls_of (news s' (start o c l s')) = [(c, r)].
Proof.
  intros Hsteps Hs.
  destruct (steps_cache s s' l Hsteps Hs) as [r Hr].
  exists r. split; [exact Hr|]. intros o c.
  assert (start o c l s' = call c r s') as E
    by (apply (validUrl_hit (Probe l o c 1 HEAD)); exact Hr).
  rewrite E, (news_app s' (call c r s') [Called c r]) by reflexivity.
  auto.
Qed.

(** ** The event loop comes to rest *)

Lemma settle_tick (net : network) (f : nat) (s s' : state) :
  tick net s = Some s' -> settle net (S f) s = settle net f s'.
Proof. intros Ht. simpl. rewrite Ht. reflexivity. Qed.

Lemma settle_quiescent (net : network) (f : nat) (s : state) :
  quiescent s -> settle net f s = s.
Proof.
  intros [Hi Ht]. destruct f; [reflexivity|]. simpl. unfold tick.
  rewrite Hi, Ht. reflexivity.
Qed.

Lemma turns_request (p : probe) (s : state) :
  turns (request p s) = turns s + turns_of_request p.
Proof.
  unfold turns, request. cbn [inflight timers].
  rewrite sum_list_with_app. simpl. lia.
Qed.

Lemma turns_validUrl (p : probe) (s : state) :
  turns (validUrl p s) <= turns s + turns_of_request p.
Proof.
  destruct (validUrl_cases p s)
    as [(r & _ & ->)|[(_ & _ & ->)|[(_ & _ & ->)|(_ & _ & ->)]]].
  - unfold turns, call. cbn [inflight timers]. lia.
  - rewrite turns_request. lia.
  - unfold turns, throw. cbn [inflight timers]. lia.
  - unfold turns, call_inherited. cbn [inflight timers]. lia.
Qed.

Lemma turns_cacheAndCallback (p : probe) (r : verdict) (s : state) :
  turns (cacheAndCallback p r s) + 1 <= turns s + turns_of_request p.
Proof.
  destruct (cacheAndCallback_cases p r s) as [(_ & Ha & ->)|(_ & ->)].
  - unfold turns, setTimeout. cbn [inflight timers].
    rewrite sum_list_with_app. unfold turns_of_timer, turns_of_request.
    cbn [sum_list_with snd retry_of attempt method opts]. lia.
  - unfold turns, call, store, turns_of_request. cbn [inflight timers].
    destruct (is_GET (method p)); lia.
Qed.

Lemma turns_deliver (p : probe) (r : reply) (s : state) :
  turns (deliver p r s) + 1 <= turns s + turns_of_request p.
Proof.
  destruct (deliver_cases p r s) as [(Hm & _ & ->)|(_ & ->)].
  - pose proof (turns_validUrl (as_GET p) s) as Hv.
    unfold turns_of_request in *. rewrite Hm.
    cbn [as_GET attempt method is_GET opts] in *. lia.
  - apply turns_cacheAndCallback.
Qed.

Lemma tick_turns (net : network) (s s' : state) :
  tick net s = Some s' -> turns s' < turns s.
Proof.
  unfold tick. destruct s as [cache infl tim hist]. cbn [inflight timers].
  destruct infl as [|p rest].
  - destruct tim as [|[d p] rest]; [discriminate|].
    intros E. injection E as <-.
    pose proof (turns_validUrl p
                  (with_timers rest (State cache [] ((d, p) :: rest) hist))) as Hv.
    unfold turns, with_timers, turns_of_timer in *.
    cbn [inflight timers sum_list_with snd] in *. lia.
  - intros E. injection E as <-.
    pose proof (turns_deliver p (net p)
                  (with_inflight rest (State cache (p :: rest) tim hist))) as Hv.
    unfold turns, with_inflight in *.
    cbn [inflight timers sum_list_with] in *. lia.
Qed.

Lemma tick_None (net : network) (s : state) :
  tick net s = None -> quiescent s.
Proof.
  unfold tick, quiescent. destruct (inflight s); [|discriminate].
  destruct (timers s) as [|[d p] rest]; [auto|discriminate].
Qed.

Lemma settle_enough (net : network) (n : nat) :
  forall s, turns s <= n -> quiescent (settle net n s).
Proof.
  induction n as [|n IH]; intros s Hs; simpl.
  - destruct (tick net s) as [s'|] eqn:E; [|exact (tick_None net s E)].
    apply tick_turns in E. lia.
  - destruct (tick net s) as [s'|] eqn:E; [|exact (tick_None net s E)].
    apply IH. apply tick_turns in E. lia.
Qed.

(** Whatever is outstanding and whatever the network answers, the event
    loop of [settle_all] runs until nothing is outstanding. *)
Lemma settle_all_quiescent (net : network) (s : state) :
  quiescent (settle_all net s).
Proof. apply settle_enough. reflexivity. Qed.

(** The deterministic schedule is one of the schedules of [step_in]. *)
Lemma tick_step_in (answers : probe -> reply -> Prop) (net : network)
    (s s' : state) :
  (forall p, answers p (net p)) ->
  tick net s = Some s' -> step_in answers s s'.
Proof.
  intros Hnet. unfold tick. destruct (inflight s) as [|p rest] eqn:Ei.
  - destruct (timers s) as [|[d p] rest] eqn:Et; [discriminate|].
    intros E. injection E as <-.
    apply (step_timer answers s [] d p rest Et).
  - intros E. injection E as <-.
    apply (step_reply answers s [] p rest (net p) Ei (Hnet p)).
Qed.


(** ** The history only grows *)





(** ** What holds in every state the module can reach *)

Lemma retry_delay_bounds (a : nat) :
  1 <= a -> (200 <= retry_delay a <= 1000)%Z.
Proof.
  intros Ha. unfold retry_delay. split; [|apply Z.le_min_l].
  apply Z.min_glb; [lia|].
  assert (2 ^ 1 <= 2 ^ Z.of_nat a)%Z by (apply Z.pow_le_mono_r; lia). lia.
Qed.

Lemma sound_call (c : callback_id) (r : verdict) (s : state) :
  within_attempts s /\ cache_explained s ->
  within_attempts (call c r s) /\ cache_explained (call c r s).
Proof.
  intros [(Hi & Ht & Hh) Hc].
  unfold within_attempts, cache_explained.
  split; [split; [|split]|]; cbn [call inflight timers history validUrlCache].
  - eapply Forall_impl; [exact Hi|]. intros p Hp. apply elem_of_app. auto.
  - eapply Forall_impl; [exact Ht|]. intros p Hp. apply elem_of_app. auto.
  - apply Forall_app. split; [exact Hh|]. repeat constructor.
  - intros l v Hl. destruct (Hc l v Hl) as [(c' & Hc') Hv]. split.
    + exists c'. apply elem_of_app. auto.
    + intros Htr. destruct (Hv Htr) as (p & Hp & Hpl & Hpa & Hpc).
      exists p. rewrite !elem_of_app. auto.
Qed.

Lemma sound_throw (p : probe) (s : state) :
  within_attempts s /\ cache_explained s ->
  within_attempts (throw p s) /\ cache_explained (throw p s).
Proof.
  intros [(Hi & Ht & Hh) Hc].
  unfold within_attempts, cache_explained.
  split; [split; [|split]|]; cbn [throw inflight timers history validUrlCache].
  - eapply Forall_impl; [exact Hi|]. intros q Hq. apply elem_of_app. auto.
  - eapply Forall_impl; [exact Ht|]. intros q Hq. apply elem_of_app. auto.
  - apply Forall_app. split; [exact Hh|]. repeat constructor.
  - intros l v Hl. destruct (Hc l v Hl) as [(c' & Hc') Hv]. split.
    + exists c'. apply elem_of_app. auto.
    + intros Htr. destruct (Hv Htr) as (q & Hq & Hql & Hqa & Hqc).
      exists q. rewrite !elem_of_app. auto.
Qed.

Lemma sound_call_inherited (c : callback_id) (key : string) (s : state) :
  within_attempts s /\ cache_explained s ->
  within_attempts (call_inherited c key s) /\ cache_explained (call_inherited c key s).
Proof.
  intros [(Hi & Ht & Hh) Hc].
  unfold within_attempts, cache_explained.
  split; [split; [|split]|]; cbn [call_inherited inflight timers history validUrlCache].
  - eapply Forall_impl; [exact Hi|]. intros q Hq. apply elem_of_app. auto.
  - eapply Forall_impl; [exact Ht|]. intros q Hq. apply elem_of_app. auto.
  - apply Forall_app. split; [exact Hh|]. repeat constructor.
  - intros l v Hl. destruct (Hc l v Hl) as [(c' & Hc') Hv]. split.
    + exists c'. apply elem_of_app. auto.
    + intros Htr. destruct (Hv Htr) as (q & Hq & Hql & Hqa & Hqc).
      exists q. rewrite !elem_of_app. auto.
Qed.

Lemma sound_request (p : probe) (s : state) :
  1 <= attempt p <= attempts (opts p) + 1 ->
  within_attempts s /\ cache_explained s ->
  within_attempts (request p s) /\ cache_explained (request p s).
Proof.
  intros Hb [(Hi & Ht & Hh) Hc].
  unfold within_attempts, cache_explained.
  split; [split; [|split]|]; cbn [request inflight timers history validUrlCache].
  - apply Forall_app. split.
    + eapply Forall_impl; [exact Hi|]. intros q Hq. apply elem_of_app. auto.
    + repeat constructor. apply elem_of_app. right. apply list_elem_of_here.
  - eapply Forall_impl; [exact Ht|]. intros q Hq. apply elem_of_app. auto.
  - apply Forall_app. split; [exact Hh|]. repeat constructor; apply Hb.
  - intros l v Hl. destruct (Hc l v Hl) as [(c' & Hc') Hv]. split.
    + exists c'. apply elem_of_app. auto.
    + intros Htr. destruct (Hv Htr) as (q & Hq & Hql & Hqa & Hqc).
      exists q. rewrite !elem_of_app. auto.
Qed.

Lemma sound_setTimeout (d : Z) (p : probe) (s : state) :
  event_within (Scheduled d p) ->
  within_attempts s /\ cache_explained s ->
  within_attempts (setTimeout d p s) /\ cache_explained (setTimeout d p s).
Proof.
  intros Hb [(Hi & Ht & Hh) Hc].
  unfold within_attempts, cache_explained.
  split; [split; [|split]|];
    cbn [setTimeout inflight timers history validUrlCache].
  - eapply Forall_impl; [exact Hi|]. intros q Hq. apply elem_of_app. auto.
  - apply Forall_app. split.
    + eapply Forall_impl; [exact Ht|]. intros q Hq. apply elem_of_app. auto.
    + repeat constructor. apply elem_of_app. right. apply list_elem_of_here.
  - apply Forall_app. split; [exact Hh|]. repeat constructor; apply Hb.
  - intros l v Hl. destruct (Hc l v Hl) as [(c' & Hc') Hv]. split.
    + exists c'. apply elem_of_app. auto.
    + intros Htr. destruct (Hv Htr) as (q & Hq & Hql & Hqa & Hqc).
      exists q. rewrite !elem_of_app. auto.
Qed.

Lemma sound_store_call (p : probe) (r : verdict) (s : state) :
  Sent p ∈ history s ->
  (truthy r = true -> attempt p = attempts (opts p) + 1) ->
  within_attempts s /\ cache_explained s ->
  within_attempts (call (callback p) r (store (link p) r s))
  /\ cache_explained (call (callback p) r (store (link p) r s)).
Proof.
  intros Hp Hr [(Hi & Ht & Hh) Hc].
  unfold within_attempts, cache_explained.
  split; [split; [|split]|];
    cbn [call store inflight timers history validUrlCache].
  - eapply Forall_impl; [exact Hi|]. intros q Hq. apply elem_of_app. auto.
  - eapply Forall_impl; [exact Ht|]. intros q Hq. apply elem_of_app. auto.
  - apply Forall_app. split; [exact Hh|]. repeat constructor.
  - intros l v Hl. cbn [call store validUrlCache] in Hl.
    destruct (decide (link p = l)) as [<-|Hne].
    + rewrite lookup_insert_eq in Hl. injection Hl as <-. split.
      * exists (callback p). apply elem_of_app. right. apply list_elem_of_here.
      * intros Htr. exists p. rewrite !elem_of_app.
        split; [auto|]. split; [reflexivity|]. split; [auto|].
        right. apply list_elem_of_here.
    + rewrite lookup_insert_ne in Hl by exact Hne.
      destruct (Hc l v Hl) as [(c' & Hc') Hv]. split.
      * exists c'. apply elem_of_app. auto.
      * intros Htr. destruct (Hv Htr) as (q & Hq & Hql & Hqa & Hqc).
        exists q. rewrite !elem_of_app. auto.
Qed.

Lemma sound_validUrl (p : probe) (s : state) :
  1 <= attempt p <= attempts (opts p) + 1 ->
  within_attempts s /\ cache_explained s ->
  within_attempts (validUrl p s) /\ cache_explained (validUrl p s).
Proof.
  intros Hb Hs.
  destruct (validUrl_cases p s)
    as [(r & _ & ->)|[(_ & _ & ->)|[(_ & _ & ->)|(_ & _ & ->)]]].
  - apply sound_call, Hs.
  - apply sound_request; assumption.
  - apply sound_throw, Hs.
  - apply sound_call_inherited, Hs.
Qed.

Lemma sound_cacheAndCallback (p : probe) (r : verdict) (s : state) :
  1 <= attempt p <= attempts (opts p) + 1 ->
  Sent p ∈ history s ->
  within_attempts s /\ cache_explained s ->
  within_attempts (cacheAndCallback p r s)
  /\ cache_explained (cacheAndCallback p r s).
Proof.
  intros Hb Hp Hs.
  destruct (cacheAndCallback_cases p r s) as [(_ & Ha & ->)|(Hfin & ->)].
  - apply sound_setTimeout; [|exact Hs].
    cbn [event_within retry_of attempt opts].
    split; [lia|]. replace (attempt p + 1 - 1) with (attempt p) by lia.
    split; [reflexivity|]. apply retry_delay_bounds. lia.
  - apply sound_store_call; [exact Hp| |exact Hs].
    intros Htr. destruct Hfin as [Hfin|Hfin]; [congruence|lia].
Qed.

Lemma sound_deliver (p : probe) (r : reply) (s : state) :
  1 <= attempt p <= attempts (opts p) + 1 ->
  Sent p ∈ history s ->
  within_attempts s /\ cache_explained s ->
  within_attempts (deliver p r s) /\ cache_explained (deliver p r s).
Proof.
  intros Hb Hp Hs. destruct (deliver_cases p r s) as [(_ & _ & ->)|(_ & ->)].
  - apply sound_validUrl; [exact Hb|exact Hs].
  - apply sound_cacheAndCallback; assumption.
Qed.

Lemma sound_step (s s' : state) :
  step s s' ->
  within_attempts s /\ cache_explained s ->
  within_attempts s' /\ cache_explained s'.
Proof.
  intros [s0 o c l0|s0 earlier p later r Hfl _|s0 earlier d p later Hti] Hs.
  - apply sound_validUrl; [simpl; lia|exact Hs].
  - destruct Hs as [(Hi & Ht & Hh) Hc]. rewrite Hfl in Hi.
    apply Forall_app in Hi as [Hi1 Hi2]. apply Forall_cons in Hi2 as [Hp Hi2].
    pose proof (proj1 (Forall_forall _ _) Hh _ Hp) as Hb.
    apply sound_deliver; [exact Hb|exact Hp|].
    split; [|exact Hc]. split; [|split; assumption].
    apply Forall_app. auto.
  - destruct Hs as [(Hi & Ht & Hh) Hc]. rewrite Hti in Ht.
    apply Forall_app in Ht as [Ht1 Ht2]. apply Forall_cons in Ht2 as [Hp Ht2].
    pose proof (proj1 (Forall_forall _ _) Hh _ Hp) as Hb.
    apply sound_validUrl; [cbn [event_within fst snd] in Hb; lia|].
    split; [|exact Hc]. split; [exact Hi|]. split; [|exact Hh].
    apply Forall_app. auto.
Qed.

Lemma sound_steps (s s' : state) :
  steps s s' ->
  within_attempts s /\ cache_explained s ->
  within_attempts s' /\ cache_explained s'.
Proof. induction 1 as [|s1 s2 s3 H12 _ IH]; eauto using sound_step. Qed.

Lemma sound_module_init :
  within_attempts module_init /\ cache_explained module_init.
Proof.
  split; [repeat split; constructor|].
  intros l v Hl. unfold module_init in Hl. cbn [validUrlCache] in Hl.
  rewrite lookup_empty in Hl. discriminate Hl.
Qed.

Lemma reachable_sound (s : state) :
  steps module_init s -> within_attempts s /\ cache_explained s.
Proof. intros Hs. exact (sound_steps _ _ Hs sound_module_init). Qed.

(** ** A URL whose requests all fail *)



Lemma retry_delay_le (a b : nat) : a <= b -> (retry_delay a <= retry_delay b)%Z.
Proof.
  intros Hab. unfold retry_delay.
  apply Z.min_le_compat_l, Z.mul_le_mono_nonneg_l; [lia|].
  apply Z.pow_le_mono_r; lia.
Qed.

Lemma retry_delay_capped (a : nat) : (retry_delay a <= 1000)%Z.
Proof. unfold retry_delay. lia. Qed.

Lemma retry_delays_sorted (a n : nat) :
  Sorted Z.le (map retry_delay (seq a n)).
Proof.
  revert a. induction n as [|n IH]; intros a; simpl; constructor.
  - apply IH.
  - destruct n; simpl; constructor. apply retry_delay_le. lia.
Qed.

(** A reply that is no occasion for the GET fallback goes to
    [cacheAndCallback]. *)
Lemma deliver_no_fallback (p : probe) (r : reply) (s : state) :
  method p = GET \/ (exists code, r = Response code /\ code <> 405%Z) ->
  deliver p r s = cacheAndCallback p (diagnostic r) s.
Proof.
  intros Hno.
  destruct (deliver_cases p r s) as [(Hm & Hr & _)|(_ & E)]; [|exact E].
  exfalso. destruct Hno as [Hg|(code & -> & Hcode)]; [congruence|].
  destruct Hr as [E|(m & E)]; [injection E as ->; contradiction|discriminate E].
Qed.



(** *** Once cached, never requested again *)




(** *** A URL that has been requested is outstanding or cached *)

















End Node.

(** ** On the sample links *)

#[local] Existing Instance node_on_samples.

Lemma answered_with_step_in (answers : probe -> reply -> Prop) (r : reply)
    (s : state) (p : probe) (rest : list probe) :
  inflight s = p :: rest -> answers p r ->
  step_in answers s (answered_with r s).
Proof.
  intros Ei Hr. unfold answered_with. rewrite Ei.
  apply (step_reply answers s [] p rest r Ei Hr).
Qed.

Lemma expired_step_in (answers : probe -> reply -> Prop) (s : state)
    (d : Z) (p : probe) (rest : list (Z * probe)) :
  timers s = (d, p) :: rest -> step_in answers s (expired s).
Proof.
  intros Et. unfold expired. rewrite Et.
  apply (step_timer answers s [] d p rest Et).
Qed.

Lemma steps_in_snoc (answers : probe -> reply -> Prop) (s1 s2 s3 : state) :
  steps_in answers s1 s2 -> step_in answers s2 s3 -> steps_in answers s1 s3.
Proof.
  intros H12 H23. apply (steps_in_trans answers s1 s2 s3 H12).
  eapply steps_step; [exact H23|apply steps_refl].
Qed.

Lemma head_405_falls_back_to_GET_witness :
  let s := start example_options (Callback 1 0) example_url module_init in
  let s' := deliver (first_probe (Callback 1 0)) (Response 405)
              (with_inflight [] s) in
  inflight s' = [Probe example_url example_options (Callback 1 0) 1 GET]
  /\ news s s' = [Sent (Probe example_url example_options (Callback 1 0) 1 GET)].
Proof.
  intros s s'.
  destruct (head_405_falls_back_to_GET s [] [] (first_probe (Callback 1 0)))
    as (_ & _ & _ & Hsent & _); [reflexivity|reflexivity|].
  apply Hsent; reflexivity.
Defined.

Lemma racing_state_reachable : steps module_init racing_state.
Proof.
  eapply steps_step; [apply step_start|].
  eapply steps_step; [apply step_start|].
  eapply steps_step; [|apply steps_refl].
  apply (step_reply any_answer _ [] (first_probe (Callback 1 0))
           [first_probe (Callback 1 1)] (Response 200)); [reflexivity|exact I].
Qed.

(** C6, as stated for every probe, does not hold: the 405 that arrives
    after the URL has been cached sends no GET request. *)
Lemma head_405_may_send_nothing : ~ head_405_sends_one_GET.
Proof.
  intros Hall.
  specialize (Hall racing_state [] (first_probe (Callback 1 1)) []
                racing_state_reachable eq_refl eq_refl).
  vm_compute in Hall. discriminate Hall.
Qed.

Lemma fallen_back_state_reachable : steps module_init fallen_back_state.
Proof.
  eapply steps_step; [apply step_start|].
  eapply steps_step; [|apply steps_refl].
  apply (step_reply any_answer _ [] (first_probe (Callback 1 0)) []
           (TransportError "socket hang up")); [reflexivity|exact I].
Qed.

Lemma failed_GET_step : step fallen_back_state failed_GET_state.
Proof.
  apply (step_reply any_answer fallen_back_state []
           (as_GET (first_probe (Callback 1 0))) [] (Response 500));
    [reflexivity|exact I].
Qed.

Lemma retry_keeps_method_witness :
  exists p, p ∈ inflight fallen_back_state
            /\ attempt p <= attempts (opts p)
            /\ Probe example_url example_options (Callback 1 0) 2 GET = retry_of p
            /\ GET = method p
            /\ 200%Z = retry_delay (attempt p).
Proof.
  apply (proj1 retry_keeps_method
           fallen_back_state failed_GET_state 200%Z
           (Probe example_url example_options (Callback 1 0) 2 GET)).
  - exact failed_GET_step.
  - vm_compute. apply list_elem_of_here.
Defined.

(** C4, as stated, does not hold: the retry after a failed GET fallback
    is a GET request again. *)
Lemma retry_after_fallback_is_GET : ~ retries_start_with_HEAD.
Proof.
  intros Hall.
  specialize (Hall fallen_back_state failed_GET_state 200%Z
                (Probe example_url example_options (Callback 1 0) 2 GET)
                fallen_back_state_reachable failed_GET_step).
  assert (GET = HEAD) as E; [|discriminate E].
  apply Hall. vm_compute. apply list_elem_of_here.
Qed.

Lemma after_first_run_reachable : steps module_init after_first_run.
Proof.
  eapply steps_step; [apply step_start|].
  eapply steps_step; [|apply steps_refl].
  apply (step_reply any_answer _ [] (first_probe (Callback 1 0)) []
           (Response 200)); [reflexivity|exact I].
Qed.

Lemma cache_outlives_runs_witness :
  exists r,
    validUrlCache after_first_run !! example_url = Some r
    /\ forall o c,
        start o c example_url after_first_run = call c r after_first_run
        /\ sent_of (news after_first_run
                      (start o c example_url after_first_run)) = []
        /\ calls_of (news after_first_run
                       (start o c example_url after_first_run))
           = [(c, r)].
Proof.
  apply (cache_outlives_runs after_first_run after_first_run example_url).
  - apply steps_refl.
  - exists None. vm_compute. reflexivity.
Defined.

(** C3, as stated, does not hold: the second run is handed the verdict
    the first run cached, and sends nothing. *)
Lemma second_run_sees_first_run_cache : ~ cache_scoped_to_run.
Proof.
  intros Hall.
  specialize (Hall after_first_run example_options (Callback 2 0) example_url
                after_first_run_reachable).
  assert (sent_of (news after_first_run
                     (start example_options (Callback 2 0) example_url
                        after_first_run)) = []) as E
    by (vm_compute; reflexivity).
  rewrite E in Hall. discriminate Hall; [|reflexivity].
  intros c' r Hin.
  assert (history after_first_run
          = [Sent (first_probe (Callback 1 0)); Called (Callback 1 0) None]) as Eh
    by (vm_compute; reflexivity).
  rewrite Eh in Hin.
  apply elem_of_cons in Hin as [Hin|Hin]; [discriminate Hin|].
  apply list_elem_of_singleton in Hin. injection Hin as -> _.
  simpl. discriminate.
Qed.

Lemma answered_with_turn (answers : probe -> reply -> Prop) (r : reply)
    (s : state) :
  inflight s <> [] ->
  (forall p, head (inflight s) = Some p -> answers p r) ->
  step_in answers s (answered_with r s).
Proof.
  intros Hne Hr. destruct (inflight s) as [|p rest] eqn:Ei; [contradiction|].
  apply (answered_with_step_in answers r s p rest Ei). apply Hr. reflexivity.
Qed.

Lemma expired_turn (answers : probe -> reply -> Prop) (s : state) :
  timers s <> [] -> step_in answers s (expired s).
Proof.
  intros Hne. destruct (timers s) as [|[d p] rest] eqn:Et; [contradiction|].
  apply (expired_step_in answers s d p rest Et).
Qed.

(** Retrace a sample state turn by turn, from the last turn back. *)
Ltac retrace :=
  repeat lazymatch goal with
    | |- steps_in ?answers ?s (answered_with ?r ?s') =>
        apply (steps_in_snoc answers s s' (answered_with r s'));
        [|apply answered_with_turn;
          [vm_compute; discriminate
          |let p := fresh "p" in
           let Hp := fresh "Hp" in
           intros p Hp; vm_compute in Hp; injection Hp as <-;
           intros _; reflexivity]]
    | |- steps_in ?answers ?s (expired ?s') =>
        apply (steps_in_snoc answers s s' (expired s'));
        [|apply expired_turn; vm_compute; discriminate]
    | |- steps_in ?answers ?s (start ?o ?c ?l ?s') =>
        apply (steps_in_snoc answers s s' (start o c l s'));
        [|apply step_start]
    | |- steps_in _ _ _ => apply steps_refl
    end.

Lemma first_of_two_failed_reachable :
  steps_in (failing_on example_url) module_init first_of_two_failed.
Proof.
  unfold first_of_two_failed, two_at_last_attempt, both_retry. retrace.
Qed.

Lemma both_failed_after_first :
  steps_in (failing_on example_url) first_of_two_failed both_failed.
Proof. unfold both_failed. retrace. Qed.





End NetworkFacts.

(* ================================================================== *)
(** * The dispatcher *)
(* ================================================================== *)

Module PluginFacts.
Import Plugin.

Section Node.

Context `{URL}.

(** A link without protocol is a local link. *)
Lemma iteratee_local (o : Network.options) (files : gset string)
    (c : Network.callback_id) (filename link : string) (s : Network.state) :
  protocol_of link = None ->
  iteratee o files c filename link s
  = Network.call c (Local.localResult files filename link) s.
Proof. unfold iteratee. intros ->. reflexivity. Qed.

(** An [http:] or [https:] link goes to the network validator, as
    attempt 1 and with the method HEAD. *)
Lemma iteratee_remote (o : Network.options) (files : gset string)
    (c : Network.callback_id) (filename link protocol : string)
    (s : Network.state) :
  protocol_of link = Some protocol ->
  protocol = "http:" \/ protocol = "https:" ->
  iteratee o files c filename link s
  = Network.validUrl (Network.Probe link o c 1 Network.HEAD) s.
Proof.
  unfold iteratee. intros -> [-> | ->]; reflexivity.
Qed.

(** Every other protocol is answered at once, and a protocol without
    validator is taken to be valid. *)
Lemma iteratee_unknown_protocol (o : Network.options) (files : gset string)
    (c : Network.callback_id) (filename link protocol : string)
    (s : Network.state) :
  protocol_of link = Some protocol ->
  protocolValidators protocol = None ->
  iteratee o files c filename link s = Network.call c None s.
Proof. unfold iteratee. intros -> ->. reflexivity. Qed.

End Node.

End PluginFacts.

(* ================================================================== *)
(** * The completion callback *)
(* ================================================================== *)

Module ReportFacts.
Import Report Samples.

Lemma add_line_lookup (obj obj' : gmap string (list string)) (x : checked)
    (doc : string) :
  add_line obj x = Some obj' ->
  obj' !! doc
  = if String.eqb (filename x) doc
    then Some (default [] (obj !! doc) ++ [line x])
    else obj !! doc.
Proof.
  unfold add_line. destruct (String.eqb_spec (filename x) doc) as [<-|Hne].
  - destruct (obj !! filename x) as [ls|];
      [|destruct (PlainObject.inherited (filename x)); [discriminate|]];
      intros E; injection E as <-; rewrite lookup_insert_eq; reflexivity.
  - destruct (obj !! filename x) as [ls|];
      [|destruct (PlainObject.inherited (filename x)); [discriminate|]];
      intros E; injection E as <-; rewrite lookup_insert_ne by exact Hne;
      reflexivity.
Qed.

Lemma add_line_own (obj : gmap string (list string)) (x : checked) :
  PlainObject.inherited (filename x) = false -> is_Some (add_line obj x).
Proof.
  intros H. unfold add_line. rewrite H.
  destruct (obj !! filename x); eauto.
Qed.

Lemma fold_add_line_thrown (xs : list checked) :
  fold_left (fun acc x => acc ≫= fun obj => add_line obj x) xs None = None.
Proof. induction xs as [|x xs IH]; [reflexivity|exact IH]. Qed.

(** While no document is named like an inherited property, the reducer
    collects the lines of every document, in order. *)
Lemma fold_add_line (xs : list checked) :
  forall obj : gmap string (list string),
    Forall (fun x => PlainObject.inherited (filename x) = false) xs ->
    exists obj',
      fold_left (fun acc x => acc ≫= fun obj => add_line obj x) xs (Some obj)
      = Some obj'
      /\ forall doc,
           obj' !! doc
           = match map line
                     (List.filter (fun x => String.eqb (filename x) doc) xs) with
             | [] => obj !! doc
             | ls => Some (default [] (obj !! doc) ++ ls)
             end.
Proof.
  induction xs as [|x xs IH]; intros obj Hown; [eauto|].
  apply Forall_cons in Hown as [Hx Hown].
  destruct (add_line_own obj x Hx) as [obj1 E1].
  destruct (IH obj1 Hown) as (obj' & E & Hlookup).
  exists obj'. cbn [fold_left mbind option_bind]. rewrite E1.
  split; [exact E|]. intros doc. rewrite Hlookup.
  rewrite (add_line_lookup obj obj1 x doc E1). cbn [List.filter].
  destruct (String.eqb (filename x) doc); [|reflexivity].
  cbn [map default].
  destruct (map line (List.filter (fun y => String.eqb (filename y) doc) xs));
    [reflexivity|].
  unfold id. rewrite <- app_assoc. reflexivity.
Qed.

(** The first document named like an inherited property makes the
    reducer throw. *)
Lemma fold_add_line_inherited (xs : list checked) :
  forall obj : gmap string (list string),
    (forall key, PlainObject.inherited key = true -> obj !! key = None) ->
    Exists (fun x => PlainObject.inherited (filename x) = true) xs ->
    fold_left (fun acc x => acc ≫= fun obj => add_line obj x) xs (Some obj)
    = None.
Proof.
  induction xs as [|x xs IH]; intros obj Hobj Hex; [inversion Hex|].
  cbn [fold_left mbind option_bind].
  destruct (PlainObject.inherited (filename x)) eqn:Hx.
  - unfold add_line. rewrite (Hobj _ Hx), Hx. apply fold_add_line_thrown.
  - destruct (add_line_own obj x Hx) as [obj1 E1]. rewrite E1.
    apply IH.
    + intros key Hkey. rewrite (add_line_lookup obj obj1 x key E1).
      destruct (String.eqb_spec (filename x) key) as [E|_]; [|auto].
      rewrite E, Hkey in Hx. discriminate Hx.
    + apply Exists_cons in Hex as [Hex|Hex]; [|exact Hex].
      rewrite Hx in Hex. discriminate Hex.
Qed.

Lemma broken_reason (x : checked) :
  broken x = true <-> exists reason, result x = Some reason /\ reason <> "".
Proof.
  unfold broken, truthy. destruct (result x) as [reason|].
  - rewrite negb_true_iff, String.eqb_neq. split; [eauto|].
    intros (r & E & Hr). injection E as <-. exact Hr.
  - split; [discriminate|]. intros (r & E & _). discriminate E.
Qed.

(** The lines the code writes are the lines ["<link> (<reason>)"]. *)
Lemma broken_lines_code (results : list checked) (doc : string) :
  broken_lines results doc
  = map line
      (List.filter (fun x => broken x && String.eqb (filename x) doc) results).
Proof.
  unfold broken_lines, omap.
  induction results as [|x xs IH]; [reflexivity|].
  cbn [list_omap List.filter]. rewrite IH.
  assert (broken x = match result x with
                     | Some reason => negb (String.eqb reason "")
                     | None => false
                     end) as -> by reflexivity.
  destruct (result x) as [reason|] eqn:Hr; cbn [andb]; [|reflexivity].
  destruct (negb (String.eqb reason "") && String.eqb (filename x) doc);
    [|reflexivity].
  cbn [map]. unfold line at 1. f_equal.
  destruct x as [f l r]. cbn [result] in Hr. subst r. reflexivity.
Qed.

Lemma filter_broken_doc (results : list checked) (doc : string) :
  List.filter (fun x => String.eqb (filename x) doc) (List.filter broken results)
  = List.filter (fun x => broken x && String.eqb (filename x) doc) results.
Proof.
  induction results as [|x xs IH]; [reflexivity|]. cbn [List.filter].
  destruct (broken x); cbn [List.filter andb]; rewrite IH; reflexivity.
Qed.

Lemma inherited_document_filter (results : list checked) :
  inherited_document results
  <-> Exists (fun x => PlainObject.inherited (filename x) = true)
             (List.filter broken results).
Proof.
  unfold inherited_document. rewrite Exists_exists. split.
  - intros (x & Hin & Hb & Hi). exists x. split; [|exact Hi].
    apply list_elem_of_In, filter_In. rewrite <- list_elem_of_In. auto.
  - intros (x & Hin & Hi). apply list_elem_of_In, filter_In in Hin as [Hin Hb].
    exists x. rewrite list_elem_of_In. auto.
Qed.

(** What the reducer returns: it throws exactly when a broken link is in
    a document named like an inherited property, and otherwise maps
    every document to its lines. *)
Lemma filenamesToLinkErrors_cases (results : list checked) :
  (inherited_document results /\ filenamesToLinkErrors results = None)
  \/ (~ inherited_document results
      /\ exists obj,
           filenamesToLinkErrors results = Some obj
           /\ forall doc,
                obj !! doc = match broken_lines results doc with
                             | [] => None
                             | ls => Some ls
                             end).
Proof.
  unfold filenamesToLinkErrors. rewrite inherited_document_filter.
  destruct (decide (Exists (fun x => PlainObject.inherited (filename x) = true)
                           (List.filter broken results))) as [Hex|Hnone].
  - left. split; [exact Hex|]. apply fold_add_line_inherited; [|exact Hex].
    intros key _. apply lookup_empty.
  - right. split; [exact Hnone|].
    destruct (fold_add_line (List.filter broken results) ∅) as (obj & E & Hl).
    { apply Forall_forall. intros x Hx.
      destruct (PlainObject.inherited (filename x)) eqn:Hi; [|reflexivity].
      exfalso. apply Hnone, Exists_exists. eauto. }
    exists obj. split; [exact E|]. intros doc.
    rewrite Hl, filter_broken_doc, broken_lines_code, lookup_empty. reflexivity.
Qed.

Lemma broken_lines_nonempty (results : list checked) (doc : string) :
  broken_lines results doc <> []
  <-> exists x reason, x ∈ results /\ broken_in doc x reason.
Proof.
  assert ((exists x reason, x ∈ results /\ broken_in doc x reason)
          <-> exists x, x ∈ results /\ broken x = true /\ filename x = doc)
    as ->.
  { unfold broken_in. split.
    - intros (x & reason & Hin & Hf & Hr). exists x.
      split; [exact Hin|]. split; [apply broken_reason; eauto|exact Hf].
    - intros (x & Hin & Hb & Hf). apply broken_reason in Hb as (reason & Hr).
      exists x, reason. tauto. }
  rewrite broken_lines_code. split.
  - intros H.
    destruct (List.filter _ results) as [|x xs] eqn:E; [contradiction|].
    assert (In x (List.filter
                    (fun x => broken x && String.eqb (filename x) doc) results))
      as Hin by (rewrite E; left; reflexivity).
    apply filter_In in Hin as [Hin Hx]. apply andb_true_iff in Hx as [Hb Hf].
    exists x. rewrite list_elem_of_In, <- String.eqb_eq. auto.
  - intros (x & Hin & Hb & Hf) E.
    assert (In x (List.filter
                    (fun x => broken x && String.eqb (filename x) doc) results))
      as Hx.
    { apply filter_In. rewrite <- list_elem_of_In. split; [exact Hin|].
      rewrite Hb. apply String.eqb_eq. exact Hf. }
    destruct (List.filter _ results); [destruct Hx|discriminate E].
Qed.

Lemma elem_of_keys (obj : gmap string (list string)) (doc : string) :
  doc ∈ keys obj <-> is_Some (obj !! doc).
Proof.
  unfold keys. rewrite list_elem_of_fmap. split.
  - intros ([d ls] & -> & Hin). apply elem_of_map_to_list in Hin. eauto.
  - intros [ls Hls]. exists (doc, ls). split; [reflexivity|].
    apply elem_of_map_to_list. exact Hls.
Qed.

Lemma elem_of_keys_broken (results : list checked)
    (obj : gmap string (list string)) (doc : string) :
  (forall doc, obj !! doc = match broken_lines results doc with
                            | [] => None
                            | ls => Some ls
                            end) ->
  doc ∈ keys obj <-> exists x reason, x ∈ results /\ broken_in doc x reason.
Proof.
  intros Hobj. rewrite elem_of_keys, Hobj, <- broken_lines_nonempty.
  destruct (broken_lines results doc); split.
  - intros [? H]. discriminate H.
  - intros H. contradiction.
  - discriminate.
  - eauto.
Qed.

(** When some link is broken, and no broken link is in a document named
    like an inherited property, the text handed to [done] starts with
    the header and is made of one block per document with a broken link,
    the documents in ascending order without repetition, each block
    listing the lines ["  <link> (<reason>)"] of that document's broken
    links in ascending order, blocks separated by an empty line. *)
Lemma broken_links_report (results : list checked) :
  (exists x reason, x ∈ results /\ broken_in (filename x) x reason) ->
  ~ inherited_document results ->
  exists docs lines,
    completion None results = [Some (report_text docs lines); None]
    /\ Sorted String.le docs
    /\ NoDup docs
    /\ (forall doc, doc ∈ docs <->
                    exists x reason, x ∈ results /\ broken_in doc x reason)
    /\ (forall doc, doc ∈ docs ->
                    Sorted String.le (lines doc)
                    /\ lines doc ≡ₚ broken_lines results doc).
Proof.
  intros (x & reason & Hin & Hb) Hown.
  destruct (filenamesToLinkErrors_cases results)
    as [[Hinh _]|(_ & obj & E & Hobj)]; [contradiction|].
  exists (sort (keys obj)), (fun doc => sort (default [] (obj !! doc))).
  assert (forall doc, doc ∈ sort (keys obj) <->
                      exists x reason, x ∈ results /\ broken_in doc x reason)
    as Hdocs.
  { intros doc. unfold sort. rewrite merge_sort_Permutation.
    apply elem_of_keys_broken, Hobj. }
  split; [|split; [|split; [|split]]].
  - unfold completion. rewrite E.
    destruct (Nat.eqb_spec (length (keys obj)) 0) as [E0|_]; [|reflexivity].
    exfalso. assert (filename x ∈ keys obj) as Hk
      by (apply (elem_of_keys_broken results obj _ Hobj); eauto).
    apply nil_length_inv in E0. rewrite E0 in Hk. inversion Hk.
  - apply Sorted_merge_sort. apply _.
  - unfold sort. rewrite merge_sort_Permutation. apply NoDup_fst_map_to_list.
  - exact Hdocs.
  - intros doc _. split; [apply Sorted_merge_sort; apply _|].
    unfold sort. rewrite merge_sort_Permutation, Hobj.
    destruct (broken_lines results doc); reflexivity.
Qed.

(** C9: a broken link in a document named like a property that object
    literals inherit gets no report.  For the document [constructor] the
    reducer throws, and the callback is left before it has called
    [done]; for the document [constructor.html] the same broken link is
    reported as described. *)
Theorem no_report_for_inherited_document_name :
  filenamesToLinkErrors [Checked "constructor" "/missing" (Some "not found")]
  = None
  /\ completion None [Checked "constructor" "/missing" (Some "not found")] = []
  /\ completion None [Checked "constructor.html" "/missing" (Some "not found")]
     = [Some ("Broken links found:" +:+ LF +:+ LF
              +:+ "constructor.html:" +:+ LF
              +:+ "  /missing (not found)");
        None].
Proof. repeat split; vm_compute; reflexivity. Qed.

(** Without a broken link, [done] is called once, without argument. *)
Lemma done_called_once_without_broken_link (results : list checked) :
  (forall x, x ∈ results -> broken x = false) ->
  completion None results = [None].
Proof.
  intros Hall. unfold completion, filenamesToLinkErrors.
  assert (List.filter broken results = []) as ->; [|reflexivity].
  induction results as [|x xs IH]; [reflexivity|]. cbn [List.filter].
  rewrite (Hall x) by apply list_elem_of_here.
  apply IH. intros y Hy. apply Hall. apply list_elem_of_further, Hy.
Qed.

(** With a broken link, [done] is called with the report, and the
    callback then falls through to the final [done()]. *)
Lemma done_called_again_after_report (results : list checked) :
  (exists x, x ∈ results /\ broken x = true) ->
  ~ inherited_document results ->
  exists text, completion None results = [Some text; None].
Proof.
  intros (x & Hin & Hb) Hown. apply broken_reason in Hb as (reason & Hr).
  destruct (broken_links_report results) as (docs & lines & E & _);
    [exists x, reason; unfold broken_in; tauto|exact Hown|].
  eauto.
Qed.

(** C2, on a run with one broken link: [done] is called with the report
    and then once more without argument. *)
Theorem done_called_twice_when_a_link_is_broken :
  completion None one_broken_link
  = [Some ("Broken links found:" +:+ nl +:+ nl +:+ "a.html:" +:+ nl
           +:+ "  /missing (not found)");
     None].
Proof. vm_compute. reflexivity. Qed.

End ReportFacts.

(* ================================================================== *)
(** * More on the lexical validators *)
(* ================================================================== *)

Module FacetimeFacts.
Import RegExp RegExpFacts RegExpShapes Lexical.

Lemma some_nil (P : ascii -> Prop) : ~ some P "".
Proof. intros (s1 & x & s2 & E & _). destruct s1; discriminate E. Qed.

Lemma some_cons (P : ascii -> Prop) (x : ascii) (s : string) :
  some P (String x s) <-> P x \/ some P s.
Proof.
  split.
  - intros (s1 & y & s2 & E & Hy). destruct s1 as [|z s1].
    + injection E as -> ->. left. exact Hy.
    + rewrite app_cons in E. injection E as -> ->. right. exists s1, y, s2. auto.
  - intros [Hx|(s1 & y & s2 & -> & Hy)].
    + exists "", x, s. auto.
    + exists (String x s1), y, s2. auto.
Qed.

Lemma some_app (P : ascii -> Prop) (s t : string) :
  some P (s +:+ t) <-> some P s \/ some P t.
Proof.
  induction s as [|x s IH].
  - rewrite app_nil_left. split; [auto|]. intros [H|H]; [|exact H].
    destruct (some_nil P H).
  - rewrite app_cons, !some_cons, IH. tauto.
Qed.

(** [/r/] *)
Lemma test_search (r : regex) (s : string) :
  test (Pattern false r false) s = true <->
  exists s0 s1 s2, s = s0 +:+ s1 +:+ s2 /\ Matches r s1.
Proof.
  unfold test, unanchored; simpl. rewrite matchb_Matches, Matches_Seq. split.
  - intros (t & s2 & -> & Ht & _). apply Matches_Seq in Ht as (s0 & s1 & -> & _ & H).
    exists s0, s1, s2. rewrite app_assoc_str. auto.
  - intros (s0 & s1 & s2 & -> & H). exists (s0 +:+ s1), s2.
    rewrite app_assoc_str. split; [reflexivity|]. split; [|apply Matches_any].
    constructor; [apply Matches_any|exact H].
Qed.

Lemma accepts_digit (x : ascii) :
  accepts (Class [Range "0" "9"]) x = true <-> digit x.
Proof.
  unfold digit, accepts, existsb, in_item.
  rewrite orb_false_r, andb_true_iff, !Nat.leb_le.
  change (nat_of_ascii "0") with 48. change (nat_of_ascii "9") with 57.
  reflexivity.
Qed.

Lemma test_digit (link : string) : test re_digit link = true <-> some digit link.
Proof.
  unfold re_digit. rewrite test_search. split.
  - intros (s0 & s1 & s2 & -> & H). apply Matches_Atom in H as (x & -> & Hx).
    exists s0, x, s2. split; [reflexivity|]. apply accepts_digit. exact Hx.
  - intros (s1 & x & s2 & -> & Hx). exists s1, (String x ""), s2.
    split; [reflexivity|]. constructor. apply accepts_digit. exact Hx.
Qed.

Lemma Matches_Plus_Dot (s : string) :
  Matches (Plus (Atom Dot)) s <-> s <> "" /\ one_line s.
Proof.
  rewrite Matches_Plus_atom. unfold one_line.
  assert (forall x, accepts Dot x = true <-> x <> "010"%char /\ x <> "013"%char)
    as HDot.
  { intros x. unfold accepts, line_terminator.
    rewrite negb_true_iff, orb_false_iff, !Ascii.eqb_neq. reflexivity. }
  split; intros [H1 H2]; (split; [exact H1|]); revert H2; apply every_impl;
    intros x; apply HDot.
Qed.

Lemma test_facetime_email (link : string) :
  test re_facetime_email link = true <->
  exists user host,
    link = "facetime:" +:+ user +:+ "@" +:+ host
    /\ user <> "" /\ ~ occurs "@" user /\ host <> "" /\ one_line host.
Proof.
  unfold re_facetime_email. rewrite test_anchored, Matches_Str_prefix. split.
  - intros (t & -> & H). apply Matches_Seq in H as (user & t' & -> & Hu & H).
    apply Matches_Lit_cons in H as (host & -> & Hh).
    apply Matches_Plus_not in Hu as [Hu1 Hu2].
    apply Matches_Plus_Dot in Hh as [Hh1 Hh2].
    exists user, host. auto.
  - intros (user & host & -> & Hu1 & Hu2 & Hh1 & Hh2).
    exists (user +:+ "@" +:+ host). split; [reflexivity|].
    constructor; [apply Matches_Plus_not; auto|].
    apply Matches_Lit_cons. exists host. split; [reflexivity|].
    apply Matches_Plus_Dot. auto.
Qed.

Lemma test_facetime_phone (link : string) :
  test re_facetime_phone link = true <->
  exists number,
    link = "facetime:" +:+ number /\ number <> "" /\ every phone_char number.
Proof.
  unfold re_facetime_phone. rewrite test_anchored, Matches_Str_prefix.
  split; intros (number & -> & H); exists number; (split; [reflexivity|]).
  - apply Matches_Plus_atom in H as [H1 H2]. split; [exact H1|].
    revert H2. apply every_impl. intros x. apply LexicalFacts.accepts_phone_char.
  - destruct H as [H1 H2]. apply Matches_Plus_atom. split; [exact H1|].
    revert H2. apply every_impl. intros x. apply LexicalFacts.accepts_phone_char.
Qed.

Lemma indexOf_nonneg (c : ascii) (s : string) :
  (indexOf c s >=? 0)%Z = negb (indexOf c s =? -1)%Z.
Proof.
  destruct (indexOf_from_bound c s 0 ltac:(lia)) as [H|H]; unfold indexOf.
  - rewrite H. reflexivity.
  - rewrite Z.geb_leb. apply Z.leb_le in H as Hle. rewrite Hle.
    symmetry. apply negb_true_iff, Z.eqb_neq. lia.
Qed.

Lemma phone_char_plain (x : ascii) :
  phone_char x -> x <> "@"%char /\ x <> " "%char.
Proof.
  unfold phone_char. intros [H|[E|[E|E]]]; try (subst x; split; discriminate).
  split; intros ->; vm_compute in H; lia.
Qed.

Lemma absent_from_phone_link (c : ascii) (number : string) :
  c = "@"%char \/ c = " "%char ->
  every phone_char number -> indexOf c ("facetime:" +:+ number) = (-1)%Z.
Proof.
  intros Hc Hn. apply indexOf_absent. apply every_app. split.
  - destruct Hc as [-> | ->]; simpl; repeat split; discriminate.
  - revert Hn. apply every_impl. intros x Hx. apply phone_char_plain in Hx.
    destruct Hc as [-> | ->]; tauto.
Qed.

(** X1: What [validFacetime] accepts, among the links whose code units
    are all below 256: the bare scheme, an address [user@host] with a
    non-empty [user] free of ["@"] and a non-empty [host] that holds
    neither a line feed nor a carriage return, or a number made of
    digits, dots, plus and minus signs that holds at least one digit. *)
Theorem facetime_valid_iff (link : string) :
  validFacetime link = None <-> facetime_shape link.
Proof.
  unfold validFacetime, facetime_shape. rewrite indexOf_nonneg.
  destruct (String.eqb_spec link "facetime:") as [->|Hbare]; [tauto|].
  destruct (indexOf "@" link =? -1)%Z eqn:Hat; simpl.
  - apply Z.eqb_eq in Hat.
    assert (~ occurs "@" link) as HnoAt
      by (rewrite <- indexOf_present; lia).
    destruct (test re_digit link) eqn:Hd; simpl.
    + apply test_digit in Hd.
      destruct (indexOf " " link =? -1)%Z eqn:Hsp; simpl.
      * destruct (test re_facetime_phone link) eqn:Hp; simpl.
        -- apply test_facetime_phone in Hp as (number & -> & Hn1 & Hn2).
           split; [intros _|reflexivity]. right. right.
           exists number. repeat split; auto.
           apply some_app in Hd as [Hd|Hd]; [|exact Hd].
           exfalso. repeat (apply some_cons in Hd as [Hd|Hd];
                            [vm_compute in Hd; lia|]).
           exact (some_nil _ Hd).
        -- split; [discriminate|].
           intros [E|[(user & host & -> & _)|(number & -> & Hn1 & Hn2 & _)]].
           ++ contradiction.
           ++ exfalso. apply HnoAt. exists ("facetime:" +:+ user), host.
              rewrite !app_assoc_str. reflexivity.
           ++ assert (test re_facetime_phone ("facetime:" +:+ number) = true)
                as E by (apply test_facetime_phone; eauto).
              rewrite E in Hp. discriminate Hp.
      * split; [discriminate|].
        intros [E|[(user & host & -> & _)|(number & -> & Hn1 & Hn2 & _)]].
        -- contradiction.
        -- exfalso. apply HnoAt. exists ("facetime:" +:+ user), host.
           rewrite !app_assoc_str. reflexivity.
        -- rewrite (absent_from_phone_link " " number) in Hsp by auto.
           discriminate Hsp.
    + split; [discriminate|].
      intros [E|[(user & host & -> & _)|(number & -> & _ & _ & Hd')]].
      * contradiction.
      * exfalso. apply HnoAt. exists ("facetime:" +:+ user), host.
        rewrite !app_assoc_str. reflexivity.
      * assert (test re_digit ("facetime:" +:+ number) = true) as E
          by (apply test_digit, some_app; auto).
        rewrite E in Hd. discriminate Hd.
  - destruct (test re_facetime_email link) eqn:He; simpl.
    + apply test_facetime_email in He. tauto.
    + split; [discriminate|].
      intros [E|[Hshape|(number & -> & _ & Hn2 & _)]].
      * contradiction.
      * apply test_facetime_email in Hshape. rewrite Hshape in He. discriminate He.
      * rewrite (absent_from_phone_link "@" number) in Hat by auto.
        discriminate Hat.
Qed.

(** X2: The validator of the protocol ["facetime-audio:"] is [validFacetime],
    whose patterns all start with ["facetime:"]: no link that starts with
    ["facetime-audio:"] is ever valid. *)
Theorem facetime_audio_never_valid (rest : string) :
  validFacetime ("facetime-audio:" +:+ rest) <> None.
Proof.
  unfold validFacetime.
  destruct (String.eqb_spec ("facetime-audio:" +:+ rest) "facetime:") as [E|_];
    [vm_compute in E; discriminate E|].
  destruct ((indexOf "@" _ =? -1)%Z && negb (test re_digit _));
    [discriminate|].
  destruct (indexOf "@" _ >=? 0)%Z.
  - destruct (test re_facetime_email _) eqn:He; [|discriminate].
    apply test_facetime_email in He as (user & host & E & _).
    vm_compute in E. discriminate E.
  - destruct (negb (indexOf " " _ =? -1)%Z); [discriminate|].
    destruct (test re_facetime_phone _) eqn:Hp; [|discriminate].
    apply test_facetime_phone in Hp as (number & E & _).
    vm_compute in E. discriminate E.
Qed.

End FacetimeFacts.

Module MailtoFacts.
Import RegExp RegExpFacts RegExpShapes Lexical.

Lemma Matches_mailto_key (k : string) :
  Matches mailto_key k <-> In k mailto_keys.
Proof.
  split; [|apply LexicalFacts.mailto_key_shape].
  unfold mailto_key, mailto_keys.
  rewrite !Matches_Alt, !Matches_Str. simpl. intuition.
Qed.

Lemma Matches_mailto_param (p : string) :
  Matches mailto_param p <-> mailto_pair p.
Proof.
  unfold mailto_param, mailto_pair. rewrite Matches_Seq. split.
  - intros (k & t & -> & Hk & Ht). apply Matches_Lit_cons in Ht as (v & -> & Hv).
    apply Matches_Plus_not in Hv as [Hv1 Hv2]. apply Matches_mailto_key in Hk.
    exists k, v. auto.
  - intros (k & v & -> & Hk & Hv1 & Hv2). exists k, ("=" +:+ v).
    split; [reflexivity|]. split; [apply Matches_mailto_key; exact Hk|].
    apply Matches_Lit_cons. exists v. split; [reflexivity|].
    apply Matches_Plus_not. auto.
Qed.

Lemma Matches_mailto_address (s : string) :
  Matches mailto_address s <->
  exists L D, s = "mailto:" +:+ L +:+ "@" +:+ D
              /\ L <> "" /\ ~ occurs "@" L /\ D <> "" /\ ~ occurs "?" D.
Proof.
  unfold mailto_address, mailto_local. rewrite Matches_Seq. split.
  - intros (s1 & s2 & -> & H1 & H2).
    apply Matches_Str_prefix in H1 as (L & -> & HL).
    apply Matches_Lit_cons in H2 as (D & -> & HD).
    apply Matches_Plus_not in HL as [HL1 HL2].
    apply Matches_Plus_not in HD as [HD1 HD2].
    exists L, D. rewrite !app_assoc_str. auto.
  - intros (L & D & -> & HL1 & HL2 & HD1 & HD2).
    exists ("mailto:" +:+ L), ("@" +:+ D).
    split; [rewrite !app_assoc_str; reflexivity|].
    split; [apply LexicalFacts.mailto_local_shape; assumption|].
    apply Matches_Lit_cons. exists D. split; [reflexivity|].
    apply Matches_Plus_not. auto.
Qed.

Lemma test_mailto_full (link : string) :
  test re_mailto_full link = true <-> mailto_shape link.
Proof.
  unfold re_mailto_full, mailto_shape. rewrite test_anchored, Matches_Seq. split.
  - intros (s1 & tail & -> & H1 & H2).
    apply Matches_mailto_address in H1 as (L & D & -> & HL1 & HL2 & HD1 & HD2).
    exists L, D, tail. split; [rewrite !app_assoc_str; reflexivity|].
    repeat (split; [assumption|]).
    apply Matches_Opt in H2 as [H2| ->]; [|left; reflexivity]. right.
    apply Matches_Lit_cons in H2 as (t & -> & H2).
    apply Matches_Seq in H2 as (p1 & t' & -> & Hp1 & H2).
    apply Matches_mailto_param in Hp1.
    apply Matches_Opt in H2 as [H2| ->].
    + right. apply Matches_Lit_cons in H2 as (p2 & -> & Hp2).
      apply Matches_mailto_param in Hp2. exists p1, p2. auto.
    + left. exists p1. rewrite app_nil_right. auto.
  - intros (L & D & tail & -> & HL1 & HL2 & HD1 & HD2 & Htail).
    exists ("mailto:" +:+ L +:+ "@" +:+ D), tail.
    split; [rewrite !app_assoc_str; reflexivity|].
    split; [apply Matches_mailto_address; exists L, D; auto|].
    apply Matches_Opt.
    destruct Htail as [->|[(p & -> & Hp)|(p1 & p2 & -> & Hp1 & Hp2)]];
      [right; reflexivity|left|left];
      apply Matches_Lit_cons; eexists; (split; [reflexivity|]).
    + rewrite <- (app_nil_right p). constructor.
      * apply Matches_mailto_param. exact Hp.
      * apply Matches_Opt. right. reflexivity.
    + constructor; [apply Matches_mailto_param; exact Hp1|].
      apply Matches_Opt. left. apply Matches_Lit_cons. exists p2.
      split; [reflexivity|]. apply Matches_mailto_param. exact Hp2.
Qed.

(** The two earlier checks only look at the address. *)
Lemma address_passes_prefix_checks (L D tail : string) :
  L <> "" -> ~ occurs "@" L -> D <> "" -> ~ occurs "?" D ->
  test re_mailto_local ("mailto:" +:+ L +:+ "@" +:+ D +:+ tail) = true
  /\ test re_mailto_domain ("mailto:" +:+ L +:+ "@" +:+ D +:+ tail) = true.
Proof.
  intros HL1 HL2 HD1 HD2. split.
  - apply test_prefix. exists ("mailto:" +:+ L), ("@" +:+ D +:+ tail).
    split; [rewrite !app_assoc_str; reflexivity|].
    apply LexicalFacts.mailto_local_shape; assumption.
  - apply test_prefix. exists ("mailto:" +:+ L +:+ "@" +:+ D), tail.
    split; [rewrite !app_assoc_str; reflexivity|].
    apply Matches_mailto_address. exists L, D. auto.
Qed.

Lemma mailto_shape_passes_prefix_checks (link : string) :
  mailto_shape link ->
  test re_mailto_local link = true /\ test re_mailto_domain link = true.
Proof.
  intros (L & D & tail & -> & HL1 & HL2 & HD1 & HD2 & _).
  apply address_passes_prefix_checks; assumption.
Qed.

(** X3: What [validMailto] accepts: ["mailto:"], a non-empty local part free
    of ["@"], ["@"], a non-empty domain free of ["?"], and then nothing,
    one query pair or two query pairs, each pair a key among subject, cc,
    bcc and body with a non-empty value free of ["&"]. *)
Theorem mailto_valid_iff (link : string) :
  validMailto link = None <-> mailto_shape link.
Proof.
  rewrite <- test_mailto_full. unfold validMailto. split.
  - destruct (test re_mailto_local link); [|discriminate].
    destruct (test re_mailto_domain link); [|discriminate].
    destruct (test re_mailto_full link); [reflexivity|discriminate].
  - intros H.
    destruct (mailto_shape_passes_prefix_checks link
                (proj1 (test_mailto_full link) H)) as [-> ->].
    rewrite H. reflexivity.
Qed.

Lemma count_app (c : ascii) (s t : string) :
  count c (s +:+ t) = count c s + count c t.
Proof.
  induction s as [|x s IH]; [reflexivity|].
  rewrite app_cons. simpl. rewrite IH. lia.
Qed.

Lemma count_absent (c : ascii) (s : string) : ~ occurs c s -> count c s = 0.
Proof.
  rewrite occurs_iff. intros H.
  assert (every (fun x => x <> c) s) as Hs.
  { destruct (indexOf c s =? -1)%Z eqn:E.
    - apply Z.eqb_eq, indexOf_absent in E. exact E.
    - apply Z.eqb_neq, indexOf_present, occurs_iff in E. contradiction. }
  clear H. induction s as [|x s IH]; [reflexivity|].
  destruct Hs as [Hx Hs]. simpl. apply Ascii.eqb_neq in Hx. rewrite Hx.
  rewrite IH by exact Hs. reflexivity.
Qed.

(** A string splits at the first occurrence of [c] in one way only. *)
Lemma first_split_unique (c : ascii) (s1 s2 t1 t2 : string) :
  s1 +:+ String c t1 = s2 +:+ String c t2 ->
  ~ occurs c s1 -> ~ occurs c s2 -> s1 = s2 /\ t1 = t2.
Proof.
  revert s2. induction s1 as [|x s1 IH]; intros [|y s2] E H1 H2.
  - injection E as ->. auto.
  - rewrite app_nil_left, app_cons in E. injection E as <- _.
    exfalso. apply H2. exists "", s2. reflexivity.
  - rewrite app_nil_left, app_cons in E. injection E as -> _.
    exfalso. apply H1. exists "", s1. reflexivity.
  - rewrite !app_cons in E. injection E as -> E.
    destruct (IH s2 E) as [-> ->]; [| |auto].
    + intros (a & b & ->). apply H1. exists (String y a), b. reflexivity.
    + intros (a & b & ->). apply H2. exists (String y a), b. reflexivity.
Qed.

Lemma count_mailto_pair (p : string) : mailto_pair p -> count "&" p = 0.
Proof.
  intros (k & v & -> & Hk & _ & Hv).
  rewrite count_app. change ("=" +:+ v) with (String "=" v). simpl.
  rewrite (count_absent "&" v Hv).
  unfold mailto_keys in Hk. simpl in Hk.
  destruct Hk as [<-|[<-|[<-|[<-|[]]]]]; reflexivity.
Qed.

(** X4: A third query pair is never accepted: with a well-formed address, a
    query that holds two or more ["&"] gives ["invalid query params"]. *)
Theorem mailto_third_pair_rejected (L D query : string) :
  L <> "" -> ~ occurs "@" L ->
  D <> "" -> ~ occurs "?" D ->
  2 <= count "&" query ->
  validMailto ("mailto:" +:+ L +:+ "@" +:+ D +:+ "?" +:+ query)
  = Some "invalid query params".
Proof.
  intros HL1 HL2 HD1 HD2 Hcount.
  destruct (address_passes_prefix_checks L D ("?" +:+ query) HL1 HL2 HD1 HD2)
    as [E1 E2].
  unfold validMailto. rewrite E1, E2. simpl.
  destruct (test re_mailto_full
              ("mailto:" +:+ L +:+ "@" +:+ D +:+ "?" +:+ query)) eqn:E;
    [|reflexivity].
  exfalso. apply test_mailto_full in E
    as (L' & D' & tail & E & HL1' & HL2' & HD1' & HD2' & Htail).
  apply (inj (String.app "mailto:")) in E.
  change ("@" +:+ D +:+ "?" +:+ query) with (String "@" (D +:+ String "?" query)) in E.
  change ("@" +:+ D' +:+ tail) with (String "@" (D' +:+ tail)) in E.
  apply first_split_unique in E as [<- E]; [|assumption|assumption].
  destruct Htail as [->|[(p & -> & Hp)|(p1 & p2 & -> & Hp1 & Hp2)]].
  - rewrite app_nil_right in E. subst D'. apply HD2'. exists D, query. reflexivity.
  - change ("?" +:+ p) with (String "?" p) in E.
    apply first_split_unique in E as [<- ->]; [|assumption|assumption].
    rewrite (count_mailto_pair p Hp) in Hcount. lia.
  - change ("?" +:+ p1 +:+ "&" +:+ p2) with (String "?" (p1 +:+ String "&" p2)) in E.
    apply first_split_unique in E as [<- ->]; [|assumption|assumption].
    rewrite count_app in Hcount. simpl in Hcount.
    rewrite (count_mailto_pair p1 Hp1), (count_mailto_pair p2 Hp2) in Hcount. lia.
Qed.

Lemma mailto_third_pair_rejected_witness :
  validMailto "mailto:a@b?subject=x&cc=y&bcc=z" = Some "invalid query params".
Proof.
  apply (mailto_third_pair_rejected "a" "b" "subject=x&cc=y&bcc=z").
  - discriminate.
  - rewrite <- indexOf_present. vm_compute. tauto.
  - discriminate.
  - rewrite <- indexOf_present. vm_compute. tauto.
  - vm_compute. lia.
Defined.

End MailtoFacts.

(* ================================================================== *)
(** * More on the local resolver *)
(* ================================================================== *)

Module LocalMoreFacts.
Import RegExp RegExpFacts RegExpShapes Local.

(** X5: A document set that grows never breaks a link. *)
Theorem validLocal_monotone (files files' : gset string) (src dest : string) :
  files ⊆ files' ->
  validLocal files src dest = true -> validLocal files' src dest = true.
Proof.
  intros Hsub.
  assert (forall key, PlainObject.in_ key files = true ->
                      PlainObject.in_ key files' = true) as Hin.
  { intros key. unfold PlainObject.in_. rewrite !orb_true_iff, !bool_decide_eq_true.
    intros [H|H]; [left; apply Hsub, H|right; exact H]. }
  unfold validLocal.
  destruct (is_self _); [reflexivity|].
  destruct (is_self _); [reflexivity|].
  destruct (PlainObject.in_ _ files) eqn:E1; [rewrite (Hin _ E1); reflexivity|].
  intros H.
  destruct (PlainObject.in_ (PosixPath.join _) files) eqn:E2; [|discriminate H].
  rewrite (Hin _ E2). destruct (PlainObject.in_ _ files'); reflexivity.
Qed.

Lemma validLocal_monotone_witness :
  validLocal {[ "a/index.html"; "b.html" ]} "b.html" "a" = true.
Proof.
  apply (validLocal_monotone {[ "a/index.html" ]}).
  - set_solver.
  - vm_compute. reflexivity.
Defined.

Lemma replace_to_end_keeps_head (c x : ascii) (s : string) :
  x <> c ->
  replace_to_end (Seq (Atom (Lit c)) (Star (Atom Dot))) (String x s)
  = String x (replace_to_end (Seq (Atom (Lit c)) (Star (Atom Dot))) s).
Proof.
  intros Hne. cbn [replace_to_end].
  destruct (matchb (Seq (Atom (Lit c)) (Star (Atom Dot))) (String x s)) eqn:E;
    [|reflexivity].
  apply LocalFacts.matchb_cut in E as (s' & E & _). congruence.
Qed.

(** X6: A link that starts with a slash is resolved from the root: which
    document holds it makes no difference. *)
Theorem validLocal_root_relative (files : gset string) (src1 src2 rest : string) :
  validLocal files src1 (String "/" rest) = validLocal files src2 (String "/" rest).
Proof.
  unfold validLocal, re_anchor, re_query.
  rewrite (replace_to_end_keeps_head "#" "/") by discriminate.
  rewrite (replace_to_end_keeps_head "?" "/") by discriminate.
  rewrite !LocalFacts.resolve_root. reflexivity.
Qed.

End LocalMoreFacts.

(* ================================================================== *)
(** * From the files to the list of links to check *)
(* ================================================================== *)

Module PipelineFacts.
Import RegExp Pipeline.

(** ** File names *)

Lemma accepts_separator (x : ascii) :
  accepts separator x = true <-> x = "/"%char \/ x = backslash.
Proof.
  unfold separator, accepts, existsb, in_item, backslash.
  rewrite !orb_true_iff, !Ascii.eqb_eq. intuition discriminate.
Qed.

Lemma normalizeFilename_cons (x : ascii) (s : string) :
  normalizeFilename (String x s)
  = String (if accepts separator x then "/"%char else x) (normalizeFilename s).
Proof.
  unfold normalizeFilename. cbn [replace_each].
  destruct (accepts separator x); reflexivity.
Qed.

Lemma normalizeFilename_no_backslash (s : string) :
  every (fun x => x <> backslash) (normalizeFilename s).
Proof.
  induction s as [|x s IH]; [exact I|].
  rewrite normalizeFilename_cons. split; [|exact IH].
  destruct (accepts separator x) eqn:E; [discriminate|].
  intros ->. apply not_true_iff_false in E. apply E, accepts_separator. auto.
Qed.

Lemma normalizeFilename_fixed (s : string) :
  every (fun x => x <> backslash) s -> normalizeFilename s = s.
Proof.
  induction s as [|x s IH]; [reflexivity|]. intros [Hx Hs].
  rewrite normalizeFilename_cons, IH by exact Hs.
  destruct (accepts separator x) eqn:E; [|reflexivity].
  apply accepts_separator in E as [->| ->]; [reflexivity|contradiction].
Qed.

Lemma normalizeFilename_after_replace (sep : ascii) (s : string) :
  sep = "/"%char \/ sep = backslash ->
  normalizeFilename (replace_each separator (String sep "") s)
  = normalizeFilename s.
Proof.
  intros Hsep. induction s as [|x s IH]; [reflexivity|].
  cbn [replace_each]. destruct (accepts separator x) eqn:E.
  - change (String sep "" +:+ replace_each separator (String sep "") s)
      with (String sep (replace_each separator (String sep "") s)).
    rewrite !normalizeFilename_cons, IH, E.
    assert (accepts separator sep = true) as ->
      by (apply accepts_separator; exact Hsep).
    reflexivity.
  - rewrite !normalizeFilename_cons, IH, E. reflexivity.
Qed.

(** X7: Normalising a file name leaves no backslash, changes nothing in a
    name that has none, so normalising twice is normalising once, and
    gives the same name whichever of the two separators the host wrote. *)
Theorem normalizeFilename_canonical (filename : string) :
  ~ occurs backslash (normalizeFilename filename)
  /\ (~ occurs backslash filename -> normalizeFilename filename = filename)
  /\ normalizeFilename (normalizeFilename filename) = normalizeFilename filename
  /\ normalizeFilename (replace_each separator (String backslash "") filename)
     = normalizeFilename filename
  /\ normalizeFilename (replace_each separator "/" filename)
     = normalizeFilename filename.
Proof.
  assert (forall s, ~ occurs backslash s -> every (fun x => x <> backslash) s)
    as Hevery.
  { intros s Hs. destruct (indexOf backslash s =? -1)%Z eqn:E.
    - apply Z.eqb_eq, indexOf_absent in E. exact E.
    - apply Z.eqb_neq, indexOf_present in E. contradiction. }
  split; [|split; [|split; [|split]]].
  - rewrite occurs_iff. intros H. apply H, normalizeFilename_no_backslash.
  - intros H. apply normalizeFilename_fixed, Hevery, H.
  - apply normalizeFilename_fixed, normalizeFilename_no_backslash.
  - apply normalizeFilename_after_replace. auto.
  - apply (normalizeFilename_after_replace "/"). auto.
Qed.

Lemma elem_of_set_true (key k : string) (reducer : gset string) :
  k ∈ set_true key reducer <-> k ∈ reducer \/ (k = key /\ k <> "__proto__").
Proof.
  unfold set_true. destruct (String.eqb_spec key "__proto__") as [->|Hne].
  - tauto.
  - rewrite elem_of_union, elem_of_singleton. split.
    + intros [->|H]; auto.
    + intros [H|[-> _]]; auto.
Qed.

Lemma normalizedFilenames_fold (names : list string) :
  forall (acc : gset string) (k : string),
    k ∈ fold_left (fun reducer filename =>
                     set_true (normalizeFilename filename) reducer)
          names acc
    <-> k ∈ acc
        \/ exists f, f ∈ names /\ k = normalizeFilename f /\ k <> "__proto__".
Proof.
  induction names as [|f names IH]; intros acc k; cbn [fold_left].
  - split; [auto|]. intros [H|(f & Hf & _)]; [exact H|inversion Hf].
  - rewrite IH, elem_of_set_true. split.
    + intros [[H|[-> Hk]]|(g & Hg & -> & Hk)].
      * auto.
      * right. exists f. split; [left|auto].
      * right. exists g. split; [right; exact Hg|auto].
    + intros [H|(g & Hg & -> & Hk)].
      * auto.
      * apply elem_of_cons in Hg as [->|Hg].
        -- left. right. auto.
        -- right. exists g. auto.
Qed.

(** The own keys of the document set: the normalised names, but for
    ["__proto__"]. *)
Lemma elem_of_normalizedFilenames (names : list string) (k : string) :
  k ∈ normalizedFilenames names
  <-> exists f, f ∈ names /\ k = normalizeFilename f /\ k <> "__proto__".
Proof.
  unfold normalizedFilenames. rewrite normalizedFilenames_fold.
  split; [|auto]. intros [H|H]; [|exact H]. apply not_elem_of_empty in H. destruct H.
Qed.

(** X8: The document set does not depend on the separator the host used in
    the file names: rewriting every separator of every name to one of
    the two gives the same set. *)
Theorem normalizedFilenames_any_separator (sep : ascii) (names : list string) :
  sep = "/"%char \/ sep = backslash ->
  normalizedFilenames (map (replace_each separator (String sep "")) names)
  = normalizedFilenames names.
Proof.
  intros Hsep. apply set_eq. intros k. rewrite !elem_of_normalizedFilenames.
  split.
  - intros (f & Hf & -> & Hk). apply list_elem_of_fmap in Hf as (g & -> & Hg).
    rewrite (normalizeFilename_after_replace sep g Hsep) in Hk |- *.
    exists g. auto.
  - intros (f & Hf & -> & Hk). exists (replace_each separator (String sep "") f).
    rewrite (normalizeFilename_after_replace sep f Hsep).
    split; [apply list_elem_of_fmap; eauto|auto].
Qed.

Lemma normalizedFilenames_any_separator_witness :
  normalizedFilenames
    (map (replace_each separator (String backslash "")) ["a/b.html"; "index.html"])
  = normalizedFilenames ["a/b.html"; "index.html"].
Proof.
  apply (normalizedFilenames_any_separator backslash). right. reflexivity.
Defined.

End PipelineFacts.

Module DuplicateFacts.
Import Pipeline.

(** ** [JSON.stringify] tells occurrences apart *)

Lemma head_decode_escape (x : ascii) (rest : string) :
  head_decode (json_escape x +:+ rest) = Some x.
Proof.
  destruct x as [b0 b1 b2 b3 b4 b5 b6 b7];
    destruct b0, b1, b2, b3, b4, b5, b6, b7; reflexivity.
Qed.

Lemma json_escape_not_quote (x : ascii) (rest r : string) :
  json_escape x +:+ rest <> String quote r.
Proof.
  intros E. pose proof (head_decode_escape x rest) as H. rewrite E in H.
  injection H as <-. vm_compute in E. discriminate E.
Qed.

Lemma json_escape_all_inj (s1 : string) :
  forall s2 r1 r2,
    json_escape_all s1 +:+ String quote r1 = json_escape_all s2 +:+ String quote r2 ->
    s1 = s2 /\ r1 = r2.
Proof.
  induction s1 as [|x s1 IH]; intros [|y s2] r1 r2 E; cbn [json_escape_all] in E.
  - rewrite !app_nil_left in E. injection E as ->. auto.
  - rewrite app_nil_left, app_assoc_str in E. symmetry in E.
    destruct (json_escape_not_quote _ _ _ E).
  - rewrite app_nil_left, app_assoc_str in E.
    destruct (json_escape_not_quote _ _ _ E).
  - rewrite !app_assoc_str in E.
    assert (x = y) as <-.
    { pose proof (head_decode_escape x (json_escape_all s1 +:+ String quote r1)) as H.
      rewrite E, head_decode_escape in H. congruence. }
    apply (inj (String.app (json_escape x))) in E.
    destruct (IH _ _ _ E) as [-> ->]. auto.
Qed.

Lemma json_string_inj (a b r1 r2 : string) :
  json_string a +:+ r1 = json_string b +:+ r2 -> a = b /\ r1 = r2.
Proof.
  unfold json_string. rewrite !app_cons, !app_assoc_str.
  intros E. injection E as E. apply json_escape_all_inj in E. exact E.
Qed.

(** Two occurrences have the same JSON text only if they are the same
    occurrence. *)
Lemma stringVersion_inj (v w : occurrence) :
  stringVersion v = stringVersion w -> v = w.
Proof.
  destruct v as [f l], w as [f' l']. unfold stringVersion. cbn [filename link].
  intros E.
  apply (inj (String.app "{")), (inj (String.app (json_string "filename"))),
        (inj (String.app ":")), json_string_inj in E as [-> E].
  apply (inj (String.app ",")), (inj (String.app (json_string "link"))),
        (inj (String.app ":")), json_string_inj in E as [-> _].
  reflexivity.
Qed.

(** ** The duplicate filter *)

Lemma elem_of_first_occurrences (l : list occurrence) (v : occurrence) :
  v ∈ first_occurrences l <-> v ∈ l.
Proof.
  induction l as [|x rest IH]; [reflexivity|]. cbn [first_occurrences].
  rewrite !elem_of_cons, list_elem_of_filter, IH.
  destruct (decide (v = x)); tauto.
Qed.

Lemma NoDup_first_occurrences (l : list occurrence) : NoDup (first_occurrences l).
Proof.
  induction l as [|x rest IH]; [constructor|]. cbn [first_occurrences].
  constructor; [|apply NoDup_filter; exact IH].
  rewrite list_elem_of_filter. tauto.
Qed.

Lemma withoutDuplicates_seen (l : list occurrence) :
  forall seen,
    withoutDuplicates seen l
    = filter (fun v => stringVersion v ∉ seen) (first_occurrences l).
Proof.
  induction l as [|x rest IH]; intros seen; [reflexivity|].
  cbn [withoutDuplicates first_occurrences]. rewrite filter_cons.
  case_bool_decide as Hx.
  - rewrite decide_False by tauto.
    rewrite IH, list_filter_filter. apply list_filter_iff.
    intros v. split; [|tauto]. intros Hv. split; [exact Hv|].
    intros ->. contradiction.
  - rewrite decide_True by exact Hx. f_equal.
    rewrite IH, list_filter_filter. apply list_filter_iff.
    intros v. rewrite not_elem_of_union, not_elem_of_singleton. split.
    + intros [Hne Hv]. split; [exact Hv|]. intros ->. contradiction.
    + intros [Hv Hne]. split; [|exact Hv].
      intros E. apply Hne, stringVersion_inj, E.
Qed.

Lemma withoutDuplicates_first_occurrences (found : list occurrence) :
  withoutDuplicates ∅ found = first_occurrences found.
Proof.
  rewrite withoutDuplicates_seen.
  induction (first_occurrences found) as [|x rest IH]; [reflexivity|].
  rewrite filter_cons_True by apply not_elem_of_empty.
  f_equal. exact IH.
Qed.

(** X9: The duplicate filter keeps of every occurrence the first copy and
    drops the later ones, in the original order: the list it returns has
    no repetition and the same members as the list it is given. *)
Theorem withoutDuplicates_keeps_first (found : list occurrence) :
  withoutDuplicates ∅ found = first_occurrences found
  /\ NoDup (withoutDuplicates ∅ found)
  /\ (forall v, v ∈ withoutDuplicates ∅ found <-> v ∈ found).
Proof.
  rewrite withoutDuplicates_first_occurrences.
  split; [reflexivity|]. split; [apply NoDup_first_occurrences|].
  apply elem_of_first_occurrences.
Qed.

(** ** The ignore filter *)

Lemma ignored_false (ignore : list (string -> bool)) (v : occurrence) :
  ignored ignore v = false <-> forall re, In re ignore -> re (link v) = false.
Proof.
  unfold ignored. split.
  - intros H re Hre. destruct (re (link v)) eqn:E; [|reflexivity].
    assert (existsb (fun re => re (link v)) ignore = true) as H'
      by (apply existsb_exists; eauto).
    rewrite H' in H. discriminate H.
  - intros H. destruct (existsb _ ignore) eqn:E; [|reflexivity].
    apply existsb_exists in E as (re & Hre & E). rewrite (H re Hre) in E.
    discriminate E.
Qed.

(** X10: The links handed on to validation are the occurrences found, without
    repetition, that no ignore pattern matches: an ignored link is never
    validated, every other occurrence is validated once. *)
Theorem linksToCheck_members (ignore : list (string -> bool))
    (found : list occurrence) :
  NoDup (linksToCheck ignore found)
  /\ (forall v, v ∈ linksToCheck ignore found <->
                v ∈ found /\ forall re, In re ignore -> re (link v) = false)
  /\ linksToCheck [] found = first_occurrences found.
Proof.
  unfold linksToCheck, withoutIgnored.
  rewrite !withoutDuplicates_first_occurrences. split; [|split].
  - apply NoDup_ListNoDup, List.NoDup_filter, NoDup_ListNoDup.
    apply NoDup_first_occurrences.
  - intros v. rewrite list_elem_of_In, filter_In, <- list_elem_of_In.
    rewrite elem_of_first_occurrences, negb_true_iff, ignored_false.
    reflexivity.
  - apply forallb_filter_id. apply forallb_forall. reflexivity.
Qed.

End DuplicateFacts.

(* ================================================================== *)
(** * More on the network validator *)
(* ================================================================== *)

(** As in [Network], every request is answered once: by a response or
    by an error. *)

Module ValidationFacts.
Import Network NetworkFacts.

Section AnyNetwork.

Context `{URL}.

Variable net : network.
Variable o : options.
Variable c : callback_id.
Variable l : string.

Hypothesis Haccepted : requestable l.

Lemma tick_GET (a : nat) (cache : gmap string verdict) (hist : list event) :
  tick net (State cache [Probe l o c a GET] [] hist)
  = Some (cacheAndCallback (Probe l o c a GET)
            (diagnostic (net (Probe l o c a GET))) (State cache [] [] hist)).
Proof.
  unfold tick. cbn [inflight]. f_equal.
  apply deliver_no_fallback. left. reflexivity.
Qed.

Lemma tick_timer (p : probe) (d : Z) (cache : gmap string verdict)
    (hist : list event) :
  cache !! link p = None -> requestable (link p) ->
  tick net (State cache [] [(d, p)] hist)
  = Some (State cache [p] [] (hist ++ [Sent p])).
Proof.
  intros Hc Hr. unfold tick. cbn [inflight timers]. f_equal.
  rewrite validUrl_miss by assumption. reflexivity.
Qed.

Lemma tick_HEAD_fallback (a : nat) (cache : gmap string verdict)
    (hist : list event) :
  cache !! l = None ->
  deliver (Probe l o c a HEAD) (net (Probe l o c a HEAD)) (State cache [] [] hist)
  = validUrl (as_GET (Probe l o c a HEAD)) (State cache [] [] hist) ->
  tick net (State cache [Probe l o c a HEAD] [] hist)
  = Some (State cache [Probe l o c a GET] []
            (hist ++ [Sent (Probe l o c a GET)])).
Proof.
  intros Hc E. unfold tick. cbn [inflight]. f_equal.
  change (with_inflight [] (State cache [Probe l o c a HEAD] [] hist))
    with (State cache [] [] hist).
  rewrite E, validUrl_miss by assumption. reflexivity.
Qed.

Lemma tick_HEAD_failure (a : nat) (cache : gmap string verdict)
    (hist : list event) :
  deliver (Probe l o c a HEAD) (net (Probe l o c a HEAD)) (State cache [] [] hist)
  = cacheAndCallback (Probe l o c a HEAD)
      (diagnostic (net (Probe l o c a HEAD))) (State cache [] [] hist) ->
  tick net (State cache [Probe l o c a HEAD] [] hist)
  = Some (cacheAndCallback (Probe l o c a HEAD)
            (diagnostic (net (Probe l o c a HEAD))) (State cache [] [] hist)).
Proof. intros E. unfold tick. cbn [inflight]. f_equal. exact E. Qed.

(** From the GET request of attempt [a] on, with [n] retries left. *)
Lemma run_GET (n : nat) :
  forall a cache hist f,
    a + n = attempts o + 1 ->
    cache !! l = None ->
    2 * n + 1 <= f ->
    exists h v k,
      settle net f (State cache [Probe l o c a GET] [] hist)
      = State (<[l := v]> cache) [] [] (hist ++ h)
      /\ delays_of h = map retry_delay (seq a k)
      /\ calls_of h = [(c, v)]
      /\ k <= n
      /\ (truthy v = true -> k = n)
      /\ (exists m', v = diagnostic (net (Probe l o c (a + k) m')))
      /\ length (sent_of h) <= 2 * k.
Proof.
  induction n as [|n IH]; intros a cache hist f Ha Hc Hf;
    (destruct f as [|f]; [lia|]);
    rewrite (settle_tick net f _ _ (tick_GET a cache hist));
    destruct (cacheAndCallback_cases (Probe l o c a GET)
                (diagnostic (net (Probe l o c a GET))) (State cache [] [] hist))
      as [(Htr & Hle & ->)|(Hfin & ->)].
  - simpl in Hle. lia.
  - rewrite settle_quiescent by (split; reflexivity).
    exists [Called c (diagnostic (net (Probe l o c a GET)))],
           (diagnostic (net (Probe l o c a GET))), 0.
    rewrite Nat.add_0_r. simpl.
    repeat split; eauto.
  - destruct f as [|f]; [lia|].
    unfold setTimeout, retry_of. cbn [callback link attempt method opts
      validUrlCache inflight timers history app].
    rewrite (settle_tick net f _ _
               (tick_timer (Probe l o c (a + 1) GET) _ _ _ Hc Haccepted)).
    rewrite Nat.add_1_r.
    destruct (IH (S a) cache
                ((hist ++ [Scheduled (retry_delay a) (Probe l o c (S a) GET)])
                   ++ [Sent (Probe l o c (S a) GET)])
                f ltac:(lia) Hc ltac:(lia))
      as (h & v & k & E & Hdel & Hcalls & Hk & Hlast & (m' & Hv) & Hsent).
    exists ([Scheduled (retry_delay a) (Probe l o c (S a) GET);
             Sent (Probe l o c (S a) GET)] ++ h), v, (S k).
    rewrite E. rewrite <- !app_assoc.
    cbn [app delays_of calls_of sent_of omap list_omap map seq length].
    fold (delays_of h). fold (calls_of h). fold (sent_of h).
    split; [reflexivity|]. split; [f_equal; exact Hdel|].
    split; [exact Hcalls|]. split; [lia|].
    split; [intros Hv'; f_equal; exact (Hlast Hv')|].
    split; [exists m'; rewrite Nat.add_succ_r; exact Hv|].
    simpl. lia.
  - rewrite settle_quiescent by (split; reflexivity).
    exists [Called c (diagnostic (net (Probe l o c a GET)))],
           (diagnostic (net (Probe l o c a GET))), 0.
    rewrite Nat.add_0_r. simpl.
    destruct Hfin as [Hfin|Hfin]; [|simpl in Hfin; lia].
    repeat split; eauto; try lia.
    intros Htr. rewrite Hfin in Htr. discriminate Htr.
Qed.

(** From the HEAD request of attempt [a] on, with [n] retries left. *)
Lemma run_HEAD (n : nat) :
  forall a cache hist f,
    a + n = attempts o + 1 ->
    cache !! l = None ->
    2 * n + 2 <= f ->
    exists h v k,
      settle net f (State cache [Probe l o c a HEAD] [] hist)
      = State (<[l := v]> cache) [] [] (hist ++ h)
      /\ delays_of h = map retry_delay (seq a k)
      /\ calls_of h = [(c, v)]
      /\ k <= n
      /\ (truthy v = true -> k = n)
      /\ (exists m', v = diagnostic (net (Probe l o c (a + k) m')))
      /\ length (sent_of h) <= 2 * k + 1.
Proof.
  induction n as [|n IH]; intros a cache hist f Ha Hc Hf;
    (destruct f as [|f]; [lia|]);
    (destruct (deliver_cases (Probe l o c a HEAD) (net (Probe l o c a HEAD))
                 (State cache [] [] hist)) as [(_ & _ & E)|(_ & E)];
     [ rewrite (settle_tick net f _ _
                  (tick_HEAD_fallback a cache hist Hc E));
       destruct (run_GET _ a cache (hist ++ [Sent (Probe l o c a GET)]) f
                   Ha Hc ltac:(lia))
         as (h & v & k & E' & Hdel & Hcalls & Hk & Hlast & Hv & Hsent);
       exists ([Sent (Probe l o c a GET)] ++ h), v, k;
       rewrite E', <- app_assoc;
       cbn [app delays_of calls_of sent_of omap list_omap length];
       fold (delays_of h); fold (calls_of h); fold (sent_of h);
       repeat split; try assumption; simpl; lia
     | rewrite (settle_tick net f _ _
                  (tick_HEAD_failure a cache hist E));
       destruct (cacheAndCallback_cases (Probe l o c a HEAD)
                   (diagnostic (net (Probe l o c a HEAD)))
                   (State cache [] [] hist))
         as [(Htr & Hle & ->)|(Hfin & ->)] ]).
  - simpl in Hle. lia.
  - rewrite settle_quiescent by (split; reflexivity).
    exists [Called c (diagnostic (net (Probe l o c a HEAD)))],
           (diagnostic (net (Probe l o c a HEAD))), 0.
    rewrite Nat.add_0_r. simpl.
    repeat split; eauto.
  - destruct f as [|f]; [lia|].
    unfold setTimeout, retry_of. cbn [callback link attempt method opts
      validUrlCache inflight timers history app].
    rewrite (settle_tick net f _ _
               (tick_timer (Probe l o c (a + 1) HEAD) _ _ _ Hc Haccepted)).
    rewrite Nat.add_1_r.
    destruct (IH (S a) cache
                ((hist ++ [Scheduled (retry_delay a) (Probe l o c (S a) HEAD)])
                   ++ [Sent (Probe l o c (S a) HEAD)])
                f ltac:(lia) Hc ltac:(lia))
      as (h & v & k & E' & Hdel & Hcalls & Hk & Hlast & (m' & Hv) & Hsent).
    exists ([Scheduled (retry_delay a) (Probe l o c (S a) HEAD);
             Sent (Probe l o c (S a) HEAD)] ++ h), v, (S k).
    rewrite E'. rewrite <- !app_assoc.
    cbn [app delays_of calls_of sent_of omap list_omap map seq length].
    fold (delays_of h). fold (calls_of h). fold (sent_of h).
    split; [reflexivity|]. split; [f_equal; exact Hdel|].
    split; [exact Hcalls|]. split; [lia|].
    split; [intros Hv'; f_equal; exact (Hlast Hv')|].
    split; [exists m'; rewrite Nat.add_succ_r; exact Hv|].
    simpl. lia.
  - rewrite settle_quiescent by (split; reflexivity).
    exists [Called c (diagnostic (net (Probe l o c a HEAD)))],
           (diagnostic (net (Probe l o c a HEAD))), 0.
    rewrite Nat.add_0_r. simpl.
    destruct Hfin as [Hfin|Hfin]; [|simpl in Hfin; lia].
    repeat split; eauto; try lia.
    intros Htr. rewrite Hfin in Htr. discriminate Htr.
Qed.

End AnyNetwork.

Section Node.

Context `{URL}.

(** X11: Whatever the network answers, a validation that starts with
    its URL uncached and nothing else outstanding comes to rest.  When
    the library accepts the link, that is after [k] retries,
    [k <= attempts]: the validation has waited
    [min(1000, 100 * 2^i)] ms before the [i]-th retry, sent at most two
    requests per attempt, called its callback once, with the verdict of
    attempt [k + 1], and cached that verdict; a success ends the
    validation at once, and a failure is only reported when all
    [attempts] retries are used up.  When the library refuses the link,
    the validation throws: nothing is sent, called or cached.  (A link
    that is the name of a property the cache inherits, which no URL is,
    counts as cached: the callback is handed that property at once.) *)
Theorem validation_alone_any_network (net : network) (o : options)
    (c : callback_id) (l : string) (s : state) :
  validUrlCache s !! l = None ->
  inflight s = [] -> timers s = [] ->
  let s' := settle_all net (start o c l s) in
  (requestable l ->
   exists v k,
     quiescent s'
     /\ k <= attempts o
     /\ (truthy v = true -> k = attempts o)
     /\ (exists m, v = diagnostic (net (Probe l o c (k + 1) m)))
     /\ delays_of (news s s')
        = map (fun i => Z.min 1000 (100 * 2 ^ Z.of_nat i)) (seq 1 k)
     /\ length (sent_of (news s s')) <= 2 * (k + 1)
     /\ calls_of (news s s') = [(c, v)]
     /\ validUrlCache s' = <[l := v]> (validUrlCache s))
  /\ (~ requestable l -> PlainObject.inherited l = false ->
      s' = throw (Probe l o c 1 HEAD) s
      /\ news s s' = [Threw (Probe l o c 1 HEAD)])
  /\ (PlainObject.inherited l = true ->
      s' = call_inherited c l s
      /\ news s s' = [CalledWithInherited c l]).
Proof.
  intros Hc Hi Ht s'.
  destruct s as [cache infl tim hist]. simpl in Hc, Hi, Ht. subst infl tim.
  split; [|split].
  - intros Hr.
    assert (start o c l (State cache [] [] hist)
            = State cache [Probe l o c 1 HEAD] []
                (hist ++ [Sent (Probe l o c 1 HEAD)])) as Estart.
    { unfold start. rewrite validUrl_miss by assumption. reflexivity. }
    destruct (run_HEAD net o c l Hr (attempts o) 1 cache
                (hist ++ [Sent (Probe l o c 1 HEAD)])
                (turns (start o c l (State cache [] [] hist))))
      as (h & v & k & E & Hdel & Hcalls & Hk & Hlast & (m & Hv) & Hsent);
      [lia|exact Hc| |].
    { rewrite Estart. unfold turns, turns_of_request. simpl. lia. }
    exists v, k. subst s'. unfold settle_all. rewrite Estart in E |- *.
    rewrite E.
    rewrite (news_app (State cache [] [] hist) _
               ([Sent (Probe l o c 1 HEAD)] ++ h))
      by (simpl; rewrite <- app_assoc; reflexivity).
    cbn [app delays_of calls_of sent_of omap list_omap validUrlCache length].
    fold (delays_of h). fold (calls_of h). fold (sent_of h).
    split; [split; reflexivity|]. split; [exact Hk|]. split; [exact Hlast|].
    split; [exists m; rewrite Nat.add_comm; exact Hv|].
    split; [exact Hdel|]. split; [simpl; lia|].
    split; [exact Hcalls|reflexivity].
  - intros Hr Hown.
    assert (start o c l (State cache [] [] hist)
            = throw (Probe l o c 1 HEAD) (State cache [] [] hist)) as Estart.
    { unfold start. rewrite validUrl_refused by assumption. reflexivity. }
    assert (s' = throw (Probe l o c 1 HEAD) (State cache [] [] hist)) as ->.
    { subst s'. unfold settle_all. rewrite Estart.
      apply settle_quiescent. split; reflexivity. }
    split; [reflexivity|]. apply news_app. reflexivity.
  - intros Hinh.
    assert (start o c l (State cache [] [] hist)
            = call_inherited c l (State cache [] [] hist)) as Estart.
    { unfold start. rewrite validUrl_inherited by assumption. reflexivity. }
    assert (s' = call_inherited c l (State cache [] [] hist)) as ->.
    { subst s'. unfold settle_all. rewrite Estart.
      apply settle_quiescent. split; reflexivity. }
    split; [reflexivity|]. apply news_app. reflexivity.
Qed.

End Node.

(** ** No callback is lost, none is called twice *)

Section Callbacks.

Context `{URL}.

Variable c : callback_id.

Lemma length_filter_snoc {A : Type} (P : A -> Prop) `{forall x, Decision (P x)}
    (xs : list A) (x : A) :
  length (filter P (xs ++ [x]))
  = length (filter P xs) + (if decide (P x) then 1 else 0).
Proof.
  rewrite filter_app, length_app, filter_cons, filter_nil.
  destruct (decide (P x)); reflexivity.
Qed.

Lemma length_filter_middle {A : Type} (P : A -> Prop) `{forall x, Decision (P x)}
    (xs ys : list A) (x : A) :
  length (filter P (xs ++ x :: ys))
  = length (filter P (xs ++ ys)) + (if decide (P x) then 1 else 0).
Proof.
  rewrite !filter_app, !length_app, filter_cons.
  destruct (decide (P x)); simpl; lia.
Qed.

Lemma accounts_call (c' : callback_id) (r : verdict) (s : state) :
  answered c (call c' r s) + owed c (call c' r s)
  = answered c s + owed c s + (if decide (c' = c) then 1 else 0).
Proof.
  unfold answered, owed, call, called_of. cbn [history inflight timers].
  rewrite omap_app. cbn [omap list_omap]. rewrite length_filter_snoc.
  cbn [fst]. lia.
Qed.

Lemma accounts_call_inherited (c' : callback_id) (key : string) (s : state) :
  answered c (call_inherited c' key s) + owed c (call_inherited c' key s)
  = answered c s + owed c s + (if decide (c' = c) then 1 else 0).
Proof.
  unfold answered, owed, call_inherited, called_of.
  cbn [history inflight timers].
  rewrite omap_app. cbn [omap list_omap]. rewrite length_filter_snoc.
  lia.
Qed.

Lemma accounts_request (p : probe) (s : state) :
  answered c (request p s) + owed c (request p s)
  = answered c s + owed c s + due c p.
Proof.
  unfold answered, owed, request, called_of, due. cbn [history inflight timers].
  rewrite omap_app. cbn [omap list_omap]. rewrite app_nil_r, length_filter_snoc.
  lia.
Qed.

Lemma accounts_throw (p : probe) (s : state) :
  answered c (throw p s) + owed c (throw p s) = answered c s + owed c s.
Proof.
  unfold answered, owed, throw, called_of. cbn [history inflight timers].
  rewrite omap_app. cbn [omap list_omap]. rewrite app_nil_r. reflexivity.
Qed.

Lemma accounts_setTimeout (d : Z) (p : probe) (s : state) :
  answered c (setTimeout d p s) + owed c (setTimeout d p s)
  = answered c s + owed c s + due c p.
Proof.
  unfold answered, owed, setTimeout, called_of, due.
  cbn [history inflight timers].
  rewrite omap_app. cbn [omap list_omap]. rewrite app_nil_r, length_filter_snoc.
  cbn [snd]. lia.
Qed.

Lemma accounts_validUrl (p : probe) (s : state) :
  requestable (link p) ->
  answered c (validUrl p s) + owed c (validUrl p s)
  = answered c s + owed c s + due c p.
Proof.
  intros Hr.
  destruct (validUrl_cases p s)
    as [(r & _ & ->)|[(_ & _ & ->)|[(_ & Hn & _)|(_ & Hn & _)]]].
  - apply accounts_call.
  - apply accounts_request.
  - contradiction.
  - contradiction.
Qed.

Lemma accounts_cacheAndCallback (p : probe) (r : verdict) (s : state) :
  answered c (cacheAndCallback p r s) + owed c (cacheAndCallback p r s)
  = answered c s + owed c s + due c p.
Proof.
  destruct (cacheAndCallback_cases p r s) as [(_ & _ & ->)|(_ & ->)].
  - rewrite accounts_setTimeout. reflexivity.
  - rewrite accounts_call. reflexivity.
Qed.

Lemma accounts_deliver (p : probe) (r : reply) (s : state) :
  requestable (link p) ->
  answered c (deliver p r s) + owed c (deliver p r s)
  = answered c s + owed c s + due c p.
Proof.
  intros Hr. destruct (deliver_cases p r s) as [(_ & _ & ->)|(_ & ->)].
  - rewrite accounts_validUrl by exact Hr. reflexivity.
  - apply accounts_cacheAndCallback.
Qed.

Lemma accounts_reply (s : state) (earlier later : list probe) (p : probe)
    (r : reply) :
  inflight s = earlier ++ p :: later ->
  requestable (link p) ->
  answered c (deliver p r (with_inflight (earlier ++ later) s))
  + owed c (deliver p r (with_inflight (earlier ++ later) s))
  = answered c s + owed c s.
Proof.
  intros E Hr. rewrite accounts_deliver by exact Hr.
  unfold answered, owed, with_inflight, due. cbn [history inflight timers].
  rewrite E, length_filter_middle. lia.
Qed.

Lemma accounts_timer (s : state) (earlier later : list (Z * probe)) (d : Z)
    (p : probe) :
  timers s = earlier ++ (d, p) :: later ->
  requestable (link p) ->
  answered c (validUrl p (with_timers (earlier ++ later) s))
  + owed c (validUrl p (with_timers (earlier ++ later) s))
  = answered c s + owed c s.
Proof.
  intros E Hr. rewrite accounts_validUrl by exact Hr.
  unfold answered, owed, with_timers, due. cbn [history inflight timers].
  rewrite E, length_filter_middle. cbn [snd]. lia.
Qed.

Lemma tick_step (net : network) (s s' : state) :
  tick net s = Some s' -> step s s'.
Proof. apply tick_step_in. intros p. exact I. Qed.

Lemma accounts_tick (net : network) (s s' : state) :
  outstanding_accepted s ->
  tick net s = Some s' ->
  answered c s' + owed c s' = answered c s + owed c s.
Proof.
  intros Hacc. unfold tick. destruct (inflight s) as [|p rest] eqn:Ei.
  - destruct (timers s) as [|[d p] rest] eqn:Et; [discriminate|].
    intros E. injection E as <-.
    apply (accounts_timer s [] rest d p Et).
    exact (proj1 (accepted_without_timer s [] rest d p Et Hacc)).
  - intros E. injection E as <-.
    apply (accounts_reply s [] rest p (net p) Ei).
    exact (proj1 (accepted_without_request s [] rest p Ei Hacc)).
Qed.

Lemma accounts_settle (net : network) (f : nat) :
  forall s,
    outstanding_accepted s ->
    answered c (settle net f s) + owed c (settle net f s)
    = answered c s + owed c s.
Proof.
  induction f as [|f IH]; intros s Hacc; [reflexivity|]. simpl.
  destruct (tick net s) as [s'|] eqn:E; [|reflexivity].
  rewrite IH by exact (step_accepted s s' (tick_step net s s' E) Hacc).
  exact (accounts_tick net s s' Hacc E).
Qed.

Lemma answered_validUrl (p : probe) (s : state) :
  answered c s <= answered c (validUrl p s).
Proof.
  destruct (validUrl_cases p s)
    as [(r & _ & ->)|[(_ & _ & ->)|[(_ & _ & ->)|(_ & _ & ->)]]];
    unfold answered, call, request, throw, call_inherited, called_of;
    cbn [history];
    rewrite omap_app; cbn [omap list_omap];
    rewrite ?length_filter_snoc, ?app_nil_r; lia.
Qed.

Lemma answered_cacheAndCallback (p : probe) (r : verdict) (s : state) :
  answered c s <= answered c (cacheAndCallback p r s).
Proof.
  destruct (cacheAndCallback_cases p r s) as [(_ & _ & ->)|(_ & ->)];
    unfold answered, call, store, setTimeout, called_of; cbn [history];
    rewrite omap_app; cbn [omap list_omap];
    rewrite ?length_filter_snoc, ?app_nil_r; lia.
Qed.

End Callbacks.

Section Accounts.

Context `{URL}.

(** X12: In a state whose outstanding requests and timers are for links
    that the library has accepted, as they are in every state the module
    can reach, every turn of the event loop keeps, for every callback,
    the number of times it has been called plus the number of requests
    and timers that will still call it: a reply or an expired timer
    moves one unit from the second to the first or leaves both alone,
    and only starting a validation adds one.  No turn drops a callback
    and none calls it twice. *)
Theorem step_accounts_for_callbacks (s s' : state) (c : callback_id) :
  step s s' ->
  outstanding_accepted s ->
  answered c s <= answered c s'
  /\ (answered c s' + owed c s' = answered c s + owed c s
      \/ (exists o l, s' = start o c l s)
         /\ answered c s' + owed c s' = S (answered c s + owed c s)).
Proof.
  intros Hstep Hacc. split.
  - destruct Hstep as [s0 o c' l0|s0 earlier p later r _ _|s0 earlier d p later _].
    + apply answered_validUrl.
    + destruct (deliver_cases p r (with_inflight (earlier ++ later) s0))
        as [(_ & _ & ->)|(_ & ->)].
      * apply (answered_validUrl c _ (with_inflight _ s0)).
      * apply (answered_cacheAndCallback c _ _ (with_inflight _ s0)).
    + apply (answered_validUrl c _ (with_timers _ s0)).
  - destruct Hstep as [s0 o c' l0|s0 earlier p later r Hi _|s0 earlier d p later Ht].
    + unfold start.
      destruct (validUrl_cases (Probe l0 o c' 1 HEAD) s0)
        as [(r & _ & E)|[(_ & _ & E)|[(_ & _ & E)|(_ & _ & E)]]]; rewrite E.
      * rewrite accounts_call. cbn [callback].
        destruct (decide (c' = c)) as [->|Hne]; [right|left; lia].
        split; [exists o, l0; unfold start; rewrite E; reflexivity|lia].
      * rewrite accounts_request. unfold due. cbn [callback].
        destruct (decide (c' = c)) as [->|Hne]; [right|left; lia].
        split; [exists o, l0; unfold start; rewrite E; reflexivity|lia].
      * left. apply accounts_throw.
      * rewrite accounts_call_inherited. cbn [callback].
        destruct (decide (c' = c)) as [->|Hne]; [right|left; lia].
        split; [exists o, l0; unfold start; rewrite E; reflexivity|lia].
    + left. apply accounts_reply; [exact Hi|].
      exact (proj1 (accepted_without_request s0 earlier later p Hi Hacc)).
    + left. apply (accounts_timer c s0 earlier later d p Ht).
      exact (proj1 (accepted_without_timer s0 earlier later d p Ht Hacc)).
Qed.

(** X13: Whatever the network answers, when the event loop has come to
    rest every outstanding validation has called its callback exactly
    once: from a state whose outstanding requests and timers are for
    links that the library has accepted, as they are in every state the
    module can reach, each callback has been called once more for every
    request and timer that was waiting for it, and nothing waits any
    longer. *)
Theorem every_validation_answered_once (net : network) (s : state)
    (c : callback_id) :
  outstanding_accepted s ->
  answered c (settle_all net s) = answered c s + owed c s
  /\ owed c (settle_all net s) = 0.
Proof.
  intros Hacc. pose proof (accounts_settle c net (turns s) s Hacc) as Hsum.
  fold (settle_all net s) in Hsum.
  destruct (settle_all_quiescent net s) as [Hi Ht].
  assert (owed c (settle_all net s) = 0) as H0
    by (unfold owed; rewrite Hi, Ht; reflexivity).
  split; [lia|exact H0].
Qed.

End Accounts.

(** ** On the sample links *)

#[local] Existing Instance Samples.node_on_samples.

Lemma validation_alone_any_network_witness :
  exists v k,
    let s' := settle_all (fun _ => Response 200)
                (start Samples.example_options (Callback 1 0)
                   Samples.example_url module_init) in
    quiescent s'
    /\ k <= 3
    /\ calls_of (news module_init s') = [(Callback 1 0, v)]
    /\ validUrlCache s' = <[Samples.example_url := v]> ∅.
Proof.
  destruct (validation_alone_any_network (fun _ => Response 200)
              Samples.example_options (Callback 1 0) Samples.example_url
              module_init) as [Haccepted _];
    [reflexivity|reflexivity|reflexivity|].
  destruct Haccepted as (v & k & Hq & Hk & _ & _ & _ & _ & Hcalls & Hcache);
    [reflexivity|].
  exists v, k. split; [exact Hq|]. split; [exact Hk|].
  split; [exact Hcalls|exact Hcache].
Defined.

(** A link to the same host with the scheme in capitals: the parser
    answers [https:], the first five characters are not ["https"], the
    request goes to [http], and [http.request] throws. *)
Lemma capital_scheme_throws :
  protocol_of Samples.capital_url = Some "https:"
  /\ library_of Samples.capital_url = http
  /\ start Samples.example_options (Callback 1 0) Samples.capital_url module_init
     = throw (Probe Samples.capital_url Samples.example_options (Callback 1 0)
                1 HEAD) module_init.
Proof. repeat split; vm_compute; reflexivity. Qed.

Lemma step_accounts_for_callbacks_witness :
  answered (Callback 1 0) module_init
  <= answered (Callback 1 0)
       (start Samples.example_options (Callback 1 0) Samples.example_url
          module_init)
  /\ owed (Callback 1 0)
       (start Samples.example_options (Callback 1 0) Samples.example_url
          module_init) = 1.
Proof.
  destruct (step_accounts_for_callbacks module_init
              (start Samples.example_options (Callback 1 0) Samples.example_url
                 module_init)
              (Callback 1 0)) as [Hle _].
  - apply step_start.
  - split; constructor.
  - split; [exact Hle|reflexivity].
Defined.

Lemma every_validation_answered_once_witness :
  answered (Callback 1 1) (settle_all Samples.always_503 Samples.racing_state)
  = 1
  /\ owed (Callback 1 1) (settle_all Samples.always_503 Samples.racing_state)
     = 0.
Proof.
  destruct (every_validation_answered_once Samples.always_503
              Samples.racing_state (Callback 1 1)) as [Hsum Hzero].
  - split; repeat constructor; reflexivity.
  - split; [rewrite Hsum; reflexivity|exact Hzero].
Defined.


End ValidationFacts.

(** ** What holds in every reachable state *)

Module InvariantFacts.
Import Network NetworkFacts.

Section Node.

Context `{URL}.

(** X14: In every state the module can reach, under any schedule and any
    network: no request goes beyond attempt [attempts + 1] of its plugin
    instance; every timer is the wait before a retry, attempt [a]
    between 2 and [attempts + 1] waiting [min(1000, 100 * 2^(a - 1))]
    ms, which lies between 200 and 1000; and every outstanding request
    and timer is on record. *)
Theorem reachable_within_attempts (s : state) :
  steps module_init s ->
  (forall p, Sent p ∈ history s -> 1 <= attempt p <= attempts (opts p) + 1)
  /\ (forall d p, Scheduled d p ∈ history s ->
                  2 <= attempt p <= attempts (opts p) + 1
                  /\ d = retry_delay (attempt p - 1)
                  /\ (200 <= d <= 1000)%Z)
  /\ (forall p, p ∈ inflight s -> Sent p ∈ history s)
  /\ (forall d p, (d, p) ∈ timers s -> Scheduled d p ∈ history s).
Proof.
  intros Hsteps.
  destruct (reachable_sound s Hsteps) as [(Hi & Ht & Hh) _].
  pose proof (proj1 (Forall_forall _ _) Hi) as Hi'.
  pose proof (proj1 (Forall_forall _ _) Ht) as Ht'.
  pose proof (proj1 (Forall_forall _ _) Hh) as Hh'.
  split; [intros p Hp; exact (Hh' _ Hp)|].
  split; [intros d p Hp; exact (Hh' _ Hp)|].
  split; [exact Hi'|]. intros d p Hp. exact (Ht' _ Hp).
Qed.

(** X15: In every state the module can reach, whichever plugin instances
    share the cache, every cached verdict has been handed to a callback,
    and a cached failure is the outcome of a last attempt: it was handed
    to the callback of a validation of that URL that had sent its
    request number [attempts + 1], by the options of its own plugin
    instance.  No validation caches a failure while it has a retry
    left. *)
Theorem cached_failure_after_last_attempt (s : state) (l : string)
    (v : verdict) :
  steps module_init s ->
  validUrlCache s !! l = Some v ->
  (exists c, Called c v ∈ history s)
  /\ (truthy v = true ->
      exists p, Sent p ∈ history s /\ link p = l
                /\ attempt p = attempts (opts p) + 1
                /\ Called (callback p) v ∈ history s).
Proof.
  intros Hsteps Hl.
  destruct (reachable_sound s Hsteps) as [_ Hc].
  exact (Hc l v Hl).
Qed.

End Node.

(** ** On the sample links *)

#[local] Existing Instance Samples.node_on_samples.

Lemma reachable_within_attempts_witness :
  (forall p, Sent p ∈ history Samples.both_failed -> 1 <= attempt p <= 4)
  /\ (forall d p, Scheduled d p ∈ history Samples.both_failed ->
                  (200 <= d <= 1000)%Z).
Proof.
  destruct (reachable_within_attempts Samples.both_failed)
    as (Hsent & Hsched & _).
  - apply (steps_in_steps (failing_on Samples.example_url)).
    exact (steps_in_trans _ _ _ _ first_of_two_failed_reachable
             both_failed_after_first).
  - split.
    + intros p Hp. pose proof (Hsent p Hp) as Hb.
      assert (attempts (opts p) = 3) as E; [|lia].
      vm_compute in Hp.
      repeat (apply elem_of_cons in Hp as [E|Hp];
              [first [discriminate E | injection E as ->; reflexivity]|]).
      inversion Hp.
    + intros d p Hp. apply (Hsched d p Hp).
Defined.

Lemma cached_failure_after_last_attempt_witness :
  exists p, Sent p ∈ history Samples.both_failed
            /\ link p = Samples.example_url
            /\ attempt p = attempts (opts p) + 1
            /\ Called (callback p) (Some "HTTP 503")
                 ∈ history Samples.both_failed.
Proof.
  destruct (cached_failure_after_last_attempt Samples.both_failed
              Samples.example_url (Some "HTTP 503")) as [_ Hlast].
  - apply (steps_in_steps (failing_on Samples.example_url)).
    exact (steps_in_trans _ _ _ _ first_of_two_failed_reachable
             both_failed_after_first).
  - vm_compute. reflexivity.
  - apply Hlast. reflexivity.
Defined.

End InvariantFacts.

(* ================================================================== *)
(** * The report does not depend on the order of the results *)
(* ================================================================== *)

Module ReportOrderFacts.
Import Report ReportFacts.

Lemma sort_Permutation (l l' : list string) : l ≡ₚ l' -> sort l = sort l'.
Proof.
  intros H. unfold sort. apply (Sorted_unique String.le).
  - apply Sorted_merge_sort. apply _.
  - apply Sorted_merge_sort. apply _.
  - rewrite !merge_sort_Permutation. exact H.
Qed.

Lemma broken_lines_Permutation (results results' : list checked) (doc : string) :
  results ≡ₚ results' -> broken_lines results doc ≡ₚ broken_lines results' doc.
Proof.
  rewrite !broken_lines_code.
  induction 1 as [|x l l' _ IH|x y l|l l' l'' _ IH1 _ IH2]; cbn [List.filter].
  - reflexivity.
  - destruct (broken x && String.eqb (filename x) doc); cbn [map];
      [constructor|]; exact IH.
  - destruct (broken x && String.eqb (filename x) doc),
             (broken y && String.eqb (filename y) doc); cbn [map];
      try reflexivity. apply perm_swap.
  - etransitivity; eassumption.
Qed.

Lemma inherited_document_Permutation (results results' : list checked) :
  results ≡ₚ results' -> inherited_document results ->
  inherited_document results'.
Proof.
  intros H (x & Hin & Hb). exists x. rewrite <- H. auto.
Qed.

Lemma keys_Permutation (results results' : list checked)
    (obj obj' : gmap string (list string)) :
  results ≡ₚ results' ->
  (forall doc, obj !! doc = match broken_lines results doc with
                            | [] => None
                            | ls => Some ls
                            end) ->
  (forall doc, obj' !! doc = match broken_lines results' doc with
                             | [] => None
                             | ls => Some ls
                             end) ->
  keys obj ≡ₚ keys obj'.
Proof.
  intros H Hobj Hobj'. apply NoDup_Permutation.
  - apply NoDup_fst_map_to_list.
  - apply NoDup_fst_map_to_list.
  - intros doc.
    rewrite (elem_of_keys_broken results obj doc Hobj),
            (elem_of_keys_broken results' obj' doc Hobj').
    split; intros (x & reason & Hx & Hb); exists x, reason;
      (split; [|exact Hb]).
    + rewrite <- H. exact Hx.
    + rewrite H. exact Hx.
Qed.

(** X16: The calls of [done] do not depend on the order in which the results
    arrive: shuffling the links, or checking them in another order,
    gives the same report, character for character. *)
Theorem completion_order_irrelevant (err : option string)
    (results results' : list checked) :
  results ≡ₚ results' -> completion err results = completion err results'.
Proof.
  intros H. unfold completion. destruct err as [e|]; [reflexivity|].
  destruct (filenamesToLinkErrors_cases results)
    as [[Hinh ->]|(Hown & obj & -> & Hobj)];
    destruct (filenamesToLinkErrors_cases results')
      as [[Hinh' ->]|(Hown' & obj' & -> & Hobj')].
  - reflexivity.
  - destruct Hown'. exact (inherited_document_Permutation _ _ H Hinh).
  - destruct Hown. symmetry in H.
    exact (inherited_document_Permutation _ _ H Hinh').
  - pose proof (keys_Permutation results results' obj obj' H Hobj Hobj') as Hk.
    rewrite (Permutation_length Hk). f_equal.
    destruct (negb _); [|reflexivity].
    assert (message obj = message obj') as ->; [|reflexivity].
    unfold message. rewrite (sort_Permutation _ _ Hk). f_equal.
    apply map_ext. intros doc. unfold block. rewrite Hobj, Hobj'.
    assert (forall ls : list string,
              default [] (match ls with
                          | [] => None
                          | entry :: rest => Some (entry :: rest)
                          end) = ls)
      as Hd by (intros [|? ?]; reflexivity).
    rewrite !Hd.
    rewrite (sort_Permutation _ _ (broken_lines_Permutation _ _ doc H)).
    reflexivity.
Qed.

Lemma completion_order_irrelevant_witness :
  completion None Samples.one_broken_link
  = completion None (rev Samples.one_broken_link).
Proof.
  apply completion_order_irrelevant. apply perm_swap.
Defined.

End ReportOrderFacts.

(* ================================================================== *)
(** * More on the dispatcher and on the event loop *)
(* ================================================================== *)

Module DispatchFacts.
Import Network NetworkFacts Plugin.

Section Node.

Context `{URL}.




(** ** Progress under any schedule *)

Lemma turns_without_request (s : state)
    (earlier later : list probe) (p : probe) :
  inflight s = earlier ++ p :: later ->
  turns s = turns (with_inflight (earlier ++ later) s) + turns_of_request p.
Proof.
  intros E. unfold turns, with_inflight. cbn [inflight timers].
  rewrite E, !sum_list_with_app. cbn [sum_list_with]. lia.
Qed.

Lemma turns_without_timer (s : state)
    (earlier later : list (Z * probe)) (d : Z) (p : probe) :
  timers s = earlier ++ (d, p) :: later ->
  turns s = turns (with_timers (earlier ++ later) s) + turns_of_timer p.
Proof.
  intros E. unfold turns, with_timers. cbn [inflight timers].
  rewrite E, !sum_list_with_app. cbn [sum_list_with snd]. lia.
Qed.

(** X18: Under any schedule and any network the retry loop is bounded:
    every reply and every expired timer lowers the number of turns the
    outstanding work can still take, and starting a validation raises it
    by [2 * attempts + 2] at most (per attempt a request and a wait, and
    one HEAD request answered by a GET fallback). *)
Theorem every_turn_makes_progress (s s' : state) :
  step s s' ->
  turns s' < turns s
  \/ exists o c l,
       s' = start o c l s /\ turns s' <= turns s + (2 * attempts o + 2).
Proof.
  intros [s0 o c l0|s0 earlier p later r Hi _|s0 earlier d p later Ht].
  - right. exists o, c, l0. split; [reflexivity|].
    pose proof (turns_validUrl (Probe l0 o c 1 HEAD) s0) as Hv.
    unfold start, turns_of_request in *.
    cbn [attempt method is_GET opts] in Hv. lia.
  - left. rewrite (turns_without_request s0 earlier later p Hi).
    pose proof (turns_deliver p r (with_inflight (earlier ++ later) s0)). lia.
  - left. rewrite (turns_without_timer s0 earlier later d p Ht).
    pose proof (turns_validUrl p (with_timers (earlier ++ later) s0)).
    unfold turns_of_timer. lia.
Qed.

End Node.

(** ** On the sample links *)

#[local] Existing Instance Samples.node_on_samples.

Lemma every_turn_makes_progress_witness :
  turns Samples.failed_GET_state < turns Samples.fallen_back_state.
Proof.
  destruct (every_turn_makes_progress Samples.fallen_back_state
              Samples.failed_GET_state) as [Hless|(o & c & l & E & _)].
  - exact failed_GET_step.
  - exact Hless.
  - vm_compute. lia.
Defined.

End DispatchFacts.
